(** * organize: the group-filter dependency matcher and the rule executor

    A shallow embedding of [organize/filter.py], [organize/action.py] and
    [Rule.execute] of [organize/rule.py]; beside them, the validation and
    the configuration of a rule ([organize/rule.py]), the filter
    [dircontent], the quality setting of the action [make_pdf] and the
    prototype of the matcher ([test.py]).

    Conventions of the embedding.
    - Python objects that are mutated in place (the resource, the output
      sink, whatever a filter or an action touches outside the process) are
      threaded explicitly as one [State].  A filter or an action is a state
      transformer that returns or raises.
    - A Python [dict] keeps its insertion order; it is an association list
      with in-place replacement ([ODict]).
    - A Python [set] of strings is a [gset string].
    - A [while] loop takes a fuel argument; the theorems give the fuel that
      is enough, and more fuel does not change a result.
    - The walker is outside the engine: [Rule.execute] is given the sequence
      of paths that [self.walk] yields.  Calls of the logger are left out. *)

From Stdlib Require Import ZArith.
From stdpp Require Import gmap strings list relations.

Local Open Scope string_scope.
Local Open Scope Z_scope.
Local Open Scope list_scope.

(** ** Insertion-ordered dictionaries *)

Module ODict.
Section odict.
Context {V : Type}.

Definition t := list (string * V).

Definition keys (d : t) : list string := d.*1.

Fixpoint get (k : string) (d : t) : option V :=
  match d with
  | [] => None
  | (k', v) :: d' => if decide (k' = k) then Some v else get k d'
  end.

(** [d[k] = v]: an existing key keeps its position, a new key goes last. *)
Fixpoint set (k : string) (v : V) (d : t) : t :=
  match d with
  | [] => [(k, v)]
  | (k', v') :: d' =>
      if decide (k' = k) then (k, v) :: d' else (k', v') :: set k v d'
  end.

(** [k in d] *)
Definition contains (k : string) (d : t) : bool := bool_decide (is_Some (get k d)).

(** [d[k] = f(d[k])]; on a missing key Python raises [KeyError] and the
    dictionary is left as it was. *)
Definition update (k : string) (f : V → V) (d : t) : t :=
  match get k d with
  | Some v => set k (f v) d
  | None => d
  end.

(** [{k: v for k, v in l}] *)
Definition from_list (l : list (string * V)) : t :=
  foldl (λ d kv, set kv.1 kv.2 d) [] l.

Definition values (d : t) : list V := d.*2.
End odict.
Arguments t : clear implicits.
End ODict.

(** ** Data model *)

Abbreviation Path := string.

(** Modelled from the spec: the [Resource] class of [organize/resource.py]
    (section 3): the path (absent in standalone mode), the number of the
    rule, the variables the filters record and the paths an action asks the
    walker to skip. *)
Record Resource := mkResource {
  path : option Path;
  rule_nr : nat;
  vars : list (string * string);
  walker_skip_pathes : gset Path
}.

(** Modelled from the spec: what the output sink of [organize/output.py]
    receives on [output.msg(res=, msg=, level=, sender=)] (section 6). *)
Record Message := mkMessage {
  msg_path : option Path;
  msg_level : string;
  msg_text : string;
  msg_sender : string
}.

(** Exceptions: [StopIteration] and every other subclass of [Exception],
    with its [str(e)]. *)
Inductive exn :=
  | StopIteration
  | Error (text : string).

Definition exn_str (e : exn) : string :=
  match e with
  | StopIteration => ""
  | Error text => text
  end.

Inductive Outcome (A : Type) :=
  | Return (a : A)
  | Raise (e : exn).
Arguments Return {A} a.
Arguments Raise {A} e.

Inductive FilterMode := mode_all | mode_any | mode_none.
Inductive DependOnMode := depend_and | depend_or.

#[global] Instance FilterMode_eq_dec : EqDecision FilterMode.
Proof. solve_decision. Defined.

#[global] Instance DependOnMode_eq_dec : EqDecision DependOnMode.
Proof. solve_decision. Defined.

Record FilterConfig := mkFilterConfig {
  fc_name : string;
  fc_files : bool;
  fc_dirs : bool
}.

Record ActionConfig := mkActionConfig {
  ac_name : string;
  ac_standalone : bool;
  ac_files : bool;
  ac_dirs : bool
}.

Section Engine.
Context {Env : Type}.

(** Everything a filter or an action can read and write: the resource
    under evaluation, the messages sent to the output sink, and the rest
    of the world. *)
Record State := mkState {
  st_res : Resource;
  st_out : list Message;
  st_env : Env
}.

(** [output.msg(res=res, level=level, msg=msg, sender=sender)] *)
Definition output_msg (level msg sender : string) (st : State) : State :=
  {| st_res := st_res st;
     st_out := st_out st ++ [mkMessage (path (st_res st)) level msg sender];
     st_env := st_env st |}.

(** The [Filter] protocol: a capability descriptor and
    [pipeline(res, output) -> bool], which may raise. *)
Record Filter := mkFilter {
  filter_config : FilterConfig;
  filter_run : State → Outcome bool * State
}.

Record GroupFilter := mkGroupFilter {
  name : string;
  filters : list Filter;
  filter_mode : FilterMode;
  depend_on : gset string;
  depend_on_mode : DependOnMode;
  depend_on_inverted : gset string
}.

(** *** Boolean combinators ([filter.py], [Not], [All], [Any]) *)

Definition Not (f : Filter) : Filter :=
  {| filter_config := filter_config f;
     filter_run := λ st,
       match filter_run f st with
       | (Return b, st') => (Return (negb b), st')
       | (Raise e, st') => (Raise e, st')
       end |}.

Fixpoint All_pipeline (fs : list Filter) (st : State) : bool * State :=
  match fs with
  | [] => (true, st)
  | f :: rest =>
      match filter_run f st with
      | (Return true, st') => All_pipeline rest st'
      | (Return false, st') => (false, st')
      | (Raise e, st') =>
          (false, output_msg "error" (exn_str e) (fc_name (filter_config f)) st')
      end
  end.

Fixpoint Any_loop (fs : list Filter) (result : bool) (st : State) : bool * State :=
  match fs with
  | [] => (result, st)
  | f :: rest =>
      match filter_run f st with
      | (Return m, st') => Any_loop rest (if m then true else result) st'
      | (Raise e, st') =>
          Any_loop rest result
            (output_msg "error" (exn_str e) (fc_name (filter_config f)) st')
      end
  end.

Definition Any_pipeline (fs : list Filter) (st : State) : bool * State :=
  Any_loop fs false st.

Definition filter_pipeline (fs : list Filter) (mode : FilterMode) (st : State)
  : bool * State :=
  match mode with
  | mode_all => All_pipeline fs st
  | mode_any => Any_pipeline fs st
  | mode_none => All_pipeline (Not <$> fs) st
  end.

Definition GroupFilter_pipeline (g : GroupFilter) (st : State) : bool * State :=
  filter_pipeline (filters g) (filter_mode g) st.

(** *** The dependency graph ([GroupFilter.is_cyclic], [GroupFilter.match]) *)

(** [nodes = {node.name: node for node in node_map}] *)
Definition make_nodes (node_map : list GroupFilter) : ODict.t GroupFilter :=
  ODict.from_list ((λ node, (name node, node)) <$> node_map).

(** [in_degree = {name: 0 for name in nodes}] *)
Definition init_in_degree (nodes : ODict.t GroupFilter) : ODict.t Z :=
  ODict.from_list ((λ k, (k, 0)) <$> ODict.keys nodes).

(** [children = {name: [] for name in nodes}] *)
Definition init_children (nodes : ODict.t GroupFilter) : ODict.t (list string) :=
  ODict.from_list ((λ k, (k, [])) <$> ODict.keys nodes).

(** The body of [for dep in node.depend_on]. *)
Definition add_dependency (nodes : ODict.t GroupFilter) (node : GroupFilter)
    (acc : ODict.t Z * ODict.t (list string)) (dep : string)
  : ODict.t Z * ODict.t (list string) :=
  if ODict.contains dep nodes then
    (ODict.update (name node) (λ d, d + 1) acc.1,
     ODict.update dep (λ l, l ++ [name node]) acc.2)
  else acc.

(** The two nested loops that fill [in_degree] and [children].  A Python
    set is walked in an order of its own; [elements] fixes one, and the
    outcome depends on membership only ([build_graph_spec]). *)
Definition build_graph (nodes : ODict.t GroupFilter)
  : ODict.t Z * ODict.t (list string) :=
  foldl (λ acc node, foldl (add_dependency nodes node) acc (elements (depend_on node)))
        (init_in_degree nodes, init_children nodes)
        (ODict.values nodes).

(** [[name for name, deg in in_degree.items() if deg == 0]] *)
Definition zero_in_degree (in_degree : ODict.t Z) : list string :=
  (filter (λ kv, kv.2 = 0) in_degree).*1.

(** [children[name]].  A missing key is a [KeyError] in Python; the names
    looked up are keys ([lookups_succeed], [match_trace_known]). *)
Definition children_of (children : ODict.t (list string)) (k : string) : list string :=
  default [] (ODict.get k children).

(** The body of [for child in children[current]] of Kahn's loop. *)
Definition release_child (acc : ODict.t Z * list string) (child : string)
  : ODict.t Z * list string :=
  let in_degree := ODict.update child (λ d, d - 1) acc.1 in
  if decide (ODict.get child in_degree = Some 0)
  then (in_degree, acc.2 ++ [child])
  else (in_degree, acc.2).

(** [while queue: ...]; the result is [visited_count]. *)
Fixpoint kahn_loop (fuel : nat) (children : ODict.t (list string))
    (queue : list string) (in_degree : ODict.t Z) (visited_count : nat)
  : option nat :=
  match queue with
  | [] => Some visited_count
  | current :: queue' =>
      match fuel with
      | O => None
      | S fuel' =>
          let acc := foldl release_child (in_degree, queue') (children_of children current) in
          kahn_loop fuel' children acc.2 acc.1 (S visited_count)
      end
  end.

Definition GroupFilter_is_cyclic (fuel : nat) (node_map : list GroupFilter) : option bool :=
  let nodes := make_nodes node_map in
  let g := build_graph nodes in
  visited_count ← kahn_loop fuel g.2 (zero_in_degree g.1) g.1 0%nat;
  Some (negb (bool_decide (visited_count = length nodes))).

(** The state of one round of [GroupFilter.match]. *)
Record Round := mkRound {
  r_in_degree : ODict.t Z;
  r_next_round : list string;
  r_round_matched : list string;
  r_state : State
}.

(** The body of [for child in children[name]] of the matcher.  [nodes[child]]
    and [in_degree[child]] find their key ([lookups_succeed]). *)
Definition propagate (nodes : ODict.t GroupFilter) (name_ : string) (matched : bool)
    (acc : ODict.t Z * list string) (child : string) : ODict.t Z * list string :=
  match ODict.get child nodes with
  | Some child_node =>
      if xorb matched (bool_decide (name_ ∈ depend_on_inverted child_node)) then
        let in_degree := ODict.update child (λ d, d - 1) acc.1 in
        if bool_decide (depend_on_mode child_node = depend_or)
           || bool_decide (ODict.get child in_degree = Some 0)
        then (in_degree, acc.2 ++ [child])
        else (in_degree, acc.2)
      else acc
  | None => acc
  end.

(** The body of [for name in current_round].  [nodes[name]] finds its key:
    a frontier holds names of the collection ([match_trace_known]). *)
Definition visit (nodes : ODict.t GroupFilter) (children : ODict.t (list string))
    (r : Round) (name_ : string) : Round :=
  match ODict.get name_ nodes with
  | Some node =>
      let '(matched, st) := GroupFilter_pipeline node (r_state r) in
      let acc := foldl (propagate nodes name_ matched)
                       (r_in_degree r, r_next_round r)
                       (children_of children name_) in
      {| r_in_degree := acc.1;
         r_next_round := acc.2;
         r_round_matched :=
           if matched then r_round_matched r ++ [name_] else r_round_matched r;
         r_state := st |}
  | None => r
  end.

Definition run_round (nodes : ODict.t GroupFilter) (children : ODict.t (list string))
    (current_round : list string) (in_degree : ODict.t Z) (st : State) : Round :=
  foldl (visit nodes children) (mkRound in_degree [] [] st) current_round.

(** [while current_round: ...] *)
Fixpoint match_loop (fuel : nat) (nodes : ODict.t GroupFilter)
    (children : ODict.t (list string)) (current_round : list string)
    (in_degree : ODict.t Z) (result : list string) (st : State)
  : option (list string * State) :=
  match current_round with
  | [] => Some (result, st)
  | _ :: _ =>
      match fuel with
      | O => None
      | S fuel' =>
          let r := run_round nodes children current_round in_degree st in
          match_loop fuel' nodes children (r_next_round r) (r_in_degree r)
                     (result ++ r_round_matched r) (r_state r)
      end
  end.

(** [GroupFilter.match]: [None] when a loop has not finished within the
    fuel; otherwise Python's result ([None] for a cyclic graph) and the
    state the filters left. *)
Definition GroupFilter_match (fuel : nat) (node_map : list GroupFilter) (st : State)
  : option (option (list string) * State) :=
  cyclic ← GroupFilter_is_cyclic fuel node_map;
  if cyclic : bool then Some (None, st)
  else
    let nodes := make_nodes node_map in
    let g := build_graph nodes in
    '(result, st') ← match_loop fuel nodes g.2 (zero_in_degree g.1) g.1 [] st;
    Some (Some result, st').

(** [group_filter_pipeline]: raises [ValueError] on a cyclic graph. *)
Definition group_filter_pipeline (fuel : nat) (gfs : list GroupFilter) (st : State)
  : option (Outcome (option (list string)) * State) :=
  cyclic ← GroupFilter_is_cyclic fuel gfs;
  if cyclic : bool then Some (Raise (Error "Cyclic dependency detected in filters."), st)
  else
    '(result, st') ← GroupFilter_match fuel gfs st;
    Some (Return result, st').

(** *** Actions ([action.py]) *)

(** The [Action] protocol: a capability descriptor and
    [pipeline(res, output, simulate)], which returns nothing and may raise. *)
Record Action := mkAction {
  action_config : ActionConfig;
  action_run : bool → State → Outcome unit * State
}.

Record GroupAction := mkGroupAction {
  ga_name : string;
  actions : list Action
}.

(** [HasActionPipeline]: what [action_pipeline] asks of its elements; [label]
    is how the element shows as the sender of a message. *)
Class HasActionPipeline (A : Type) := {
  pipeline : A → bool → State → Outcome unit * State;
  label : A → string
}.

(** How a loop [for action in action_pipeline(...): pass] ends: the
    generator is exhausted, or an exception other than [StopIteration]
    leaves it while [sender] is the action the loop variable holds. *)
Inductive Drained :=
  | Exhausted
  | Propagated (text : string) (sender : string).

(** [action_pipeline], driven to its end.  [StopIteration] raised by an
    action is caught in the generator, which breaks out of its loop. *)
Fixpoint action_pipeline {A} `{HasActionPipeline A}
    (acts : list A) (simulate : bool) (st : State) : Drained * State :=
  match acts with
  | [] => (Exhausted, st)
  | action :: rest =>
      match pipeline action simulate st with
      | (Return _, st') => action_pipeline rest simulate st'
      | (Raise StopIteration, st') => (Exhausted, st')
      | (Raise (Error text), st') => (Propagated text (label action), st')
      end
  end.

#[export] Instance Action_pipeline : HasActionPipeline Action :=
  {| pipeline := action_run; label := λ a, ac_name (action_config a) |}.

(** [GroupAction.pipeline] *)
Definition GroupAction_pipeline (g : GroupAction) (simulate : bool) (st : State)
  : Outcome unit * State :=
  match action_pipeline (actions g) simulate st with
  | (Exhausted, st') => (Return (), st')
  | (Propagated text _, st') => (Raise (Error text), st')
  end.

#[export] Instance GroupAction_has_pipeline : HasActionPipeline GroupAction :=
  {| pipeline := GroupAction_pipeline; label := ga_name |}.

(** *** The rule executor ([Rule.execute]) *)

(** Modelled from the spec: [ReportSummary] of [organize/utils.py], the
    counts of successes and errors (section 4.4). *)
Record ReportSummary := mkSummary {
  success : nat;
  errors : nat
}.

(** The fields of [Rule] that [execute] reads.  [filters] and [actions]
    are unions of a flat list and a list of groups; of [locations] only
    the emptiness matters here. *)
Record Rule := mkRule {
  enabled : bool;
  locations : list Path;
  rule_filters : list Filter + list GroupFilter;
  rule_filter_mode : FilterMode;
  rule_actions : list Action + list GroupAction
}.

(** Modelled from the spec: [classify_by_type] of [organize/utils.py] is
    not among the sources.  A rule holds a flat list or a map of groups
    (section 3), and [execute] takes the groups and the flat elements apart
    by their type: on a list of one kind the other class is empty. *)
Definition classify_by_type {A B} (l : list A + list B) : list B * list A :=
  match l with
  | inl flat => ([], flat)
  | inr groups => (groups, [])
  end.

(** What the loop of [execute] carries from one resource to the next. *)
Record Exec := mkExec {
  summary : ReportSummary;
  skip_pathes : gset Path;
  ex_out : list Message;
  ex_env : Env
}.

(** [Resource(path=Path(path), basedir=..., rule=self, rule_nr=rule_nr)] *)
Definition new_resource (p : option Path) (nr : nat) : Resource :=
  mkResource p nr [] ∅.

Definition add_success (s : ReportSummary) : ReportSummary :=
  {| success := S (success s); errors := errors s |}.

Definition add_error (s : ReportSummary) : ReportSummary :=
  {| success := success s; errors := S (errors s) |}.

(** The [try: ... except Exception as e: ...] block that [execute] has
    once for the group actions and once for the flat actions. *)
Definition try_actions {A} `{HasActionPipeline A} (acts : list A) (simulate : bool)
    (sm : ReportSummary) (skip : gset Path) (st : State)
  : ReportSummary * gset Path * State :=
  match action_pipeline acts simulate st with
  | (Exhausted, st') =>
      (add_success sm, skip ∪ walker_skip_pathes (st_res st'), st')
  | (Propagated text sender, st') =>
      (add_error sm, skip, output_msg "error" text sender st')
  end.

(** [bool(self.actions)] *)
Definition has_actions (r : Rule) : bool :=
  match rule_actions r with
  | inl flat => bool_decide (flat ≠ [])
  | inr groups => bool_decide (groups ≠ [])
  end.

(** The flat half of the loop body: [filter_pipeline] and, on a match,
    the flat actions. *)
Definition flat_branch (r : Rule) (simulate : bool)
    (sm : ReportSummary) (skip : gset Path) (st : State)
  : ReportSummary * gset Path * State :=
  let fs := (classify_by_type (rule_filters r)).2 in
  let acts := (classify_by_type (rule_actions r)).2 in
  let '(result, st1) := filter_pipeline fs (rule_filter_mode r) st in
  if result && has_actions r
  then try_actions acts simulate sm skip st1
  else (sm, skip, st1).

(** The group half of the loop body, entered when [group_filters] is not
    empty.  [Raise]: an exception that [execute] does not catch. *)
Definition group_branch (fuel : nat) (r : Rule) (simulate : bool)
    (sm : ReportSummary) (skip : gset Path) (st : State)
  : option (Outcome (ReportSummary * gset Path) * State) :=
  let group_filters := (classify_by_type (rule_filters r)).1 in
  let group_actions := (classify_by_type (rule_actions r)).1 in
  res ← group_filter_pipeline fuel group_filters st;
  match res with
  | (Raise e, st1) => Some (Raise e, st1)
  | (Return None, st1) =>
      Some (Raise (Error "argument of type 'NoneType' is not iterable"), st1)
  | (Return (Some result), st1) =>
      let matched_group_actions := filter (λ a, ga_name a ∈ result) group_actions in
      let '(sm', skip', st2) := try_actions matched_group_actions simulate sm skip st1 in
      Some (Return (sm', skip'), st2)
  end.

Definition exec_of (sm : ReportSummary) (skip : gset Path) (st : State) : Exec :=
  mkExec sm skip (st_out st) (st_env st).

(** The body of [for res in self.walk(rule_nr=rule_nr)].  [None]: a loop
    of the matcher ran out of fuel.  [Raise]: an exception left the body;
    the [Exec] beside it holds the sink and the world at that point. *)
Definition process_resource (fuel : nat) (r : Rule) (simulate : bool) (nr : nat)
    (x : Exec) (p : Path) : option (Outcome unit * Exec) :=
  if bool_decide (p ∈ skip_pathes x) then Some (Return (), x)
  else
    let st := mkState (new_resource (Some p) nr) (ex_out x) (ex_env x) in
    match (classify_by_type (rule_filters r)).1 with
    | [] =>
        let '(sm, skip, st') := flat_branch r simulate (summary x) (skip_pathes x) st in
        Some (Return (), exec_of sm skip st')
    | _ :: _ =>
        res ← group_branch fuel r simulate (summary x) (skip_pathes x) st;
        match res with
        | (Raise e, st1) => Some (Raise e, exec_of (summary x) (skip_pathes x) st1)
        | (Return (sm1, skip1), st1) =>
            let '(sm, skip, st') := flat_branch r simulate sm1 skip1 st1 in
            Some (Return (), exec_of sm skip st')
        end
    end.

(** The loop over the walked paths, left by the first uncaught exception. *)
Fixpoint execute_loop (fuel : nat) (r : Rule) (simulate : bool) (nr : nat)
    (walk : list Path) (x : Exec) : option (Outcome unit * Exec) :=
  match walk with
  | [] => Some (Return (), x)
  | p :: rest =>
      res ← process_resource fuel r simulate nr x p;
      match res with
      | (Return _, x') => execute_loop fuel r simulate nr rest x'
      | (Raise e, x') => Some (Raise e, x')
      end
  end.

(** [Rule.execute].  [walk] is the sequence of paths that [self.walk]
    yields; [out] and [env] are the output sink and the world before the
    call.  On [Return] the summary of the [Exec] is the value returned; on
    [Raise] the exception leaves [execute] and no summary is returned. *)
Definition Rule_execute (fuel : nat) (r : Rule) (simulate : bool) (nr : nat)
    (walk : list Path) (out : list Message) (env : Env)
  : option (Outcome unit * Exec) :=
  let start := mkExec (mkSummary 0 0) ∅ out env in
  if negb (enabled r) then Some (Return (), start)
  else
    match locations r with
    | [] =>
        let acts := (classify_by_type (rule_actions r)).2 in
        let st := mkState (new_resource None nr) out env in
        match action_pipeline acts simulate st with
        | (Exhausted, st') => Some (Return (), exec_of (mkSummary 1 0) ∅ st')
        | (Propagated text sender, st') =>
            Some (Return (), exec_of (mkSummary 0 1) ∅ (output_msg "error" text sender st'))
        end
    | _ :: _ => execute_loop fuel r simulate nr walk start
    end.

(** *** Auxiliary notions used to state the properties *)

(** The number of increments a summary has received. *)
Definition total (sm : ReportSummary) : nat := (success sm + errors sm)%nat.

(** [edge nodes p c]: the group [c] depends on the group [p], and the
    collection knows [p].  [nodes] is the collection as the matcher sees it,
    a dictionary keyed by name. *)
Definition edge (nodes : ODict.t GroupFilter) (p c : string) : Prop :=
  ∃ node, ODict.get c nodes = Some node ∧ p ∈ depend_on node ∧ p ∈ ODict.keys nodes.

(** The [depend_on] edges of the collection, restricted to known names,
    contain a cycle. *)
Definition has_cycle (node_map : list GroupFilter) : Prop :=
  ∃ k, tc (edge (make_nodes node_map)) k k.

(** How many times [k] occurs in [l]. *)
Definition occurrences (k : string) (l : list string) : nat := length (filter (k =.) l).

(** The rounds of [match_loop]: the frontier of each round and the names
    the round confirmed as matched. *)
Fixpoint match_trace (fuel : nat) (nodes : ODict.t GroupFilter)
    (children : ODict.t (list string)) (current_round : list string)
    (in_degree : ODict.t Z) (st : State) : list (list string * list string) :=
  match current_round with
  | [] => []
  | _ :: _ =>
      match fuel with
      | O => []
      | S fuel' =>
          let r := run_round nodes children current_round in_degree st in
          (current_round, r_round_matched r)
          :: match_trace fuel' nodes children (r_next_round r) (r_in_degree r) (r_state r)
      end
  end.

(** Every filter of [fs], run one after the other from [st], returns [True];
    the state they leave. *)
Fixpoint all_match (fs : list Filter) (st : State) : option State :=
  match fs with
  | [] => Some st
  | f :: rest =>
      match filter_run f st with
      | (Return true, st') => all_match rest st'
      | _ => None
      end
  end.

(** Every action of [acts], run one after the other from [st], returns
    without raising; the state they leave. *)
Fixpoint all_return (acts : list Action) (simulate : bool) (st : State) : option State :=
  match acts with
  | [] => Some st
  | a :: rest =>
      match action_run a simulate st with
      | (Return _, st') => all_return rest simulate st'
      | _ => None
      end
  end.

End Engine.

(** ** Further parts of the program *)

(** *** Validation of a rule ([Rule.validate_target_support], [rule.py]) *)

(** The double quote of the messages. *)
Definition dquote : string := String (Ascii.ascii_of_nat 34) EmptyString.

(** [f'{kind} "{name}" does not support ' what] *)
Definition not_supported (kind name_ what : string) : string :=
  kind +:+ " " +:+ dquote +:+ name_ +:+ dquote +:+ " does not support " +:+ what.

(** [for x in xs: if not ok(x): raise ValueError(msg(x))] *)
Fixpoint check_each {A} (ok : A → bool) (msg : A → string) (xs : list A) : Outcome unit :=
  match xs with
  | [] => Return ()
  | x :: rest => if ok x then check_each ok msg rest else Raise (Error (msg x))
  end.

(** Sequencing of two checks: the second runs when the first has not raised. *)
Definition and_then (c1 c2 : Outcome unit) : Outcome unit :=
  match c1 with
  | Return _ => c2
  | Raise e => Raise e
  end.

Section Setup.
Context {Env : Type}.

(** [all_filters]: the flat filters appended one by one, the filters of a
    group appended by [extend]. *)
Definition all_filters (r : @Rule Env) : list (@Filter Env) :=
  match rule_filters r with
  | inl fs => foldl (λ acc f, acc ++ [f]) [] fs
  | inr gfs => foldl (λ acc g, acc ++ filters g) [] gfs
  end.

Definition all_actions (r : @Rule Env) : list (@Action Env) :=
  match rule_actions r with
  | inl acts => foldl (λ acc a, acc ++ [a]) [] acts
  | inr gas => foldl (λ acc g, acc ++ actions g) [] gas
  end.

(** [bool(self.filters)] *)
Definition has_filters (r : @Rule Env) : bool :=
  match rule_filters r with
  | inl fs => bool_decide (fs ≠ [])
  | inr gfs => bool_decide (gfs ≠ [])
  end.

(** [Rule.validate_target_support].  [targets] is the field [self.targets]
    of the rule, which the record [Rule] does not carry; [Return ()] stands
    for [return self]. *)
Definition validate_target_support (targets : string) (r : @Rule Env) : Outcome unit :=
  let filter_name (f : @Filter Env) := fc_name (filter_config f) in
  let action_name (a : @Action Env) := ac_name (action_config a) in
  and_then
    (match locations r with
     | [] =>
         if has_filters r
         then Raise (Error "Filters are present but no locations are given!")
         else check_each (λ a, ac_standalone (action_config a))
                (λ a, not_supported "Action" (action_name a)
                        "standalone mode (no rule.locations specified).")
                (all_actions r)
     | _ :: _ => Return ()
     end)
    (if bool_decide (targets = "dirs") then
       and_then
         (check_each (λ f, fc_dirs (filter_config f))
            (λ f, not_supported "Filter" (filter_name f) "folders (targets: dirs)")
            (all_filters r))
         (check_each (λ a, ac_dirs (action_config a))
            (λ a, not_supported "Action" (action_name a) "folders (targets: dirs)")
            (all_actions r))
     else if bool_decide (targets = "files") then
       and_then
         (check_each (λ f, fc_files (filter_config f))
            (λ f, not_supported "Filter" (filter_name f) "files (targets: files)")
            (all_filters r))
         (check_each (λ a, ac_files (action_config a))
            (λ a, not_supported "Action" (action_name a) "files (targets: files)")
            (all_actions r))
     else Raise (Error ("Unknown target: " +:+ targets))).

(** *** Groups from the configuration ([group_filter_from_dict], [rule.py]) *)

(** [s[n:]] *)
Fixpoint string_drop (n : nat) (s : string) : string :=
  match n, s with
  | O, _ => s
  | S n', String _ s' => string_drop n' s'
  | S _, EmptyString => EmptyString
  end.

(** The body of [for dep in original_depend_on]; the accumulator is
    [(depend_on, depend_on_inverted)]. *)
Definition add_dep (acc : gset string * gset string) (dep : string)
  : gset string * gset string :=
  if String.prefix "not " dep then
    let dep' := string_drop 4 dep in
    (acc.1 ∪ {[dep']}, acc.2 ∪ {[dep']})
  else (acc.1 ∪ {[dep]}, acc.2).

(** The entry of one group in the configuration: [filters] is what
    [transform_instances] made of [d.get("filters", [])], [filter_mode] is
    [d.get("filter_mode", "all")], [depend_on] is [d.get("depend_on", [])]. *)
Record GroupFilterDict := mkGroupFilterDict {
  d_filters : list (@Filter Env);
  d_filter_mode : FilterMode;
  d_depend_on : list string
}.

(** [group_filter_from_dict].  [depend_on_mode] is not passed to
    [GroupFilter]: it takes the default of the dataclass, ["and"]. *)
Definition group_filter_from_dict (name_ : string) (d : GroupFilterDict) : @GroupFilter Env :=
  let original_depend_on : gset string := list_to_set (d_depend_on d) in
  let sets := foldl add_dep (∅, ∅) (elements original_depend_on) in
  mkGroupFilter name_ (d_filters d) (d_filter_mode d) sets.1 depend_and sets.2.

(** [transform_instances_dict(instances, group_filter_from_dict)] *)
Definition transform_instances_dict (instances : ODict.t GroupFilterDict)
  : list (@GroupFilter Env) :=
  (λ kv, group_filter_from_dict kv.1 kv.2) <$> instances.

End Setup.

(** *** The filter [dircontent] ([filters/dircontent.py]) *)

Module DirContent.

(** A POSIX path as [pathlib] compares it: the sequence of its parts.  The
    first part of an absolute path is its root, ["/"] or ["//"]; [Path(".")]
    has no parts. *)
Definition Parts := list string.

Definition is_absolute (path : Parts) : bool :=
  match path with
  | root :: _ => bool_decide (root = "/") || bool_decide (root = "//")
  | [] => false
  end.

(** [path.relative_to(base)]: [None] stands for the [ValueError] raised
    when the parts of [base] do not start [path], and when [base] has no
    parts while [path] is absolute. *)
Definition relative_to (path base : Parts) : option Parts :=
  match base with
  | [] => if is_absolute path then None else Some path
  | _ :: _ =>
      if bool_decide (base `prefix_of` path) then Some (drop (length base) path) else None
  end.

(** [BaseDirSet.add], on the list [self._base_dirs]. *)
Fixpoint add (path : Parts) (base_dirs : list Parts) : list Parts :=
  match base_dirs with
  | [] => [path]
  | base_dir :: rest =>
      match relative_to path base_dir with
      | Some _ => base_dir :: rest
      | None =>
          match relative_to base_dir path with
          | Some _ => path :: rest
          | None => base_dir :: add path rest
          end
      end
  end.

(** [BaseDirSet.has] *)
Definition has (path : Parts) (base_dirs : list Parts) : bool :=
  existsb (λ p, bool_decide (p = path)) base_dirs.

Definition filter_config : FilterConfig := mkFilterConfig "dircontent" false true.

(** What [pipeline] asks of an entry of [res.path.iterdir()]. *)
Record Child := mkChild {
  is_file : bool;
  is_dir : bool
}.

(** The values of [mode] that [validate_mode] lets through. *)
Inductive Mode := mode_file_dirs | mode_only_files | mode_only_dirs | mode_empty | mode_not_empty.

(** The loop of the mode [file_dirs]; [base_dirs] is the list held by
    [self._base_dir_sets]. *)
Fixpoint file_dirs_loop (base_file_dirs : bool) (path : Parts) (children : list Child)
    (has_file has_dir : bool) (base_dirs : list Parts) : bool * list Parts :=
  match children with
  | [] => (false, base_dirs)
  | child :: rest =>
      let has_file := if is_file child then true else has_file in
      let has_dir := if is_dir child then true else has_dir in
      if has_file && has_dir then
        if base_file_dirs
        then (has path (add path base_dirs), add path base_dirs)
        else (true, base_dirs)
      else file_dirs_loop base_file_dirs path rest has_file has_dir base_dirs
  end.

(** [DirContent.pipeline].  [path] is [res.path], [children] what
    [res.path.iterdir()] yields. *)
Definition pipeline (mode : Mode) (base_file_dirs : bool) (path : option Parts)
    (children : list Child) (base_dirs : list Parts) : Outcome bool * list Parts :=
  match path with
  | None => (Raise (Error "Does not support standalone mode"), base_dirs)
  | Some p =>
      match mode with
      | mode_file_dirs =>
          let '(result, base_dirs') :=
            file_dirs_loop base_file_dirs p children false false base_dirs in
          (Return result, base_dirs')
      | mode_only_files => (Return (forallb is_file children), base_dirs)
      | mode_only_dirs => (Return (forallb is_dir children), base_dirs)
      | mode_empty => (Return (bool_decide (head children = None)), base_dirs)
      | mode_not_empty => (Return (bool_decide (head children ≠ None)), base_dirs)
      end
  end.

End DirContent.

(** *** The capability descriptors of the other filters and actions *)

Module MediaInfo.
Definition filter_config : FilterConfig := mkFilterConfig "mediainfo" true false.
End MediaInfo.

Module OtakuMediaInfos.
Definition filter_config : FilterConfig := mkFilterConfig "otaku_mediainfos" true false.
End OtakuMediaInfos.

Module MakeHeic.
Definition action_config : ActionConfig := mkActionConfig "make_heic" false true true.
End MakeHeic.

Module ExtractHeic.
Definition action_config : ActionConfig := mkActionConfig "extract_heic" false true false.
End ExtractHeic.

(** *** The action [make_pdf] ([actions/make_pdf.py]) *)

Module MakePdf.

Definition action_config : ActionConfig := mkActionConfig "make_pdf" false true true.

(** [max(1, min(95, 100 - compression_level + 1))] *)
Definition jpeg_quality (compression_level : Z) : Z :=
  Z.max 1 (Z.min 95 (100 - compression_level + 1)).

(** [pdf_options] of [merge_images_to_pdf]: [None] for the empty
    dictionary, [Some (compress, quality)] otherwise. *)
Definition pdf_options (compression_level : Z) : option (bool * Z) :=
  if bool_decide (compression_level = 0) then None
  else Some (true, jpeg_quality compression_level).

End MakePdf.

(** *** The prototype of the matcher ([test.py]) *)

Module Prototype.
Section prototype.
Context {St : Type}.

(** A [Node]: its name, the names it depends on, and [match], a function
    without arguments; what it reads and changes is the state [St]. *)
Record Node := mkNode {
  n_name : string;
  dependOn : list string;
  n_match : St → bool * St
}.

(** [nodes = {node["name"]: node for node in node_map}] *)
Definition make_nodes (node_map : list Node) : ODict.t Node :=
  ODict.from_list ((λ node, (n_name node, node)) <$> node_map).

(** The body of [for dep in node.get("dependOn", [])]. *)
Definition add_dependency (nodes : ODict.t Node) (node : Node)
    (acc : ODict.t Z * ODict.t (list string)) (dep : string)
  : ODict.t Z * ODict.t (list string) :=
  if ODict.contains dep nodes then
    (ODict.update (n_name node) (λ d, d + 1) acc.1,
     ODict.update dep (λ l, l ++ [n_name node]) acc.2)
  else acc.

Definition build_graph (nodes : ODict.t Node) : ODict.t Z * ODict.t (list string) :=
  foldl (λ acc node, foldl (add_dependency nodes node) acc (dependOn node))
        (ODict.from_list ((λ k, (k, 0)) <$> ODict.keys nodes),
         ODict.from_list ((λ k, (k, [])) <$> ODict.keys nodes))
        (ODict.values nodes).

(** [is_cyclic]: its [while] loop is, word for word, the one of
    [GroupFilter.is_cyclic] ([kahn_loop]). *)
Definition is_cyclic (fuel : nat) (node_map : list Node) : option bool :=
  let nodes := make_nodes node_map in
  let g := build_graph nodes in
  visited_count ← kahn_loop fuel g.2 (zero_in_degree g.1) g.1 0%nat;
  Some (negb (bool_decide (visited_count = length nodes))).

(** The state of one round of [find_matching_path]. *)
Record Round := mkRound {
  p_in_degree : ODict.t Z;
  p_next_round : list string;
  p_round_matched : list string;
  p_state : St
}.

(** The body of [for name in current_round]: the children of a node are
    released only when the node matches. *)
Definition visit (nodes : ODict.t Node) (children : ODict.t (list string))
    (r : Round) (name_ : string) : Round :=
  match ODict.get name_ nodes with
  | Some node =>
      let '(matched, st) := n_match node (p_state r) in
      if matched then
        let acc := foldl release_child (p_in_degree r, p_next_round r)
                         (children_of children name_) in
        mkRound acc.1 acc.2 (p_round_matched r ++ [name_]) st
      else mkRound (p_in_degree r) (p_next_round r) (p_round_matched r) st
  | None => r
  end.

(** [while current_round: ...], left by [break] after a round that matched
    nothing. *)
Fixpoint match_loop (fuel : nat) (nodes : ODict.t Node)
    (children : ODict.t (list string)) (current_round : list string)
    (in_degree : ODict.t Z) (result : list string) (st : St)
  : option (list string * St) :=
  match current_round with
  | [] => Some (result, st)
  | _ :: _ =>
      match fuel with
      | O => None
      | S fuel' =>
          let r := foldl (visit nodes children) (mkRound in_degree [] [] st) current_round in
          match p_round_matched r with
          | [] => Some (result, p_state r)
          | _ :: _ =>
              match_loop fuel' nodes children (p_next_round r) (p_in_degree r)
                         (result ++ p_round_matched r) (p_state r)
          end
      end
  end.

(** [find_matching_path]: [None] when a loop has not finished within the
    fuel; otherwise Python's result ([None] for a cyclic graph) and the
    state the calls of [match] left. *)
Definition find_matching_path (fuel : nat) (node_map : list Node) (st : St)
  : option (option (list string) * St) :=
  cyclic ← is_cyclic fuel node_map;
  if cyclic : bool then Some (None, st)
  else
    let nodes := make_nodes node_map in
    let g := build_graph nodes in
    '(result, st') ← match_loop fuel nodes g.2 (zero_in_degree g.1) g.1 [] st;
    Some (Some result, st').

End prototype.
End Prototype.

(** * Facts about ordered dictionaries *)

Module ODictFacts.
Section facts.
Context {V : Type}.
Implicit Types (d : ODict.t V) (k : string) (v : V).

Lemma get_set d k k' v :
  ODict.get k' (ODict.set k v d) = if decide (k = k') then Some v else ODict.get k' d.
Proof.
  induction d as [|[k0 v0] d IH]; simpl.
  - repeat case_decide; congruence.
  - destruct (decide (k0 = k)) as [->|Hne]; simpl.
    + repeat case_decide; congruence.
    + rewrite IH. repeat case_decide; congruence.
Qed.

Lemma elem_of_keys d k : k ∈ ODict.keys d ↔ is_Some (ODict.get k d).
Proof.
  unfold ODict.keys. induction d as [|[k0 v0] d IH]; simpl.
  - rewrite elem_of_nil. split; [done | by intros [? ?]].
  - rewrite elem_of_cons, IH. case_decide; subst.
    + split; eauto.
    + split; [intros [?|?]; [congruence | done] | auto].
Qed.

Lemma get_None d k : k ∉ ODict.keys d ↔ ODict.get k d = None.
Proof. rewrite elem_of_keys, eq_None_not_Some. done. Qed.

Lemma keys_set_in d k v : k ∈ ODict.keys d → ODict.keys (ODict.set k v d) = ODict.keys d.
Proof.
  unfold ODict.keys. induction d as [|[k0 v0] d IH]; simpl.
  - by intros ?%elem_of_nil.
  - intros Hin. case_decide; subst; simpl; [done |].
    f_equal. apply IH. apply elem_of_cons in Hin as [?|?]; [congruence | done].
Qed.

Lemma keys_set_notin d k v :
  k ∉ ODict.keys d → ODict.keys (ODict.set k v d) = ODict.keys d ++ [k].
Proof.
  unfold ODict.keys. induction d as [|[k0 v0] d IH]; simpl; [done |].
  intros Hin. apply not_elem_of_cons in Hin as [? ?].
  rewrite decide_False by congruence. simpl. f_equal. by apply IH.
Qed.

Lemma set_notin d k v : k ∉ ODict.keys d → ODict.set k v d = d ++ [(k, v)].
Proof.
  unfold ODict.keys. induction d as [|[k0 v0] d IH]; simpl; [done |].
  intros Hin. apply not_elem_of_cons in Hin as [? ?].
  rewrite decide_False by congruence. f_equal. by apply IH.
Qed.

Lemma NoDup_keys_set d k v : NoDup (ODict.keys d) → NoDup (ODict.keys (ODict.set k v d)).
Proof.
  intros Hnd. destruct (decide (k ∈ ODict.keys d)).
  - by rewrite keys_set_in.
  - rewrite keys_set_notin by done. apply NoDup_app. split_and!; [done | | apply NoDup_singleton].
    intros x Hx ->%list_elem_of_singleton. done.
Qed.

Lemma get_update d k k' (f : V → V) :
  ODict.get k' (ODict.update k f d)
  = if decide (k = k') then f <$> ODict.get k' d else ODict.get k' d.
Proof.
  unfold ODict.update. destruct (ODict.get k d) as [v|] eqn:Hk.
  - rewrite get_set. case_decide; subst; [by rewrite Hk | done].
  - case_decide; subst; [by rewrite Hk | done].
Qed.

Lemma keys_update d k (f : V → V) : ODict.keys (ODict.update k f d) = ODict.keys d.
Proof.
  unfold ODict.update. destruct (ODict.get k d) as [v|] eqn:Hk; [|done].
  apply keys_set_in, elem_of_keys. eauto.
Qed.

Lemma from_list_snoc (l : list (string * V)) k v :
  ODict.from_list (l ++ [(k, v)]) = ODict.set k v (ODict.from_list l).
Proof. unfold ODict.from_list. by rewrite foldl_app. Qed.

Lemma NoDup_keys_from_list (l : list (string * V)) : NoDup (ODict.keys (ODict.from_list l)).
Proof.
  induction l as [|[k v] l IH] using rev_ind; [apply NoDup_nil_2 |].
  rewrite from_list_snoc. by apply NoDup_keys_set.
Qed.

Lemma from_list_NoDup (l : list (string * V)) : NoDup l.*1 → ODict.from_list l = l.
Proof.
  induction l as [|[k v] l IH] using rev_ind; [done |].
  rewrite fmap_app, from_list_snoc. intros [Hl [Hd _]]%NoDup_app.
  rewrite IH by done. apply set_notin. intros Hk. by apply (Hd k), list_elem_of_singleton.
Qed.

Lemma elem_of_get d k v : NoDup (ODict.keys d) → (k, v) ∈ d → ODict.get k d = Some v.
Proof.
  unfold ODict.keys. induction d as [|[k0 v0] d IH]; simpl.
  - by intros _ ?%elem_of_nil.
  - intros [Hk0 Hnd]%NoDup_cons [Heq | Hin]%elem_of_cons.
    + simplify_eq. by rewrite decide_True.
    + case_decide; subst; [|by apply IH].
      destruct Hk0. apply list_elem_of_fmap. by exists (k, v).
Qed.

Lemma get_elem_of d k v : ODict.get k d = Some v → (k, v) ∈ d.
Proof.
  induction d as [|[k0 v0] d IH]; simpl; [done |].
  case_decide; subst.
  - intros [= ->]. apply elem_of_cons. by left.
  - intros ?. apply elem_of_cons. right. by apply IH.
Qed.

(** Every entry written by [set] satisfies what the written entry and the
    old entries satisfy. *)
Lemma Forall_set (P : string * V → Prop) d k v :
  P (k, v) → Forall P d → Forall P (ODict.set k v d).
Proof.
  intros HP. induction 1 as [|[k0 v0] d ? ? IH]; simpl.
  - by constructor.
  - case_decide; subst; by constructor.
Qed.
End facts.
End ODictFacts.


(** * The dependency graph: Kahn's check and the layered loop *)

Import ODictFacts.

Section Graph.
Context {Env : Type}.
Implicit Types (nodes : ODict.t (@GroupFilter Env)) (node : @GroupFilter Env).

(** What [make_nodes] builds: keys without repeats, each holding a group of
    that name. *)
Definition well_keyed nodes : Prop :=
  NoDup (ODict.keys nodes) ∧ Forall (λ kv, name kv.2 = kv.1) nodes.

Lemma make_nodes_well_keyed (node_map : list (@GroupFilter Env)) :
  well_keyed (make_nodes node_map).
Proof.
  unfold make_nodes. split; [apply NoDup_keys_from_list |].
  induction node_map as [|node l IH] using rev_ind; [constructor |].
  rewrite fmap_app. simpl. rewrite from_list_snoc. by apply Forall_set.
Qed.

Lemma values_names nodes : well_keyed nodes → name <$> ODict.values nodes = ODict.keys nodes.
Proof.
  intros [_ H]. unfold ODict.values, ODict.keys.
  induction H as [|[k v] l Hk _ IH]; [done |].
  rewrite !fmap_cons. simpl in *. by rewrite Hk, IH.
Qed.

Lemma contains_keys {V} (d : ODict.t V) k : ODict.contains k d = true ↔ k ∈ ODict.keys d.
Proof. unfold ODict.contains. by rewrite bool_decide_eq_true, elem_of_keys. Qed.

Lemma add_dependencies_spec nodes node (ds : list string) acc :
  NoDup ds →
  let acc' := foldl (add_dependency nodes node) acc ds in
  (∀ c, ODict.get c acc'.1
        = if decide (name node = c)
          then (λ d, d + Z.of_nat (length (filter (.∈ ODict.keys nodes) ds))) <$> ODict.get c acc.1
          else ODict.get c acc.1)
  ∧ (∀ p, ODict.get p acc'.2
        = if decide (p ∈ ds ∧ p ∈ ODict.keys nodes)
          then (.++ [name node]) <$> ODict.get p acc.2
          else ODict.get p acc.2).
Proof.
  revert acc. induction ds as [|d ds IH]; intros acc Hnd; simpl.
  - split; intros k.
    + case_decide; [|done]. destruct (ODict.get k acc.1); simpl; f_equal; lia.
    + done.
  - apply NoDup_cons in Hnd as [Hd Hnd].
    destruct (IH (add_dependency nodes node acc d) Hnd) as [IH1 IH2]. clear IH.
    split; intros k.
    + rewrite IH1. unfold add_dependency.
      destruct (ODict.contains d nodes) eqn:Hc.
      * apply contains_keys in Hc. rewrite filter_cons_True by done. simpl.
        rewrite get_update. case_decide; [|done].
        destruct (ODict.get k acc.1); simpl; f_equal; lia.
      * rewrite filter_cons_False; [done |].
        intros ?%contains_keys. congruence.
    + rewrite IH2. unfold add_dependency.
      destruct (ODict.contains d nodes) eqn:Hc; simpl.
      * apply contains_keys in Hc. rewrite get_update.
        destruct (decide (d = k)) as [->|Hne].
        -- rewrite decide_False by (intros [? ?]; done).
           rewrite decide_True; [done |]. split; [left | done].
        -- destruct (decide (k ∈ ds ∧ k ∈ ODict.keys nodes)) as [[? ?]|Hn].
           ++ rewrite decide_True; [done |]. split; [by right | done].
           ++ rewrite decide_False; [done |]. intros [[?|?]%elem_of_cons ?]; [congruence | tauto].
      * assert (d ∉ ODict.keys nodes) by (intros ?%contains_keys; congruence).
        destruct (decide (k ∈ ds ∧ k ∈ ODict.keys nodes)) as [[? ?]|Hn].
        -- rewrite decide_True; [done |]. split; [by right | done].
        -- rewrite decide_False; [done |]. intros [[?|?]%elem_of_cons ?]; [congruence | tauto].
Qed.

Lemma add_dependencies_keys nodes node (ds : list string) acc :
  ODict.keys (foldl (add_dependency nodes node) acc ds).1 = ODict.keys acc.1.
Proof.
  revert acc. induction ds as [|d ds IH]; intros acc; simpl; [done |].
  rewrite IH. unfold add_dependency. destruct (ODict.contains d nodes); [|done].
  apply keys_update.
Qed.

(** The dependencies of [node] that the collection knows. *)
Definition parents nodes node : list string :=
  filter (.∈ ODict.keys nodes) (elements (depend_on node)).

(** The groups that depend on [p], in the order of the dictionary. *)
Definition child_list nodes (p : string) : list string :=
  name <$> filter (λ n, p ∈ depend_on n) (ODict.values nodes).

(** The outer loop of [build_graph] over the groups [vs]. *)
Definition fill nodes (acc : ODict.t Z * ODict.t (list string)) (vs : list (@GroupFilter Env)) :=
  foldl (λ acc node, foldl (add_dependency nodes node) acc (elements (depend_on node))) acc vs.

Lemma fill_spec nodes (vs : list (@GroupFilter Env)) acc :
  NoDup (name <$> vs) →
  (∀ node, node ∈ vs →
     ODict.get (name node) (fill nodes acc vs).1
     = (λ d, d + Z.of_nat (length (parents nodes node))) <$> ODict.get (name node) acc.1)
  ∧ (∀ c, c ∉ name <$> vs → ODict.get c (fill nodes acc vs).1 = ODict.get c acc.1)
  ∧ (∀ p, ODict.get p (fill nodes acc vs).2
          = if decide (p ∈ ODict.keys nodes)
            then (.++ (name <$> filter (λ n, p ∈ depend_on n) vs)) <$> ODict.get p acc.2
            else ODict.get p acc.2)
  ∧ ODict.keys (fill nodes acc vs).1 = ODict.keys acc.1.
Proof.
  revert acc. induction vs as [|v vs IH]; intros acc Hnd.
  - split_and!; [by intros node ?%elem_of_nil | done | | done].
    intros p. case_decide; [|done].
    simpl. destruct (ODict.get p acc.2); simpl; [|done]. by rewrite app_nil_r.
  - rewrite fmap_cons in Hnd. apply NoDup_cons in Hnd as [Hv Hnd].
    pose proof (add_dependencies_spec nodes v (elements (depend_on v)) acc
                  (NoDup_elements _)) as [In1 In2].
    destruct (IH (foldl (add_dependency nodes v) acc (elements (depend_on v))) Hnd)
      as (IH1 & IH2 & IH3 & IH4). clear IH.
    change (fill nodes acc (v :: vs))
      with (fill nodes (foldl (add_dependency nodes v) acc (elements (depend_on v))) vs).
    split_and!.
    + intros node [->|Hin]%elem_of_cons.
      * rewrite IH2 by done. rewrite In1. by rewrite decide_True.
      * rewrite IH1 by done. rewrite In1. rewrite decide_False; [done |].
        intros Heq. apply Hv. rewrite Heq. by apply list_elem_of_fmap_2.
    + intros c [Hc1 Hc2]%not_elem_of_cons. rewrite IH2 by done. rewrite In1.
      by rewrite decide_False.
    + intros p. rewrite IH3, In2. case_decide as Hp.
      * destruct (decide (p ∈ depend_on v)) as [Hd|Hd].
        -- rewrite filter_cons_True by done. rewrite decide_True by (by rewrite elem_of_elements).
           destruct (ODict.get p acc.2); simpl; [|done]. by rewrite <- app_assoc.
        -- rewrite filter_cons_False by done.
           rewrite decide_False; [done |]. rewrite elem_of_elements. tauto.
      * rewrite decide_False; [done | tauto].
    + rewrite IH4. apply add_dependencies_keys.
Qed.

Lemma get_const_dict {V} (ks : list string) (v : V) c :
  ODict.get c ((λ k, (k, v)) <$> ks) = if decide (c ∈ ks) then Some v else None.
Proof.
  induction ks as [|k ks IH]; [done |].
  rewrite fmap_cons. cbn [ODict.get].
  destruct (decide (k = c)) as [->|Hne].
  - rewrite decide_True; [done | by left].
  - rewrite IH. destruct (decide (c ∈ ks)) as [Hin|Hin].
    + rewrite decide_True; [done | by right].
    + rewrite decide_False; [done |]. intros [?|?]%elem_of_cons; congruence.
Qed.

Lemma keys_const_dict {V} (ks : list string) (v : V) :
  ODict.keys ((λ k, (k, v)) <$> ks) = ks.
Proof.
  unfold ODict.keys. induction ks as [|k ks IH]; [done |].
  rewrite !fmap_cons. simpl. by rewrite IH.
Qed.

Lemma init_dict {V} nodes (v : V) :
  NoDup (ODict.keys nodes) →
  ODict.from_list ((λ k, (k, v)) <$> ODict.keys nodes) = (λ k, (k, v)) <$> ODict.keys nodes.
Proof.
  intros Hnd. apply from_list_NoDup.
  change (NoDup (ODict.keys ((λ k, (k, v)) <$> ODict.keys nodes))).
  by rewrite keys_const_dict.
Qed.

Lemma get_node_value nodes c node :
  well_keyed nodes → ODict.get c nodes = Some node →
  node ∈ ODict.values nodes ∧ name node = c.
Proof.
  intros [_ Hk] Hget%get_elem_of. split.
  - unfold ODict.values. apply list_elem_of_fmap. by exists (c, node).
  - rewrite Forall_forall in Hk. by apply (Hk (c, node)).
Qed.

Lemma build_graph_spec nodes :
  well_keyed nodes →
  (∀ c node, ODict.get c nodes = Some node →
     ODict.get c (build_graph nodes).1 = Some (Z.of_nat (length (parents nodes node))))
  ∧ (∀ p, p ∈ ODict.keys nodes →
       ODict.get p (build_graph nodes).2 = Some (child_list nodes p))
  ∧ ODict.keys (build_graph nodes).1 = ODict.keys nodes.
Proof.
  intros Hwk. pose proof Hwk as [Hnd _].
  pose proof (fill_spec nodes (ODict.values nodes)
                (init_in_degree nodes, init_children nodes)) as Hfill.
  rewrite (values_names _ Hwk) in Hfill. destruct (Hfill Hnd) as (H1 & _ & H3 & H4).
  unfold build_graph. fold (fill nodes (init_in_degree nodes, init_children nodes) (ODict.values nodes)).
  unfold init_in_degree, init_children in *. simpl in *.
  rewrite !init_dict in * by done.
  split_and!.
  - intros c node Hget. pose proof Hget as [Hin <-]%get_node_value; [|done].
    rewrite H1 by done. rewrite get_const_dict. rewrite decide_True; [simpl; f_equal; lia |].
    apply elem_of_keys. eauto.
  - intros p Hp. rewrite H3. rewrite decide_True by done.
    rewrite get_const_dict. by rewrite decide_True.
  - rewrite H4. apply keys_const_dict.
Qed.


Lemma filter_ext_in {A} (P1 P2 : A → Prop)
    `{!∀ x, Decision (P1 x), !∀ x, Decision (P2 x)} (l : list A) :
  (∀ x, x ∈ l → P1 x ↔ P2 x) → filter P1 l = filter P2 l.
Proof.
  induction l as [|a l IH]; intros Hext; [done |].
  assert (Ha : P1 a ↔ P2 a) by (apply Hext; by left).
  assert (Hl : filter P1 l = filter P2 l) by (apply IH; intros x ?; apply Hext; by right).
  destruct (decide (P1 a)).
  - rewrite !filter_cons_True by tauto. by rewrite Hl.
  - rewrite !filter_cons_False by tauto. done.
Qed.

(** ** Chains in a finite graph *)

(** Each element of [l] is related to the next. *)
Fixpoint chain {A} (R : relation A) (l : list A) : Prop :=
  match l with
  | x :: (y :: _) as l' => R x y ∧ chain R l'
  | _ => True
  end.

Lemma chain_reach {A} (R : relation A) a l b : chain R (a :: l) → b ∈ l → tc R a b.
Proof.
  revert a. induction l as [|x l IH]; intros a Hc Hb; [by apply elem_of_nil in Hb |].
  destruct Hc as [Hax Hc]. apply elem_of_cons in Hb as [->|Hb].
  - by apply tc_once.
  - eapply tc_l; [done | by apply IH].
Qed.

Lemma chain_tail {A} (R : relation A) a l : chain R (a :: l) → chain R l.
Proof. destruct l; [done | by intros [_ ?]]. Qed.

(** A chain with more nodes than the graph has goes through a cycle. *)
Lemma long_chain_cycle `{EqDecision A} (R : relation A) (N l : list A) :
  chain R l → (∀ x, x ∈ l → x ∈ N) → (length N < length l)%nat → ∃ x, tc R x x.
Proof.
  intros Hc Hin Hlen.
  assert (Hdup : ¬ NoDup l).
  { intros Hnd. apply (NoDup_submseteq _ N) in Hnd; [|done].
    apply submseteq_length in Hnd. lia. }
  clear Hin Hlen. induction l as [|a l IH]; [destruct Hdup; constructor |].
  destruct (decide (a ∈ l)) as [Ha|Ha].
  - exists a. by eapply chain_reach.
  - apply IH; [by eapply chain_tail |]. intros Hnd. apply Hdup. by constructor.
Qed.

Lemma tc_flip_1 {A} (R : relation A) x y : tc (flip R) x y → tc R y x.
Proof.
  induction 1 as [x y H|x y z H _ IH]; [by apply tc_once |].
  eapply tc_r; [exact IH | exact H].
Qed.


(** ** The graph of a collection *)

(** The known dependencies of the group named [c]. *)
Definition par nodes (c : string) : list string :=
  match ODict.get c nodes with
  | Some node => parents nodes node
  | None => []
  end.

Lemma edge_known nodes p c : edge nodes p c → p ∈ ODict.keys nodes ∧ c ∈ ODict.keys nodes.
Proof. intros (node & Hc & _ & Hp). split; [done |]. apply elem_of_keys. eauto. Qed.

Lemma elem_of_par nodes p c : p ∈ par nodes c ↔ edge nodes p c.
Proof.
  unfold par, edge, parents. destruct (ODict.get c nodes) as [node|].
  - rewrite list_elem_of_filter, elem_of_elements. split.
    + intros [? ?]. eauto.
    + intros (? & [= <-] & ? & ?). done.
  - split; [by intros ?%elem_of_nil | by intros (? & ? & _)].
Qed.

Lemma NoDup_par nodes c : NoDup (par nodes c).
Proof.
  unfold par, parents. destruct (ODict.get c nodes); [|constructor].
  apply NoDup_filter, NoDup_elements.
Qed.

Lemma elem_of_child_list nodes p c :
  well_keyed nodes → p ∈ ODict.keys nodes → c ∈ child_list nodes p ↔ edge nodes p c.
Proof.
  intros Hwk Hp. unfold child_list, edge. rewrite list_elem_of_fmap. split.
  - intros (node & -> & [Hdep Hin]%list_elem_of_filter). exists node. split_and!; [|done..].
    unfold ODict.values in Hin. apply list_elem_of_fmap in Hin as ([k n] & -> & Hin).
    destruct Hwk as [Hnd Hk]. rewrite Forall_forall in Hk. rewrite (Hk _ Hin).
    by apply elem_of_get.
  - intros (node & Hget & Hdep & _). destruct (get_node_value _ _ _ Hwk Hget) as [? ?].
    exists node. split; [done |]. by apply list_elem_of_filter.
Qed.

Lemma NoDup_child_list nodes p : well_keyed nodes → NoDup (child_list nodes p).
Proof.
  intros Hwk. unfold child_list.
  apply (sublist_NoDup _ (name <$> ODict.values nodes)).
  - rewrite (values_names _ Hwk). apply Hwk.
  - apply fmap_sublist, sublist_filter.
Qed.

(** ** Kahn's loop *)

Lemma release_child_eq (indeg : ODict.t Z) (q : list string) c :
  release_child (indeg, q) c
  = (ODict.update c (λ d, d - 1) indeg,
     if decide (ODict.get c indeg = Some 1) then q ++ [c] else q).
Proof.
  unfold release_child. cbn [fst snd].
  assert (Hzero : ODict.get c (ODict.update c (λ d, d - 1) indeg) = Some 0
                  ↔ ODict.get c indeg = Some 1).
  { rewrite get_update, decide_True by done.
    destruct (ODict.get c indeg) as [d|]; simpl; [|done].
    split; intros [= ?]; f_equal; lia. }
  repeat case_decide; tauto.
Qed.

Lemma release_spec (cs : list string) (indeg : ODict.t Z) (q : list string) :
  NoDup cs →
  (∀ c, ODict.get c (foldl release_child (indeg, q) cs).1
        = if decide (c ∈ cs) then (λ d, d - 1) <$> ODict.get c indeg else ODict.get c indeg)
  ∧ (foldl release_child (indeg, q) cs).2
    = q ++ filter (λ c, ODict.get c indeg = Some 1) cs
  ∧ ODict.keys (foldl release_child (indeg, q) cs).1 = ODict.keys indeg.
Proof.
  revert indeg q. induction cs as [|c cs IH]; intros indeg q Hnd.
  - simpl. split_and!; [done | by rewrite app_nil_r | done].
  - apply NoDup_cons in Hnd as [Hc Hnd]. cbn [foldl]. rewrite release_child_eq.
    assert (Hfilter : filter (λ c', ODict.get c' (ODict.update c (λ d, d - 1) indeg) = Some 1) cs
                      = filter (λ c', ODict.get c' indeg = Some 1) cs).
    { apply filter_ext_in. intros c' Hc'. rewrite get_update.
      rewrite decide_False; [done | congruence]. }
    destruct (IH (ODict.update c (λ d, d - 1) indeg)
                 (if decide (ODict.get c indeg = Some 1) then q ++ [c] else q) Hnd)
      as (IH1 & IH2 & IH3).
    split_and!.
    + intros k. rewrite IH1, get_update.
      destruct (decide (c = k)) as [->|Hne].
      * rewrite decide_False by done. rewrite decide_True; [done | by left].
      * destruct (decide (k ∈ cs)).
        -- rewrite decide_True; [done | by right].
        -- rewrite decide_False; [done |]. intros [?|?]%elem_of_cons; congruence.
    + rewrite IH2, Hfilter. case_decide.
      * rewrite filter_cons_True by done. by rewrite <- app_assoc.
      * by rewrite filter_cons_False.
    + by rewrite IH3, keys_update.
Qed.


Lemma tc_last_step {A} (R : relation A) x y : tc R x y → ∃ p, rtc R x p ∧ R p y.
Proof.
  induction 1 as [x y H|x y z H _ (p & Hp & Hz)].
  - exists x. split; [apply rtc_refl | done].
  - exists p. split; [by eapply rtc_l | done].
Qed.

Lemma tc_cycle_pred {A} (R : relation A) c : tc R c c → ∃ p, R p c ∧ tc R p p.
Proof.
  intros (p & Hcp & Hpc)%tc_last_step. exists p. split; [done |].
  eapply tc_rtc_r; [by apply tc_once | done].
Qed.

Lemma filter_visited_in (V l : list string) x :
  NoDup l → x ∉ V → x ∈ l →
  length (filter (.∉ V) l) = S (length (filter (.∉ V ++ [x]) l)).
Proof.
  intros Hnd HV. induction Hnd as [|a l Ha Hnd IH]; [by intros ?%elem_of_nil |].
  intros [Heq|Hin]%elem_of_cons.
  - subst a. rewrite filter_cons_True by done.
    rewrite (filter_cons_False (.∉ V ++ [x])) by (rewrite elem_of_app, list_elem_of_singleton; tauto).
    simpl. f_equal. f_equal. apply filter_ext_in. intros y Hy.
    rewrite elem_of_app, list_elem_of_singleton. split; [|tauto].
    intros ? [?|Heq]; [done | by subst y].
  - assert (a ≠ x) by congruence.
    destruct (decide (a ∉ V)).
    + rewrite filter_cons_True by done.
      rewrite (filter_cons_True (.∉ V ++ [x]))
        by (rewrite elem_of_app, list_elem_of_singleton; tauto).
      simpl. by rewrite IH.
    + rewrite filter_cons_False by done.
      rewrite (filter_cons_False (.∉ V ++ [x])) by (rewrite elem_of_app; tauto).
      by apply IH.
Qed.

Lemma filter_visited_notin (V l : list string) x :
  x ∉ l → filter (.∉ V ++ [x]) l = filter (.∉ V) l.
Proof.
  intros Hx. apply filter_ext_in. intros y Hy.
  rewrite elem_of_app, list_elem_of_singleton. split; [tauto |].
  intros ? [?|Heq]; [done | by subst y].
Qed.

(** The invariant of Kahn's loop; [V] lists the names popped so far.  The
    in-degree of a group counts its dependencies not yet popped; a group is
    popped or queued exactly when none is left; no popped or queued group
    lies on a cycle. *)
Record kahn_inv nodes (queue : list string) (indeg : ODict.t Z) (V : list string) : Prop := {
  ki_nodup : NoDup (V ++ queue);
  ki_known : ∀ c, c ∈ V ++ queue → c ∈ ODict.keys nodes;
  ki_deg : ∀ c, c ∈ ODict.keys nodes →
    ODict.get c indeg = Some (Z.of_nat (length (filter (.∉ V) (par nodes c))));
  ki_zero : ∀ c, c ∈ ODict.keys nodes →
    c ∈ V ++ queue ↔ filter (.∉ V) (par nodes c) = [];
  ki_acyc : ∀ c, c ∈ V ++ queue → ¬ tc (edge nodes) c c
}.

(** [children] holds, for every group, the groups that depend on it. *)
Definition children_ok nodes (children : ODict.t (list string)) : Prop :=
  ∀ p, p ∈ ODict.keys nodes → children_of children p = child_list nodes p.

Lemma kahn_step nodes children current q indeg V :
  well_keyed nodes → children_ok nodes children →
  kahn_inv nodes (current :: q) indeg V →
  kahn_inv nodes (foldl release_child (indeg, q) (children_of children current)).2
                 (foldl release_child (indeg, q) (children_of children current)).1
                 (V ++ [current]).
Proof.
  intros Hwk Hch [Hnd Hkn Hdeg Hzero Hacyc].
  assert (Hcur : current ∈ ODict.keys nodes).
  { apply Hkn. rewrite elem_of_app, elem_of_cons. tauto. }
  assert (HcurV : current ∉ V).
  { apply NoDup_app in Hnd as (_ & Hd & _). intros HV. apply (Hd _ HV). by left. }
  rewrite (Hch _ Hcur).
  destruct (release_spec (child_list nodes current) indeg q (NoDup_child_list _ _ Hwk))
    as (Hget & -> & _).
  set (new := filter (λ c, ODict.get c indeg = Some 1) (child_list nodes current)).
  assert (Hcs : ∀ c, c ∈ child_list nodes current ↔ current ∈ par nodes c).
  { intros c. by rewrite elem_of_child_list, elem_of_par. }
  assert (Hlen : ∀ c, c ∈ child_list nodes current →
            length (filter (.∉ V) (par nodes c))
            = S (length (filter (.∉ V ++ [current]) (par nodes c)))).
  { intros c Hc. apply filter_visited_in; [apply NoDup_par | done | by apply Hcs]. }
  assert (Hsame : ∀ c, c ∉ child_list nodes current →
            filter (.∉ V ++ [current]) (par nodes c) = filter (.∉ V) (par nodes c)).
  { intros c Hc. apply filter_visited_notin. by rewrite <- Hcs. }
  assert (Hknown_cs : ∀ c, c ∈ child_list nodes current → c ∈ ODict.keys nodes).
  { intros c Hc. apply elem_of_child_list in Hc; [|done..]. by apply edge_known in Hc as [_ ?]. }
  assert (Hnew : ∀ c, c ∈ new ↔ c ∈ child_list nodes current
                                 ∧ length (filter (.∉ V) (par nodes c)) = 1%nat).
  { intros c. unfold new. rewrite list_elem_of_filter. split.
    - intros [H1 Hc]. split; [done |]. rewrite Hdeg in H1 by auto.
      injection H1 as H1. lia.
    - intros [Hc H1]. split; [|done]. rewrite Hdeg by auto. by rewrite H1. }
  assert (Hzero' : ∀ c, c ∈ ODict.keys nodes →
            c ∈ (V ++ [current]) ++ q ++ new
            ↔ filter (.∉ V ++ [current]) (par nodes c) = []).
  { intros c Hc. rewrite app_assoc, elem_of_app, <- app_assoc. simpl.
    rewrite (Hzero c Hc), Hnew.
    destruct (decide (c ∈ child_list nodes current)) as [Hin|Hin].
    - pose proof (Hlen c Hin) as Hl. split.
      + intros [H0|[_ H1]]; [rewrite H0 in Hl; done |].
        apply length_zero_iff_nil. lia.
      + intros H0. right. split; [done |]. rewrite Hl, H0. done.
    - rewrite (Hsame c Hin). tauto. }
  constructor.
  - rewrite app_assoc, <- (app_assoc V). simpl. apply NoDup_app. split_and!; [done | |].
    + intros c Hc [Hin H1]%Hnew.
      assert (Hk : c ∈ ODict.keys nodes) by auto.
      apply (Hzero c Hk) in Hc. rewrite Hc in H1. done.
    + apply NoDup_filter, NoDup_child_list, Hwk.
  - intros c. rewrite app_assoc, elem_of_app, <- app_assoc. simpl.
    intros [Hc|[Hc _]%Hnew]; auto.
  - intros c Hc. rewrite Hget. destruct (decide (c ∈ child_list nodes current)) as [Hin|Hin].
    + rewrite Hdeg by done. simpl. f_equal. rewrite (Hlen c Hin). lia.
    + rewrite Hdeg by done. by rewrite (Hsame c Hin).
  - done.
  - intros c. rewrite app_assoc, elem_of_app, <- app_assoc. simpl.
    intros [Hc|Hc]; [by apply Hacyc |].
    intros (p & Hpc & Hpp)%tc_cycle_pred.
    assert (Hk : c ∈ ODict.keys nodes) by (apply Hnew in Hc as [? _]; auto).
    assert (H0 : filter (.∉ V ++ [current]) (par nodes c) = []).
    { apply Hzero'; [done |]. rewrite !elem_of_app. tauto. }
    apply elem_of_par in Hpc.
    destruct (decide (p ∈ V ++ [current])) as [HpV|HpV].
    + apply (Hacyc p); [|done].
      apply elem_of_app in HpV as [?| ->%list_elem_of_singleton];
        apply elem_of_app; [by left | right; by left].
    + assert (Hp : p ∈ filter (.∉ V ++ [current]) (par nodes c))
        by (by apply list_elem_of_filter).
      rewrite H0 in Hp. by apply elem_of_nil in Hp.
Qed.


Lemma kahn_loop_spec nodes children :
  well_keyed nodes → children_ok nodes children →
  ∀ fuel queue indeg V,
    kahn_inv nodes queue indeg V →
    (length (ODict.keys nodes) ≤ fuel + length V)%nat →
    ∃ V' indeg', kahn_loop fuel children queue indeg (length V) = Some (length V')
                 ∧ kahn_inv nodes [] indeg' V'.
Proof.
  intros Hwk Hch. induction fuel as [|fuel IH]; intros queue indeg V Hinv Hlen.
  - destruct queue as [|current q]; [by exists V, indeg |].
    exfalso. destruct Hinv as [Hnd Hkn _ _ _].
    apply (NoDup_submseteq _ (ODict.keys nodes)) in Hnd; [|done].
    apply submseteq_length in Hnd. rewrite length_app in Hnd. simpl in *. lia.
  - destruct queue as [|current q]; [by exists V, indeg |].
    simpl. apply (kahn_step _ _ _ _ _ _ Hwk Hch) in Hinv.
    apply IH in Hinv; [|rewrite length_app; simpl; lia].
    rewrite length_app in Hinv. simpl in Hinv.
    by replace (length V + 1)%nat with (S (length V)) in Hinv by lia.
Qed.

Lemma elem_of_zero_in_degree (d : ODict.t Z) c :
  NoDup (ODict.keys d) → c ∈ zero_in_degree d ↔ ODict.get c d = Some 0.
Proof.
  intros Hnd. unfold zero_in_degree. rewrite list_elem_of_fmap. split.
  - intros ([k v] & -> & [Hv Hin]%list_elem_of_filter). simpl in *. subst v.
    by apply elem_of_get.
  - intros Hget%get_elem_of. exists (c, 0). split; [done |]. by apply list_elem_of_filter.
Qed.

Lemma NoDup_zero_in_degree (d : ODict.t Z) : NoDup (ODict.keys d) → NoDup (zero_in_degree d).
Proof.
  intros Hnd. unfold zero_in_degree. apply (sublist_NoDup _ (ODict.keys d)); [done |].
  apply fmap_sublist, sublist_filter.
Qed.

Lemma filter_notin_nil (l : list string) : filter (.∉ []) l = l.
Proof.
  induction l as [|a l IH]; [done |].
  rewrite filter_cons_True by apply not_elem_of_nil. by rewrite IH.
Qed.

Lemma par_get nodes c node : ODict.get c nodes = Some node → par nodes c = parents nodes node.
Proof. unfold par. by intros ->. Qed.

Lemma kahn_init nodes :
  well_keyed nodes →
  kahn_inv nodes (zero_in_degree (build_graph nodes).1) (build_graph nodes).1 [].
Proof.
  intros Hwk. destruct (build_graph_spec nodes Hwk) as (Hdeg & _ & Hkeys).
  assert (Hnd : NoDup (ODict.keys (build_graph nodes).1)) by (rewrite Hkeys; apply Hwk).
  assert (Hget : ∀ c, c ∈ ODict.keys nodes →
            ODict.get c (build_graph nodes).1 = Some (Z.of_nat (length (par nodes c)))).
  { intros c [node Hc]%elem_of_keys. rewrite (par_get _ _ _ Hc). by apply Hdeg. }
  assert (Hzero : ∀ c, c ∈ ODict.keys nodes →
            c ∈ zero_in_degree (build_graph nodes).1 ↔ par nodes c = []).
  { intros c Hc. rewrite elem_of_zero_in_degree, Hget by done. split.
    - intros [= H0]. apply length_zero_iff_nil. lia.
    - by intros ->. }
  assert (Hknown : ∀ c, c ∈ zero_in_degree (build_graph nodes).1 → c ∈ ODict.keys nodes).
  { intros c Hc%elem_of_zero_in_degree; [|done].
    rewrite <- Hkeys. apply elem_of_keys. eauto. }
  constructor; simpl.
  - by apply NoDup_zero_in_degree.
  - done.
  - intros c Hc. by rewrite filter_notin_nil, Hget.
  - intros c Hc. by rewrite filter_notin_nil, Hzero.
  - intros c Hc (p & Hpc%elem_of_par & _)%tc_cycle_pred.
    apply Hzero in Hc; [|by apply Hknown]. rewrite Hc in Hpc. by apply elem_of_nil in Hpc.
Qed.

Lemma length_set {V} (d : ODict.t V) k v : (length (ODict.set k v d) ≤ S (length d))%nat.
Proof.
  induction d as [|[k0 v0] d IH]; simpl; [lia |].
  case_decide; simpl; lia.
Qed.

Lemma length_make_nodes (nm : list (@GroupFilter Env)) : (length (make_nodes nm) ≤ length nm)%nat.
Proof.
  unfold make_nodes. induction nm as [|n nm IH] using rev_ind; [done |].
  rewrite fmap_app. simpl. rewrite from_list_snoc, length_app. simpl.
  etrans; [apply length_set |]. lia.
Qed.

Lemma length_keys {V} (d : ODict.t V) : length (ODict.keys d) = length d.
Proof. apply length_fmap. Qed.

Lemma children_ok_build nodes : well_keyed nodes → children_ok nodes (build_graph nodes).2.
Proof.
  intros Hwk p Hp. destruct (build_graph_spec nodes Hwk) as (_ & Hch & _).
  unfold children_of. by rewrite Hch.
Qed.

(** The dictionary lookups of the two loops find their keys: every name in
    a list of children is a key of [nodes] and of [in_degree]. *)
Lemma lookups_succeed nodes p :
  well_keyed nodes → p ∈ ODict.keys nodes →
  ∃ cs, ODict.get p (build_graph nodes).2 = Some cs
        ∧ ∀ c, c ∈ cs → c ∈ ODict.keys nodes ∧ c ∈ ODict.keys (build_graph nodes).1.
Proof.
  intros Hwk Hp. destruct (build_graph_spec nodes Hwk) as (_ & Hch & Hkeys).
  exists (child_list nodes p). split; [by apply Hch |].
  intros c Hc%elem_of_child_list; [|done..]. apply edge_known in Hc as [_ Hc].
  by rewrite Hkeys.
Qed.

(** Kahn's loop finishes within [length node_map] iterations; what it
    leaves describes the graph. *)
Lemma kahn_result (nm : list (@GroupFilter Env)) fuel :
  (length nm ≤ fuel)%nat →
  let nodes := make_nodes nm in
  ∃ V indeg,
    kahn_loop fuel (build_graph nodes).2 (zero_in_degree (build_graph nodes).1)
              (build_graph nodes).1 0 = Some (length V)
    ∧ kahn_inv nodes [] indeg V.
Proof.
  intros Hfuel nodes.
  pose proof (make_nodes_well_keyed nm) as Hwk. fold nodes in Hwk.
  apply (kahn_loop_spec nodes _ Hwk (children_ok_build _ Hwk) fuel _ _ []).
  - by apply kahn_init.
  - rewrite length_keys. pose proof (length_make_nodes nm). fold nodes in H. simpl. lia.
Qed.

Lemma is_cyclic_complete (nm : list (@GroupFilter Env)) fuel :
  has_cycle nm → (length nm ≤ fuel)%nat → GroupFilter_is_cyclic fuel nm = Some true.
Proof.
  intros [k Hk] Hfuel. unfold GroupFilter_is_cyclic.
  destruct (kahn_result nm fuel Hfuel) as (V & indeg & -> & [Hnd Hkn _ _ Hacyc]).
  simpl. f_equal. rewrite app_nil_r in *.
  rewrite bool_decide_eq_false_2; [done |]. intros Hlen.
  assert (Hkeys : k ∈ ODict.keys (make_nodes nm)).
  { apply tc_cycle_pred in Hk as (p & Hpk & _). by apply edge_known in Hpk as [_ ?]. }
  assert (HkV : k ∉ V) by (intros HV; by apply (Hacyc k)).
  assert (Hsub : k :: V ⊆+ ODict.keys (make_nodes nm)).
  { apply NoDup_submseteq; [by constructor |]. intros x [->|?]%elem_of_cons; auto. }
  apply submseteq_length in Hsub. rewrite length_keys in Hsub. simpl in Hsub. lia.
Qed.

Lemma unvisited_exists (V N : list string) :
  NoDup N → (length V < length N)%nat → ∃ u, u ∈ N ∧ u ∉ V.
Proof.
  intros Hnd Hlen. destruct (decide (Forall (.∈ V) N)) as [Hall|Hex].
  - rewrite Forall_forall in Hall. apply (NoDup_submseteq _ V) in Hnd; [|done].
    apply submseteq_length in Hnd. lia.
  - apply not_Forall_Exists in Hex; [|apply _]. apply Exists_exists in Hex as (u & ? & ?).
    by exists u.
Qed.

Lemma is_cyclic_sound (nm : list (@GroupFilter Env)) fuel :
  ¬ has_cycle nm → (length nm ≤ fuel)%nat → GroupFilter_is_cyclic fuel nm = Some false.
Proof.
  intros Hacyclic Hfuel. unfold GroupFilter_is_cyclic.
  destruct (kahn_result nm fuel Hfuel) as (V & indeg & -> & [Hnd Hkn _ Hzero _]).
  simpl. f_equal. rewrite app_nil_r in *.
  rewrite bool_decide_eq_true_2; [done |].
  set (nodes := make_nodes nm) in *.
  pose proof (make_nodes_well_keyed nm) as [HndN _]. fold nodes in HndN.
  destruct (decide (length V = length nodes)) as [|Hne]; [done |]. exfalso.
  assert (Hlt : (length V < length (ODict.keys nodes))%nat).
  { apply (NoDup_submseteq _ (ODict.keys nodes)) in Hnd; [|done].
    apply submseteq_length in Hnd. rewrite length_keys in *. lia. }
  destruct (unvisited_exists V _ HndN Hlt) as (u0 & Hu0 & Hu0V).
  assert (Hback : ∀ u, u ∈ ODict.keys nodes → u ∉ V →
            ∃ p, edge nodes p u ∧ p ∈ ODict.keys nodes ∧ p ∉ V).
  { intros u Hu HuV. rewrite (Hzero u Hu) in HuV.
    destruct (filter (.∉ V) (par nodes u)) as [|p l] eqn:Hf; [done |].
    assert (Hp : p ∈ filter (.∉ V) (par nodes u)) by (rewrite Hf; by left).
    apply list_elem_of_filter in Hp as [HpV Hp%elem_of_par].
    exists p. split_and!; [done | by apply edge_known in Hp as [? _] | done]. }
  assert (Hchain : ∀ n, ∃ h t, length t = n ∧ chain (edge nodes) (h :: t)
            ∧ ∀ x, x ∈ h :: t → x ∈ ODict.keys nodes ∧ x ∉ V).
  { induction n as [|n (h & t & Hlen & Hc & Hall)].
    - exists u0, []. split_and!; [done..|]. by intros x ->%list_elem_of_singleton.
    - destruct (Hall h) as [Hh HhV]; [by left |].
      destruct (Hback h Hh HhV) as (p & Hph & Hp & HpV).
      exists p, (h :: t). split_and!; [simpl; by rewrite Hlen | done |].
      intros x [->|?]%elem_of_cons; auto. }
  destruct (Hchain (length (ODict.keys nodes))) as (h & t & Hlen & Hc & Hall).
  destruct (long_chain_cycle (edge nodes) (ODict.keys nodes) (h :: t)) as [x Hx].
  - done.
  - intros x Hx. by apply Hall.
  - simpl. lia.
  - apply Hacyclic. by exists x.
Qed.


(** ** The layered loop of the matcher *)


Lemma occurrences_app k l1 l2 :
  occurrences k (l1 ++ l2) = (occurrences k l1 + occurrences k l2)%nat.
Proof. unfold occurrences. by rewrite filter_app, length_app. Qed.

Lemma occurrences_cons k x l :
  occurrences k (x :: l) = ((if decide (k = x) then 1 else 0) + occurrences k l)%nat.
Proof. unfold occurrences. rewrite filter_cons. by case_decide. Qed.

Lemma occurrences_nil k : occurrences k [] = 0%nat.
Proof. done. Qed.

Ltac occ_simpl :=
  repeat first [rewrite occurrences_app | rewrite occurrences_cons | rewrite occurrences_nil].

Lemma occurrences_singleton k x :
  occurrences k [x] = if decide (k = x) then 1%nat else 0%nat.
Proof. rewrite occurrences_cons. unfold occurrences. simpl. case_decide; lia. Qed.

Lemma occurrences_pos k l : k ∈ l ↔ (0 < occurrences k l)%nat.
Proof.
  unfold occurrences. split.
  - intros Hin. assert (Hk : k ∈ filter (k =.) l) by (by apply list_elem_of_filter).
    destruct (filter (k =.) l); [by apply elem_of_nil in Hk | simpl; lia].
  - destruct (filter (k =.) l) as [|x f] eqn:Hf; simpl; [lia |]. intros _.
    assert (Hx : x ∈ filter (k =.) l) by (rewrite Hf; by left).
    by apply list_elem_of_filter in Hx as [-> ?].
Qed.

Lemma occurrences_NoDup k l : NoDup l → (occurrences k l ≤ 1)%nat.
Proof.
  induction 1 as [|x l Hx _ IH]; [unfold occurrences; simpl; lia |].
  rewrite occurrences_cons. case_decide; [|lia]. subst x.
  destruct (occurrences k l) eqn:E; [lia |]. exfalso. apply Hx, occurrences_pos. lia.
Qed.

(** [k] names a group whose [depend_on_mode] is [and]. *)
Definition is_and nodes (k : string) : bool :=
  match ODict.get k nodes with
  | Some node => bool_decide (depend_on_mode node = depend_and)
  | None => false
  end.

Lemma propagate_eq nodes name_ matched (indeg : ODict.t Z) (nx : list string) child :
  propagate nodes name_ matched (indeg, nx) child = (indeg, nx)
  ∨ (ODict.get child nodes ≠ None
     ∧ ∃ fire : bool,
        propagate nodes name_ matched (indeg, nx) child
        = (ODict.update child (λ d, d - 1) indeg, if fire then nx ++ [child] else nx)
        ∧ (fire = true → is_and nodes child = true →
           ODict.get child (ODict.update child (λ d, d - 1) indeg) = Some 0)).
Proof.
  unfold propagate, is_and. destruct (ODict.get child nodes) as [node|]; [|by left].
  destruct (xorb _ _); [|by left]. right. split; [done |]. cbn [fst snd].
  destruct (bool_decide (depend_on_mode node = depend_or)) eqn:Hor; simpl.
  - exists true. split; [done |]. intros _ Hand. apply bool_decide_eq_true in Hor, Hand. congruence.
  - destruct (bool_decide (ODict.get child _ = Some 0)) eqn:H0.
    + exists true. split; [done |]. intros _ _. by apply bool_decide_eq_true in H0.
    + exists false. done.
Qed.

(** Where the names of the next round come from. *)
Lemma propagate_fold_next nodes name_ matched cs (indeg : ODict.t Z) (nx : list string) c :
  c ∈ (foldl (propagate nodes name_ matched) (indeg, nx) cs).2 → c ∈ nx ∨ c ∈ cs.
Proof.
  revert indeg nx. induction cs as [|x cs IH]; intros indeg nx; simpl; [auto |].
  destruct (propagate_eq nodes name_ matched indeg nx x) as [->|(_ & fire & -> & _)].
  - intros [?|?]%IH; [by left | right; by right].
  - intros [Hc|?]%IH; [|right; by right]. destruct fire; [|by left].
    apply elem_of_app in Hc as [?| ->%list_elem_of_singleton]; [by left | right; by left].
Qed.

(** The and-mode names scheduled so far: each at most once, and a scheduled
    one has no dependency left to wait for. *)
Definition scheduled_once nodes (indeg : ODict.t Z) (L : list string) : Prop :=
  ∀ k, is_and nodes k = true →
    (occurrences k L ≤ 1)%nat
    ∧ (k ∈ L → ∃ d, ODict.get k indeg = Some d ∧ d ≤ 0).

Lemma propagate_fold_once nodes name_ matched cs (indeg : ODict.t Z) (nx X : list string) :
  scheduled_once nodes indeg (X ++ nx) →
  scheduled_once nodes (foldl (propagate nodes name_ matched) (indeg, nx) cs).1
                 (X ++ (foldl (propagate nodes name_ matched) (indeg, nx) cs).2).
Proof.
  revert indeg nx. induction cs as [|x cs IH]; intros indeg nx HJ; simpl; [done |].
  destruct (propagate_eq nodes name_ matched indeg nx x) as [->|(_ & fire & -> & Hfire)];
    [by apply IH |].
  apply IH. intros k Hk. destruct (HJ k Hk) as [Hocc Hdeg].
  assert (Hdeg' : k ∈ X ++ nx → ∃ d, ODict.get k (ODict.update x (λ d, d - 1) indeg) = Some d ∧ d ≤ 0).
  { intros (d & Hd & Hle)%Hdeg. rewrite get_update. case_decide; subst.
    - exists (d - 1). rewrite Hd. split; [done | lia].
    - exists d. done. }
  destruct fire; [|done].
  rewrite app_assoc, occurrences_app, elem_of_app, occurrences_singleton.
  case_decide as Hkx.
  - subst x. specialize (Hfire eq_refl Hk).
    assert (Hnot : k ∉ X ++ nx).
    { intros (d & Hd & Hle)%Hdeg. rewrite get_update, decide_True, Hd in Hfire by done.
      simpl in Hfire. injection Hfire as Hfire. lia. }
    split.
    + destruct (occurrences k (X ++ nx)) eqn:E; [lia |].
      destruct Hnot. apply occurrences_pos. lia.
    + intros _. by exists 0.
  - split; [lia |].
    intros [?|?%list_elem_of_singleton]; [auto | done].
Qed.


Lemma scheduled_once_sub nodes (indeg : ODict.t Z) (L1 L2 : list string) :
  (∀ k, occurrences k L2 ≤ occurrences k L1)%nat →
  scheduled_once nodes indeg L1 → scheduled_once nodes indeg L2.
Proof.
  intros Hsub HJ k Hk. destruct (HJ k Hk) as [Hocc Hdeg]. specialize (Hsub k).
  split; [lia |]. intros Hin%occurrences_pos. apply Hdeg, occurrences_pos. lia.
Qed.

Lemma visit_Some nodes children (r : @Round Env) name_ node :
  ODict.get name_ nodes = Some node →
  visit nodes children r name_
  = let ms := GroupFilter_pipeline node (r_state r) in
    let acc := foldl (propagate nodes name_ ms.1) (r_in_degree r, r_next_round r)
                     (children_of children name_) in
    {| r_in_degree := acc.1; r_next_round := acc.2;
       r_round_matched := if ms.1 then r_round_matched r ++ [name_] else r_round_matched r;
       r_state := ms.2 |}.
Proof. unfold visit. intros ->. by destruct (GroupFilter_pipeline node (r_state r)). Qed.

Lemma visit_None nodes children (r : @Round Env) name_ :
  ODict.get name_ nodes = None → visit nodes children r name_ = r.
Proof. unfold visit. by intros ->. Qed.

Lemma visit_fold_next nodes children (cur : list string) (r : @Round Env) c :
  c ∈ r_next_round (foldl (visit nodes children) r cur) →
  c ∈ r_next_round r
  ∨ ∃ p, p ∈ cur ∧ p ∈ ODict.keys nodes ∧ c ∈ children_of children p.
Proof.
  revert r. induction cur as [|x cur IH]; intros r; simpl; [auto |].
  intros [Hc|(p & ? & ? & ?)]%IH; [|right; exists p; split_and!; [by right | done..]].
  destruct (ODict.get x nodes) as [node|] eqn:Hx.
  - rewrite (visit_Some _ _ _ _ _ Hx) in Hc. simpl in Hc.
    apply propagate_fold_next in Hc as [?|?]; [by left |].
    right. exists x. split_and!; [by left | | done]. apply elem_of_keys. eauto.
  - rewrite (visit_None _ _ _ _ Hx) in Hc. by left.
Qed.

Lemma visit_fold_matched nodes children (cur : list string) (r : @Round Env) :
  ∃ m, r_round_matched (foldl (visit nodes children) r cur) = r_round_matched r ++ m
       ∧ m `sublist_of` cur.
Proof.
  revert r. induction cur as [|x cur IH]; intros r; simpl.
  - exists []. by rewrite app_nil_r.
  - destruct (IH (visit nodes children r x)) as (m & -> & Hm).
    destruct (ODict.get x nodes) as [node|] eqn:Hx.
    + rewrite (visit_Some _ _ _ _ _ Hx). simpl.
      destruct (GroupFilter_pipeline node (r_state r)).1.
      * exists (x :: m). rewrite <- app_assoc. split; [done | by apply sublist_skip].
      * exists m. split; [done | by apply sublist_cons].
    + rewrite (visit_None _ _ _ _ Hx). exists m. split; [done | by apply sublist_cons].
Qed.

Lemma visit_fold_once nodes children (cur X : list string) (r : @Round Env) :
  scheduled_once nodes (r_in_degree r) (X ++ r_round_matched r ++ cur ++ r_next_round r) →
  scheduled_once nodes (r_in_degree (foldl (visit nodes children) r cur))
    (X ++ r_round_matched (foldl (visit nodes children) r cur)
       ++ r_next_round (foldl (visit nodes children) r cur)).
Proof.
  revert r. induction cur as [|x cur IH]; intros r HJ; simpl; [done |].
  apply IH. destruct (ODict.get x nodes) as [node|] eqn:Hx.
  - rewrite (visit_Some _ _ _ _ _ Hx). cbn [r_in_degree r_next_round r_round_matched].
    set (ms := GroupFilter_pipeline node (r_state r)).
    set (RM := if ms.1 then r_round_matched r ++ [x] else r_round_matched r).
    rewrite !app_assoc. apply propagate_fold_once.
    eapply scheduled_once_sub; [|exact HJ].
    intros k. unfold RM. destruct ms.1; occ_simpl; lia.
  - rewrite (visit_None _ _ _ _ Hx).
    eapply scheduled_once_sub; [|exact HJ].
    intros k. occ_simpl. lia.
Qed.


(** [deep nodes n c]: [c] ends a path of [n] edges of the graph. *)
Inductive deep nodes : nat → string → Prop :=
  | deep_O c : c ∈ ODict.keys nodes → deep nodes 0 c
  | deep_S n p c : deep nodes n p → edge nodes p c → deep nodes (S n) c.

Lemma deep_known nodes n c : deep nodes n c → c ∈ ODict.keys nodes.
Proof. destruct 1 as [|n p c _ He]; [done | by apply edge_known in He as [_ ?]]. Qed.

Lemma deep_chain nodes n c :
  deep nodes n c →
  ∃ t, length t = n ∧ chain (flip (edge nodes)) (c :: t)
       ∧ ∀ x, x ∈ c :: t → x ∈ ODict.keys nodes.
Proof.
  induction 1 as [c Hc|n p c _ (t & Hlen & Hch & Hall) He].
  - exists []. split_and!; [done..|]. by intros x ->%list_elem_of_singleton.
  - exists (p :: t). split_and!; [simpl; by rewrite Hlen | done |].
    intros x [->|?]%elem_of_cons; [by apply edge_known in He as [_ ?] | auto].
Qed.

Lemma deep_bound nodes n c :
  (∀ x, ¬ tc (edge nodes) x x) → deep nodes n c → (n < length (ODict.keys nodes))%nat.
Proof.
  intros Hacyc (t & Hlen & Hch & Hall)%deep_chain.
  destruct (decide (n < length (ODict.keys nodes))%nat) as [|Hge]; [done |]. exfalso.
  destruct (long_chain_cycle (flip (edge nodes)) (ODict.keys nodes) (c :: t)) as [x Hx];
    [done | done | simpl; lia |].
  by apply tc_flip_1, Hacyc in Hx.
Qed.

Lemma run_round_deep nodes children (cur : list string) indeg (st : @State Env) n :
  well_keyed nodes → children_ok nodes children →
  (∀ c, c ∈ cur → deep nodes n c) →
  ∀ c, c ∈ r_next_round (run_round nodes children cur indeg st) → deep nodes (S n) c.
Proof.
  intros Hwk Hch Hcur c [Hc|(p & Hp & Hk & Hc)]%visit_fold_next;
    [by apply elem_of_nil in Hc |].
  apply (deep_S _ _ p); [auto |]. rewrite (Hch p Hk) in Hc.
  by apply elem_of_child_list in Hc.
Qed.


(** The loop ends within as many rounds as the graph has nodes. *)
Lemma match_loop_terminates nodes children :
  well_keyed nodes → children_ok nodes children → (∀ x, ¬ tc (edge nodes) x x) →
  ∀ fuel n cur indeg result (st : @State Env),
    (∀ c, c ∈ cur → deep nodes n c) →
    (length (ODict.keys nodes) ≤ fuel + n)%nat →
    is_Some (match_loop fuel nodes children cur indeg result st).
Proof.
  intros Hwk Hch Hacyc. induction fuel as [|fuel IH]; intros n cur indeg result st Hcur Hlen.
  - destruct cur as [|c cur]; [by eexists |]. exfalso.
    assert (Hc : deep nodes n c) by (apply Hcur; by left).
    apply deep_bound in Hc; [|done]. simpl in *. lia.
  - destruct cur as [|c cur]; [by eexists |]. simpl.
    apply (IH (S n)); [|lia]. by apply run_round_deep.
Qed.

Lemma match_loop_result nodes children :
  ∀ fuel cur indeg result (st : @State Env) res st',
    match_loop fuel nodes children cur indeg result st = Some (res, st') →
    res = result ++ mjoin (match_trace fuel nodes children cur indeg st).*2
    ∧ Forall (λ fm, fm.2 `sublist_of` fm.1) (match_trace fuel nodes children cur indeg st)
    ∧ (scheduled_once nodes indeg (result ++ cur) →
       ∀ k, is_and nodes k = true → (occurrences k res ≤ 1)%nat).
Proof.
  induction fuel as [|fuel IH]; intros cur indeg result st res st'.
  - destruct cur as [|c cur]; [|done]. simpl. intros [= <- <-].
    rewrite !app_nil_r. split_and!; [done | constructor |].
    intros HJ k Hk. by apply HJ.
  - destruct cur as [|c cur].
    { simpl. intros [= <- <-]. rewrite !app_nil_r. split_and!; [done | constructor |].
      intros HJ k Hk. by apply HJ. }
    cbn [match_loop match_trace]. set (r := run_round nodes children (c :: cur) indeg st).
    intros (-> & Htr & Honce)%IH.
    destruct (visit_fold_matched nodes children (c :: cur) (mkRound indeg [] [] st))
      as (m & Hm & Hsub). fold (run_round nodes children (c :: cur) indeg st) in Hm.
    fold r in Hm. simpl in Hm.
    split_and!.
    + rewrite fmap_cons. simpl. by rewrite app_assoc.
    + constructor; [|done]. simpl. by rewrite Hm.
    + intros HJ. apply Honce. rewrite <- app_assoc.
      pose proof (visit_fold_once nodes children (c :: cur) result (mkRound indeg [] [] st)) as H.
      simpl in H. apply H. by rewrite app_nil_r.
Qed.


Lemma keys_make_nodes (nm : list (@GroupFilter Env)) k :
  k ∈ ODict.keys (make_nodes nm) ↔ k ∈ name <$> nm.
Proof.
  unfold make_nodes. induction nm as [|n nm IH] using rev_ind.
  - simpl. by rewrite !elem_of_nil.
  - rewrite !fmap_app. simpl. rewrite from_list_snoc, elem_of_app, list_elem_of_singleton, <- IH.
    destruct (decide (name n ∈ ODict.keys (ODict.from_list ((λ node, (name node, node)) <$> nm)))).
    + rewrite keys_set_in by done. split; [tauto | intros [?| ->]; done].
    + rewrite keys_set_notin by done. by rewrite elem_of_app, list_elem_of_singleton.
Qed.

(** On a collection without repeated names, the edges of the dictionary are
    the [depend_on] entries of the listed groups that name a listed group. *)
Lemma edge_unique_names (nm : list (@GroupFilter Env)) p c :
  NoDup (name <$> nm) →
  edge (make_nodes nm) p c
  ↔ ∃ node, node ∈ nm ∧ name node = c ∧ p ∈ depend_on node ∧ p ∈ name <$> nm.
Proof.
  intros Hnd. unfold edge. setoid_rewrite keys_make_nodes.
  assert (Hkeys : ((λ node : @GroupFilter Env, (name node, node)) <$> nm).*1 = name <$> nm).
  { clear. induction nm as [|n nm IH]; [done |]. rewrite !fmap_cons. simpl. by rewrite IH. }
  assert (Hget : ∀ node, ODict.get c (make_nodes nm) = Some node ↔ node ∈ nm ∧ name node = c).
  { intros node. unfold make_nodes. rewrite from_list_NoDup by (by rewrite Hkeys).
    split.
    - intros ([k n] & [= -> ->] & Hin)%get_elem_of%list_elem_of_fmap. done.
    - intros [Hin <-]. apply elem_of_get.
      + unfold ODict.keys. by rewrite Hkeys.
      + apply list_elem_of_fmap. by exists node. }
  split.
  - intros (node & Hn%Hget & ? & ?). exists node. tauto.
  - intros (node & ? & ? & ? & ?). exists node. rewrite Hget. tauto.
Qed.

Lemma match_trace_known nodes children :
  well_keyed nodes → children_ok nodes children →
  ∀ fuel cur indeg (st : @State Env),
    (∀ c, c ∈ cur → c ∈ ODict.keys nodes) →
    Forall (λ fm, ∀ c, c ∈ fm.1 → c ∈ ODict.keys nodes)
           (match_trace fuel nodes children cur indeg st).
Proof.
  intros Hwk Hch. induction fuel as [|fuel IH]; intros cur indeg st Hcur;
    (destruct cur as [|x cur]; [constructor |]); [constructor |].
  cbn [match_trace]. constructor; [done |]. apply IH.
  intros c Hc. apply (deep_known _ 1). revert c Hc. apply run_round_deep; [done..|].
  intros c Hc. by apply deep_O, Hcur.
Qed.

Lemma initial_scheduled_once nodes (indeg : ODict.t Z) :
  NoDup (ODict.keys indeg) → scheduled_once nodes indeg ([] ++ zero_in_degree indeg).
Proof.
  intros Hnd k _. simpl. split.
  - by apply occurrences_NoDup, NoDup_zero_in_degree.
  - intros Hk%elem_of_zero_in_degree; [|done]. by exists 0.
Qed.

(** X28. For an acyclic collection and enough fuel, the matcher
    returns a list (it terminates and does not report a cycle); every name
    of the list is the name of a group of the collection; a group whose
    [depend_on_mode] is [and] occurs at most once; and the list is the
    concatenation, round after round, of the names each round confirmed,
    which within a round follow the order of its frontier. *)
Theorem match_acyclic (nm : list (@GroupFilter Env)) fuel st :
  ¬ has_cycle nm → (length nm ≤ fuel)%nat →
  ∃ result st',
    GroupFilter_match fuel nm st = Some (Some result, st')
    ∧ (∀ k, k ∈ result → k ∈ name <$> nm)
    ∧ (∀ k node, ODict.get k (make_nodes nm) = Some node →
         depend_on_mode node = depend_and → (occurrences k result ≤ 1)%nat)
    ∧ (let nodes := make_nodes nm in
       let g := build_graph nodes in
       let trace := match_trace fuel nodes g.2 (zero_in_degree g.1) g.1 st in
       result = mjoin trace.*2 ∧ Forall (λ fm, fm.2 `sublist_of` fm.1) trace).
Proof.
  intros Hacyc Hfuel. unfold GroupFilter_match.
  rewrite (is_cyclic_sound _ _ Hacyc Hfuel). simpl.
  set (nodes := make_nodes nm). set (g := build_graph nodes).
  pose proof (make_nodes_well_keyed nm) as Hwk. fold nodes in Hwk.
  pose proof (children_ok_build _ Hwk) as Hch. fold g in Hch.
  destruct (build_graph_spec nodes Hwk) as (_ & _ & Hkeys). fold g in Hkeys.
  assert (Hnd : NoDup (ODict.keys g.1)) by (rewrite Hkeys; apply Hwk).
  assert (Hno : ∀ x, ¬ tc (edge nodes) x x) by (intros x Hx; apply Hacyc; by exists x).
  assert (Hcur : ∀ c, c ∈ zero_in_degree g.1 → c ∈ ODict.keys nodes).
  { intros c Hc%elem_of_zero_in_degree; [|done]. rewrite <- Hkeys. apply elem_of_keys. eauto. }
  destruct (match_loop_terminates nodes g.2 Hwk Hch Hno fuel 0 (zero_in_degree g.1) g.1 [] st)
    as [[res st'] Hloop].
  { intros c Hc. by apply deep_O, Hcur. }
  { rewrite length_keys. pose proof (length_make_nodes nm). fold nodes in H. lia. }
  rewrite Hloop. simpl. exists res, st'. split; [done |].
  destruct (match_loop_result _ _ _ _ _ _ _ _ _ Hloop) as (Hres & Hsub & Honce).
  simpl in Hres.
  pose proof (match_trace_known nodes g.2 Hwk Hch fuel _ g.1 st Hcur) as Hknown.
  split; [|split; [|done]].
  - intros k Hk. apply keys_make_nodes. fold nodes. subst res.
    apply list_elem_of_join in Hk as (m & Hk & Hm).
    apply list_elem_of_fmap in Hm as ([fr rm] & -> & Hm).
    rewrite Forall_forall in Hsub, Hknown.
    apply (Hknown _ Hm). simpl. eapply elem_of_sublist; [done | apply (Hsub _ Hm)].
  - intros k node Hget Hmode. apply Honce; [by apply initial_scheduled_once |].
    unfold is_and. rewrite Hget. by apply bool_decide_eq_true.
Qed.

(** C4. When the edges of the collection contain a cycle, the matcher
    returns [None] and leaves the state as it was: no pipeline of a group
    was run, whatever the filters are. *)
Theorem match_cyclic (nm : list (@GroupFilter Env)) fuel st :
  has_cycle nm → (length nm ≤ fuel)%nat → GroupFilter_match fuel nm st = Some (None, st).
Proof.
  intros Hcyc Hfuel. unfold GroupFilter_match. by rewrite (is_cyclic_complete _ _ Hcyc Hfuel).
Qed.






Lemma kahn_loop_mono fuel fuel' children queue indeg v r :
  kahn_loop fuel children queue indeg v = Some r → (fuel ≤ fuel')%nat →
  kahn_loop fuel' children queue indeg v = Some r.
Proof.
  revert fuel' queue indeg v. induction fuel as [|fuel IH]; intros fuel' queue indeg v.
  - destruct queue; [|done]. simpl. intros [= <-] _. by destruct fuel'.
  - destruct queue as [|c q].
    + simpl. intros [= <-] _. by destruct fuel'.
    + intros H Hle. destruct fuel' as [|fuel']; [lia |]. simpl in *.
      apply IH; [done | lia].
Qed.

Lemma match_loop_mono fuel fuel' nodes children cur indeg result st r :
  match_loop fuel nodes children cur indeg result st = Some r → (fuel ≤ fuel')%nat →
  match_loop fuel' nodes children cur indeg result st = Some r.
Proof.
  revert fuel' cur indeg result st. induction fuel as [|fuel IH]; intros fuel' cur indeg result st.
  - destruct cur; [|done]. simpl. intros [= <-] _. by destruct fuel'.
  - destruct cur as [|c q].
    + simpl. intros [= <-] _. by destruct fuel'.
    + intros H Hle. destruct fuel' as [|fuel']; [lia |]. cbn [match_loop] in *.
      apply IH; [done | lia].
Qed.

Lemma is_cyclic_mono fuel fuel' (nm : list (@GroupFilter Env)) b :
  GroupFilter_is_cyclic fuel nm = Some b → (fuel ≤ fuel')%nat →
  GroupFilter_is_cyclic fuel' nm = Some b.
Proof.
  unfold GroupFilter_is_cyclic. intros H Hle.
  destruct (kahn_loop fuel _ _ _ _) as [v|] eqn:Hk; [|done].
  by rewrite (kahn_loop_mono _ _ _ _ _ _ _ Hk Hle).
Qed.

(** More fuel does not change the result of the matcher. *)
Lemma GroupFilter_match_mono fuel fuel' (nm : list (@GroupFilter Env)) st r :
  GroupFilter_match fuel nm st = Some r → (fuel ≤ fuel')%nat →
  GroupFilter_match fuel' nm st = Some r.
Proof.
  unfold GroupFilter_match. intros H Hle.
  destruct (GroupFilter_is_cyclic fuel nm) as [b|] eqn:Hc; [|done].
  rewrite (is_cyclic_mono _ _ _ _ Hc Hle). simpl in *. destruct b; [done |].
  destruct (match_loop fuel _ _ _ _ _ _) as [[res st']|] eqn:Hm; [|done].
  by rewrite (match_loop_mono _ _ _ _ _ _ _ _ _ Hm Hle).
Qed.

Lemma visit_matched nodes children (r : @Round Env) name_ node b :
  ODict.get name_ nodes = Some node →
  (GroupFilter_pipeline node (r_state r)).1 = b →
  visit nodes children r name_
  = {| r_in_degree := (foldl (propagate nodes name_ b) (r_in_degree r, r_next_round r)
                             (children_of children name_)).1;
       r_next_round := (foldl (propagate nodes name_ b) (r_in_degree r, r_next_round r)
                              (children_of children name_)).2;
       r_round_matched := if b then r_round_matched r ++ [name_] else r_round_matched r;
       r_state := (GroupFilter_pipeline node (r_state r)).2 |}.
Proof. intros Hget <-. by rewrite (visit_Some _ _ _ _ _ Hget). Qed.

Lemma match_loop_cons fuel nodes children c cur indeg result st :
  match_loop (S fuel) nodes children (c :: cur) indeg result st
  = match_loop fuel nodes children
      (r_next_round (run_round nodes children (c :: cur) indeg st))
      (r_in_degree (run_round nodes children (c :: cur) indeg st))
      (result ++ r_round_matched (run_round nodes children (c :: cur) indeg st))
      (r_state (run_round nodes children (c :: cur) indeg st)).
Proof. done. Qed.

Ltac eval_propagate :=
  match goal with
  | |- context [foldl (propagate ?n ?a ?b) ?acc ?cs] =>
      let t := constr:(foldl (propagate n a b) acc cs) in
      let v := eval vm_compute in t in
      replace t with v by (vm_compute; reflexivity)
  end.

Ltac round_step := rewrite match_loop_cons; unfold run_round; cbn [foldl].
Ltac visit_step Hget b Hres :=
  rewrite (visit_matched _ _ _ _ _ b Hget) by (cbn [r_state]; exact Hres);
  cbn [r_in_degree r_next_round r_round_matched r_state];
  repeat eval_propagate; cbn [fst snd].

(** C2. For the groups [A], [B] and [C] depending on [A], [D] depending on
    [B] and [C] in mode [and], [E] depending on [B], without inverted edges,
    and a resource on which the pipelines of [A], [B] and [E] yield true and
    the one of [C] false, each in the state in which the matcher runs it,
    the matcher returns [A; B; E].  The state it leaves is the one the
    pipelines of [A], [B], [C] and [E] leave, run in this order: the pipeline
    of [D] is not run, whatever it would yield. *)
Theorem worked_example (fA fB fC fD fE : list (@Filter Env))
    (mA mB mC mD mE : FilterMode) (dA dB dC dE : DependOnMode) st fuel :
  let A := mkGroupFilter "A" fA mA ∅ dA ∅ in
  let B := mkGroupFilter "B" fB mB {["A"]} dB ∅ in
  let C := mkGroupFilter "C" fC mC {["A"]} dC ∅ in
  let D := mkGroupFilter "D" fD mD {["B"; "C"]} depend_and ∅ in
  let E := mkGroupFilter "E" fE mE {["B"]} dE ∅ in
  let sA := (GroupFilter_pipeline A st).2 in
  let sB := (GroupFilter_pipeline B sA).2 in
  let sC := (GroupFilter_pipeline C sB).2 in
  (GroupFilter_pipeline A st).1 = true →
  (GroupFilter_pipeline B sA).1 = true →
  (GroupFilter_pipeline C sB).1 = false →
  (GroupFilter_pipeline E sC).1 = true →
  (5 ≤ fuel)%nat →
  GroupFilter_match fuel [A; B; C; D; E] st
  = Some (Some ["A"; "B"; "E"], (GroupFilter_pipeline E sC).2).
Proof.
  destruct dA, dB, dC, dE.
  all: intros A B C D E sA sB sC HA HB HC HE Hfuel.
  all: apply (GroupFilter_match_mono 5); [|done].
  all: unfold GroupFilter_match.
  all: assert (Hcyc : GroupFilter_is_cyclic 5 [A; B; C; D; E] = Some false)
    by (vm_compute; reflexivity).
  all: rewrite Hcyc; cbn [mbind option_bind].
  all: assert (Hnodes : make_nodes [A; B; C; D; E]
                   = [("A", A); ("B", B); ("C", C); ("D", D); ("E", E)]) by reflexivity.
  all: rewrite Hnodes; set (nodes := [("A", A); ("B", B); ("C", C); ("D", D); ("E", E)]).
  all: assert (Hg : build_graph nodes
               = ([("A", 0); ("B", 1); ("C", 1); ("D", 2); ("E", 1)],
                  [("A", ["B"; "C"]); ("B", ["D"; "E"]); ("C", ["D"]); ("D", []); ("E", [])]))
    by (vm_compute; reflexivity).
  all: rewrite Hg; cbn [fst snd].
  all: assert (Hz : zero_in_degree [("A", 0); ("B", 1); ("C", 1); ("D", 2); ("E", 1)] = ["A"])
    by (vm_compute; reflexivity).
  all: rewrite Hz; clear Hcyc Hnodes Hg Hz.
  all: assert (HgA : ODict.get "A" nodes = Some A) by reflexivity.
  all: assert (HgB : ODict.get "B" nodes = Some B) by reflexivity.
  all: assert (HgC : ODict.get "C" nodes = Some C) by reflexivity.
  all: assert (HgE : ODict.get "E" nodes = Some E) by reflexivity.
  all: round_step; visit_step HgA true HA.
  all: round_step; visit_step HgB true HB; visit_step HgC false HC.
  all: round_step; visit_step HgE true HE.
  all: reflexivity.
Qed.

(** A collection that Kahn's check accepts has no cycle. *)
Lemma acyclic_by_check (nm : list (@GroupFilter Env)) fuel :
  (length nm ≤ fuel)%nat → GroupFilter_is_cyclic fuel nm = Some false → ¬ has_cycle nm.
Proof.
  intros Hfuel Hcheck Hcyc. rewrite (is_cyclic_complete _ _ Hcyc Hfuel) in Hcheck. done.
Qed.

Lemma has_cycle_nonempty (nm : list (@GroupFilter Env)) : has_cycle nm → nm ≠ [].
Proof.
  intros [k (p & (node & Hget & _) & _)%tc_cycle_pred] ->. done.
Qed.

End Graph.

(** * The boolean combinator [All] *)

Section Combinators.
Context {Env : Type}.
Implicit Types (st : @State Env) (f : @Filter Env) (fs pre post : list (@Filter Env)).

Lemma All_pipeline_app pre fs st st1 :
  all_match pre st = Some st1 → All_pipeline (pre ++ fs) st = All_pipeline fs st1.
Proof.
  revert st. induction pre as [|f pre IH]; intros st; simpl.
  - by intros [= ->].
  - destruct (filter_run f st) as [[[]|e] st']; try done. apply IH.
Qed.

(** C7. In mode [all], when the filters before the i-th all matched: if the
    i-th filter raises, the result is [False] and the state is the one that
    filter left with one error message added to the sink; if it returns
    [False], the result is [False] and the state is the one it left.  In both
    cases the result is the same for every list [post] of later filters, so
    none of them is invoked, and the combinator returns a value: its caller
    goes on with the sibling groups. *)
Theorem All_pipeline_stops pre post f st st1 st2 :
  all_match pre st = Some st1 →
  (∀ e, filter_run f st1 = (Raise e, st2) →
     filter_pipeline (pre ++ f :: post) mode_all st
     = (false, output_msg "error" (exn_str e) (fc_name (filter_config f)) st2)) ∧
  (filter_run f st1 = (Return false, st2) →
     filter_pipeline (pre ++ f :: post) mode_all st = (false, st2)).
Proof.
  intros Hpre. unfold filter_pipeline. rewrite (All_pipeline_app _ _ _ _ Hpre).
  split; [intros e Hf | intros Hf]; simpl; by rewrite Hf.
Qed.

End Combinators.

(** * The action pipeline and the stop signal *)

Section Actions.
Context {Env : Type}.
Implicit Types (st : @State Env) (a : @Action Env) (g : @GroupAction Env).

Lemma action_pipeline_app (pre rest : list (@Action Env)) simulate st st1 :
  all_return pre simulate st = Some st1 →
  action_pipeline (pre ++ rest) simulate st = action_pipeline rest simulate st1.
Proof.
  revert st. induction pre as [|a pre IH]; intros st; simpl.
  - by intros [= ->].
  - destruct (action_run a simulate st) as [[[]|e] st']; try done. apply IH.
Qed.

Lemma GroupAction_pipeline_no_stop g simulate st :
  (GroupAction_pipeline g simulate st).1 ≠ Raise StopIteration.
Proof.
  unfold GroupAction_pipeline.
  by destruct (action_pipeline (actions g) simulate st) as [[|text sender] st'].
Qed.

(** C9. A [StopIteration] raised by an action of a group ends that group
    only: the group's pipeline returns normally in the state the raising
    action left (the actions after it do not run), the outer pipeline goes
    on with the sibling groups, and when these finish the resource is
    counted as a success.  A group's pipeline never raises [StopIteration]. *)
Theorem stop_signal_ends_own_group g (siblings : list (@GroupAction Env))
    (pre post : list (@Action Env)) a simulate st st1 st2 :
  actions g = pre ++ a :: post →
  all_return pre simulate st = Some st1 →
  action_run a simulate st1 = (Raise StopIteration, st2) →
  GroupAction_pipeline g simulate st = (Return (), st2)
  ∧ action_pipeline (g :: siblings) simulate st = action_pipeline siblings simulate st2
  ∧ (∀ sm skip st3,
       action_pipeline siblings simulate st2 = (Exhausted, st3) →
       try_actions (g :: siblings) simulate sm skip st
       = (add_success sm, skip ∪ walker_skip_pathes (st_res st3), st3))
  ∧ (∀ g' st', (GroupAction_pipeline g' simulate st').1 ≠ Raise StopIteration).
Proof.
  intros Hg Hpre Ha.
  assert (Hgp : GroupAction_pipeline g simulate st = (Return (), st2)).
  { unfold GroupAction_pipeline. rewrite Hg, (action_pipeline_app _ _ _ _ _ Hpre).
    simpl. by rewrite Ha. }
  assert (Hout : action_pipeline (g :: siblings) simulate st
                 = action_pipeline siblings simulate st2).
  { simpl. by rewrite Hgp. }
  split_and!; [done | done | | intros; apply GroupAction_pipeline_no_stop].
  intros sm skip st3 Hsib. unfold try_actions. by rewrite Hout, Hsib.
Qed.

End Actions.

(** * The rule executor *)

Section Executor.
Context {Env : Type}.
Implicit Types (st : @State Env) (r : @Rule Env) (x : @Exec Env) (sm : @ReportSummary).
Local Open Scope nat_scope.

(** One [try] block adds exactly one increment and never shrinks the skip
    set; it grows the skip set only when it counts a success. *)
Lemma try_actions_spec {A} `{!HasActionPipeline A} (acts : list A) simulate sm skip st :
  ∀ sm' skip' st', try_actions acts simulate sm skip st = (sm', skip', st') →
    total sm' = S (total sm) ∧ success sm ≤ success sm' ∧ skip ⊆ skip'
    ∧ (success sm' = success sm → skip' = skip).
Proof.
  intros sm' skip' st'. unfold try_actions, total.
  destruct (action_pipeline acts simulate st) as [[|text sender] st1]; intros [= <- <- <-]; simpl.
  - split_and!; [lia | lia | set_solver | lia].
  - split_and!; [lia | lia | done | done].
Qed.

Lemma flat_branch_spec r simulate sm skip st :
  ∀ sm' skip' st', flat_branch r simulate sm skip st = (sm', skip', st') →
    total sm ≤ total sm' ≤ S (total sm) ∧ success sm ≤ success sm' ∧ skip ⊆ skip'
    ∧ (success sm' = success sm → skip' = skip).
Proof.
  intros sm' skip' st'. unfold flat_branch.
  destruct (filter_pipeline _ _ st) as [result st1].
  destruct (result && has_actions r).
  - intros H. apply try_actions_spec in H as (? & ? & ? & ?). split_and!; [lia | lia | done..].
  - intros [= <- <- <-]. split_and!; [lia | lia | done..].
Qed.

Lemma group_branch_spec fuel r simulate sm skip st :
  ∀ sm' skip' st', group_branch fuel r simulate sm skip st = Some (Return (sm', skip'), st') →
    total sm' = S (total sm) ∧ success sm ≤ success sm' ∧ skip ⊆ skip'
    ∧ (success sm' = success sm → skip' = skip).
Proof.
  intros sm' skip' st'. unfold group_branch.
  destruct (group_filter_pipeline fuel _ st) as [[[[result|]|e] st1]|]; simpl; try done.
  destruct (try_actions _ simulate sm skip st1) as [[sm1 skip1] st2] eqn:Htry.
  intros [= <- <- <-]. by apply try_actions_spec in Htry.
Qed.

(** What one pass of the loop body does to the counters and the skip set. *)
Lemma process_resource_spec fuel r simulate nr x p x' :
  process_resource fuel r simulate nr x p = Some (Return (), x') →
  total (summary x) ≤ total (summary x') ≤ total (summary x) + 2
  ∧ ((classify_by_type (rule_filters r)).1 = [] →
       total (summary x') ≤ total (summary x) + 1)
  ∧ skip_pathes x ⊆ skip_pathes x'
  ∧ (success (summary x') = success (summary x) → skip_pathes x' = skip_pathes x).
Proof.
  unfold process_resource. case_bool_decide as Hskip.
  { intros [= <-]. split_and!; [lia | lia | lia | done | done]. }
  destruct (classify_by_type (rule_filters r)).1 as [|gf gfs] eqn:Hgf.
  - destruct (flat_branch _ _ _ _ _) as [[sm skip] st'] eqn:Hflat.
    intros [= <-]. apply flat_branch_spec in Hflat as (? & ? & ? & ?). simpl.
    split_and!; [lia | lia | lia | done | done].
  - destruct (group_branch _ _ _ _ _ _) as [[[[sm1 skip1]|e] st1]|] eqn:Hgroup; simpl; try done.
    destruct (flat_branch _ _ _ _ _) as [[sm skip] st'] eqn:Hflat.
    intros [= <-]. apply group_branch_spec in Hgroup as (Hgt & Hgs & Hgk & Hg).
    apply flat_branch_spec in Hflat as (Hft & Hfs & Hfk & Hf). simpl.
    split_and!; [lia | lia | done | by etrans |].
    intros Hs. rewrite Hf by lia. apply Hg. lia.
Qed.

Lemma execute_loop_app fuel r simulate nr (w1 w2 : list Path) x :
  execute_loop fuel r simulate nr (w1 ++ w2) x
  = match execute_loop fuel r simulate nr w1 x with
    | Some (Return _, x') => execute_loop fuel r simulate nr w2 x'
    | other => other
    end.
Proof.
  revert x. induction w1 as [|p w1 IH]; intros x; simpl; [done |].
  destruct (process_resource fuel r simulate nr x p) as [[[[]|e] x1]|]; simpl; auto.
Qed.

Lemma execute_loop_spec fuel r simulate nr (walk : list Path) x x' :
  execute_loop fuel r simulate nr walk x = Some (Return (), x') →
  total (summary x') ≤ total (summary x) + 2 * length walk
  ∧ ((classify_by_type (rule_filters r)).1 = [] →
       total (summary x') ≤ total (summary x) + length walk)
  ∧ skip_pathes x ⊆ skip_pathes x'.
Proof.
  revert x. induction walk as [|p walk IH]; intros x; simpl.
  - intros [= <-]. split_and!; [lia | lia | done].
  - destruct (process_resource fuel r simulate nr x p) as [[[[]|e] x1]|] eqn:Hp; simpl; try done.
    intros Hloop. apply process_resource_spec in Hp as (Hp2 & Hp1 & Hps & _).
    apply IH in Hloop as (Hl2 & Hl1 & Hls). split_and!; [lia | | by etrans].
    intros Hf. specialize (Hp1 Hf). specialize (Hl1 Hf). lia.
Qed.

(** X29. Each [try] block adds exactly one increment to the counters,
    whatever the number of actions, and a rule without group filters counts
    a resource at most once: one pass of the loop body adds at most one
    increment, and so does the whole run, per walked resource. *)
Theorem flat_rule_counts_once fuel r simulate nr :
  (classify_by_type (rule_filters r)).1 = [] →
  (∀ (acts : list (@Action Env)) sm skip st sm' skip' st',
     try_actions acts simulate sm skip st = (sm', skip', st') →
     total sm' = S (total sm))
  ∧ (∀ x p x', process_resource fuel r simulate nr x p = Some (Return (), x') →
       total (summary x') ≤ total (summary x) + 1)
  ∧ (∀ walk out env x,
       locations r ≠ [] →
       Rule_execute fuel r simulate nr walk out env = Some (Return (), x) →
       total (summary x) ≤ length walk).
Proof.
  intros Hflat. split_and!.
  - intros acts sm skip st sm' skip' st' H. by apply try_actions_spec in H as (? & _).
  - intros x p x' (_ & H & _)%process_resource_spec. by apply H.
  - intros walk out env x Hloc. unfold Rule_execute.
    destruct (negb (enabled r)).
    { intros [= <-]. unfold total. simpl. lia. }
    destruct (locations r); [done |].
    intros (_ & H1 & _)%execute_loop_spec. specialize (H1 Hflat).
    unfold total in *. simpl in *. lia.
Qed.

(** C8. When running the rule on the walk up to and including [p] leaves
    [q] in the skip set, a later resource with path [q] is not evaluated:
    the whole run is the one of the walk without it (same summary, same
    skip set, same sink, same world, same exception if any).  A pass over a
    path of the skip set returns the executor's state as it was. *)
Theorem skipped_path_is_not_evaluated fuel r simulate nr
    (pre mid post : list Path) (p q : Path) out env x1 :
  Rule_execute fuel r simulate nr (pre ++ [p]) out env = Some (Return (), x1) →
  q ∈ skip_pathes x1 →
  Rule_execute fuel r simulate nr (pre ++ p :: mid ++ q :: post) out env
  = Rule_execute fuel r simulate nr (pre ++ p :: mid ++ post) out env
  ∧ (∀ x, q ∈ skip_pathes x → process_resource fuel r simulate nr x q = Some (Return (), x)).
Proof.
  intros Hrun Hq. split.
  2: { intros x Hx. unfold process_resource. by rewrite bool_decide_eq_true_2. }
  revert Hrun. unfold Rule_execute.
  destruct (negb (enabled r)); [done |].
  destruct (locations r); [done |].
  intros Hrun.
  replace (pre ++ p :: mid ++ q :: post) with ((pre ++ [p]) ++ mid ++ q :: post)
    by (by rewrite <- app_assoc).
  replace (pre ++ p :: mid ++ post) with ((pre ++ [p]) ++ mid ++ post)
    by (by rewrite <- app_assoc).
  rewrite !(execute_loop_app _ _ _ _ (pre ++ [p])), !Hrun.
  rewrite !(execute_loop_app _ _ _ _ mid).
  destruct (execute_loop fuel r simulate nr mid x1) as [[[[]|e] x2]|] eqn:Hmid; try done.
  apply execute_loop_spec in Hmid as (_ & _ & Hsub).
  simpl. unfold process_resource at 1.
  rewrite bool_decide_eq_true_2 by set_solver. done.
Qed.

(** X30. In a rule without group filters, a resource whose filters match
    and whose action pipeline raises an exception other than
    [StopIteration] counts one error and leaves the skip set as it was,
    whatever paths the actions recorded before the failure: the paths of
    the resource are merged on the success path only. *)
Theorem flat_rule_failure_keeps_skip_set fuel r simulate nr x p
    (fs : list (@Filter Env)) text sender st1 st2 :
  rule_filters r = inl fs →
  p ∉ skip_pathes x →
  filter_pipeline fs (rule_filter_mode r)
    (mkState (new_resource (Some p) nr) (ex_out x) (ex_env x)) = (true, st1) →
  action_pipeline (classify_by_type (rule_actions r)).2 simulate st1
  = (Propagated text sender, st2) →
  process_resource fuel r simulate nr x p
  = Some (Return (),
          exec_of (add_error (summary x)) (skip_pathes x)
                  (output_msg "error" text sender st2)).
Proof.
  intros Hfs Hskip Hfilter Hact. unfold process_resource.
  rewrite bool_decide_eq_false_2 by done. rewrite Hfs. simpl.
  unfold flat_branch. rewrite Hfs. simpl. rewrite Hfilter. simpl.
  assert (Hhas : has_actions r = true).
  { unfold has_actions. destruct (rule_actions r) as [acts|gas]; simpl in Hact.
    - apply bool_decide_eq_true. by intros ->.
    - done. }
  rewrite Hhas. unfold try_actions. by rewrite Hact.
Qed.

(** C5 (amended). For an enabled rule with locations whose group filters
    form a cyclic graph, [execute] raises the configuration error when the
    walker yields the first resource, before any filter or action has run:
    the sink and the world are as before the call.  When the walker yields
    no resource, [execute] returns the empty summary and raises nothing. *)
Theorem cyclic_rule_fails_at_first_resource fuel r simulate nr
    (gfs : list (@GroupFilter Env)) (p : Path) (rest : list Path) out env :
  enabled r = true → locations r ≠ [] → rule_filters r = inr gfs →
  has_cycle gfs → length gfs ≤ fuel →
  Rule_execute fuel r simulate nr (p :: rest) out env
  = Some (Raise (Error "Cyclic dependency detected in filters."),
          mkExec (mkSummary 0 0) ∅ out env)
  ∧ Rule_execute fuel r simulate nr [] out env
    = Some (Return (), mkExec (mkSummary 0 0) ∅ out env).
Proof.
  intros Hen Hloc Hfs Hcyc Hfuel. unfold Rule_execute. rewrite Hen. simpl.
  destruct (locations r); [done |]. split; [|done].
  simpl. unfold process_resource. rewrite bool_decide_eq_false_2 by set_solver.
  rewrite Hfs. simpl. pose proof (has_cycle_nonempty _ Hcyc) as Hne.
  destruct gfs as [|g gfs]; [done |].
  unfold group_branch. rewrite Hfs. simpl. unfold group_filter_pipeline.
  rewrite (is_cyclic_complete _ _ Hcyc Hfuel). done.
Qed.

End Executor.
(** * Further properties of the combinators and of the action pipeline *)

Section CombinatorLaws.
Context {Env : Type}.
Implicit Types (st : @State Env) (f : @Filter Env) (fs : list (@Filter Env)).

(** X1. [All] over a concatenation: the second list is evaluated exactly when
    the first yields [True], from the state the first left. *)
Theorem All_pipeline_concat fs1 fs2 st :
  All_pipeline (fs1 ++ fs2) st
  = if (All_pipeline fs1 st).1
    then All_pipeline fs2 (All_pipeline fs1 st).2
    else (false, (All_pipeline fs1 st).2).
Proof.
  revert st. induction fs1 as [|f fs1 IH]; intros st; simpl; [done |].
  destruct (filter_run f st) as [[[]|e] st']; simpl; auto.
Qed.

Lemma Any_loop_true fs st : (Any_loop fs true st).1 = true.
Proof.
  revert st. induction fs as [|f fs IH]; intros st; simpl; [done |].
  destruct (filter_run f st) as [[[]|e] st']; simpl; auto.
Qed.

Lemma Any_loop_state fs b st : (Any_loop fs b st).2 = (Any_loop fs false st).2.
Proof.
  revert b st. induction fs as [|f fs IH]; intros b st; simpl; [done |].
  destruct (filter_run f st) as [[[]|e] st']; simpl; auto.
Qed.

Lemma Any_loop_result fs b st : (Any_loop fs b st).1 = b || (Any_loop fs false st).1.
Proof.
  revert b st. induction fs as [|f fs IH]; intros b st; simpl; [by destruct b |].
  destruct (filter_run f st) as [[[]|e] st']; simpl; auto.
  rewrite !Any_loop_true. by destruct b.
Qed.

(** X2. [Any] does not short-circuit: over a concatenation the second list is
    always evaluated, from the state the first left, and the result is the
    disjunction of the two results. *)
Theorem Any_pipeline_concat fs1 fs2 st :
  Any_pipeline (fs1 ++ fs2) st
  = ((Any_pipeline fs1 st).1 || (Any_pipeline fs2 (Any_pipeline fs1 st).2).1,
     (Any_pipeline fs2 (Any_pipeline fs1 st).2).2).
Proof.
  unfold Any_pipeline.
  assert (H : ∀ b, Any_loop (fs1 ++ fs2) b st
              = Any_loop fs2 (Any_loop fs1 b st).1 (Any_loop fs1 b st).2).
  { revert st. induction fs1 as [|f fs1 IH]; intros st b; simpl; [done |].
    destruct (filter_run f st) as [[m|e] st']; simpl; auto. }
  rewrite H. apply injective_projections; simpl.
  - apply Any_loop_result.
  - apply Any_loop_state.
Qed.

(** X3. Inverting twice gives the filter back: same descriptor, same
    outcome and same state on every input; an exception passes through
    [Not] unchanged. *)
Theorem Not_involutive f :
  filter_config (Not (Not f)) = filter_config f
  ∧ (∀ st, filter_run (Not (Not f)) st = filter_run f st)
  ∧ (∀ st e st', filter_run f st = (Raise e, st') → filter_run (Not f) st = (Raise e, st')).
Proof.
  split_and!; [done | |].
  - intros st. simpl. destruct (filter_run f st) as [[b|e] st']; [|done].
    by rewrite negb_involutive.
  - intros st e st' H. simpl. by rewrite H.
Qed.

(** No filter of the list raises, in any state. *)
Definition never_raise fs : Prop :=
  ∀ f st, f ∈ fs → ∃ b st', filter_run f st = (Return b, st').

(** X4. For filters that do not raise, mode [none] yields the negation of
    mode [any]. *)
Theorem none_is_not_any fs st :
  never_raise fs →
  (filter_pipeline fs mode_none st).1 = negb (filter_pipeline fs mode_any st).1.
Proof.
  unfold filter_pipeline, Any_pipeline. revert st.
  induction fs as [|f fs IH]; intros st Hnr; [done |].
  rewrite fmap_cons. simpl.
  destruct (Hnr f st) as (b & st' & Hf); [by left |]. rewrite Hf.
  assert (Hnr' : never_raise fs) by (intros g s Hg; apply Hnr; by right).
  destruct b; simpl.
  - by rewrite Any_loop_true.
  - by apply IH.
Qed.

(** X5. In mode [none] a filter that raises makes the whole list not match:
    with the filters before it all returning [False], the result is [False],
    the error is reported once, and the later filters do not run. *)
Theorem none_stops_at_error (pre post : list (@Filter Env)) f st st1 st2 e :
  all_match (Not <$> pre) st = Some st1 →
  filter_run f st1 = (Raise e, st2) →
  filter_pipeline (pre ++ f :: post) mode_none st
  = (false, output_msg "error" (exn_str e) (fc_name (filter_config f)) st2).
Proof.
  intros Hpre Hf. unfold filter_pipeline. rewrite fmap_app, fmap_cons.
  rewrite (All_pipeline_app _ _ _ _ Hpre). simpl. by rewrite Hf.
Qed.

End CombinatorLaws.

Section ActionLaws.
Context {Env : Type}.
Implicit Types (st : @State Env) (a : @Action Env) (g : @GroupAction Env).

(** X6. An exception other than [StopIteration] ends the pipeline: with the
    actions before it all returning, the loop is left with the text of the
    exception, the raising action as sender and the state it left; the
    actions after it do not run. *)
Theorem action_pipeline_error (pre post : list (@Action Env)) a simulate st st1 st2 text :
  all_return pre simulate st = Some st1 →
  action_run a simulate st1 = (Raise (Error text), st2) →
  action_pipeline (pre ++ a :: post) simulate st
  = (Propagated text (ac_name (action_config a)), st2).
Proof.
  intros Hpre Ha. rewrite (action_pipeline_app _ _ _ _ _ Hpre). simpl. by rewrite Ha.
Qed.

(** X7. An exception raised inside a group leaves the outer pipeline with the
    group as sender: the remaining actions of the group and the sibling
    groups after it do not run, and the executor's [try] block counts one
    error, reports it under the name of the group and leaves the skip set. *)
Theorem group_error_reported_by_group g (siblings : list (@GroupAction Env))
    (pre post : list (@Action Env)) a simulate st st1 st2 text sm skip :
  actions g = pre ++ a :: post →
  all_return pre simulate st = Some st1 →
  action_run a simulate st1 = (Raise (Error text), st2) →
  action_pipeline (g :: siblings) simulate st = (Propagated text (ga_name g), st2)
  ∧ try_actions (g :: siblings) simulate sm skip st
    = (add_error sm, skip, output_msg "error" text (ga_name g) st2).
Proof.
  intros Hg Hpre Ha.
  assert (H : action_pipeline (g :: siblings) simulate st = (Propagated text (ga_name g), st2)).
  { simpl. unfold GroupAction_pipeline. rewrite Hg.
    rewrite (action_pipeline_app _ _ _ _ _ Hpre). simpl. by rewrite Ha. }
  split; [done |]. unfold try_actions. by rewrite H.
Qed.

End ActionLaws.
(** * Further properties of the dependency graph *)

Section GraphLaws.
Context {Env : Type}.
Implicit Types (nodes : ODict.t (@GroupFilter Env)) (node : @GroupFilter Env)
  (nm : list (@GroupFilter Env)) (st : @State Env).

(** When Kahn's loop has left a node unvisited, the graph has a cycle. *)
Lemma unvisited_cycle nodes indeg (V : list string) :
  NoDup (ODict.keys nodes) → kahn_inv nodes [] indeg V →
  length V ≠ length nodes → ∃ x, tc (edge nodes) x x.
Proof.
  intros HndN [Hnd Hkn _ Hzero _] Hne. rewrite app_nil_r in *.
  assert (Hlt : (length V < length (ODict.keys nodes))%nat).
  { apply (NoDup_submseteq _ (ODict.keys nodes)) in Hnd; [|done].
    apply submseteq_length in Hnd. rewrite length_keys in *. lia. }
  destruct (unvisited_exists V _ HndN Hlt) as (u0 & Hu0 & Hu0V).
  assert (Hback : ∀ u, u ∈ ODict.keys nodes → u ∉ V →
            ∃ p, edge nodes p u ∧ p ∈ ODict.keys nodes ∧ p ∉ V).
  { intros u Hu HuV. rewrite (Hzero u Hu) in HuV.
    destruct (filter (.∉ V) (par nodes u)) as [|p l] eqn:Hf; [done |].
    assert (Hp : p ∈ filter (.∉ V) (par nodes u)) by (rewrite Hf; by left).
    apply list_elem_of_filter in Hp as [HpV Hp%elem_of_par].
    exists p. split_and!; [done | by apply edge_known in Hp as [? _] | done]. }
  assert (Hchain : ∀ n, ∃ h t, length t = n ∧ chain (edge nodes) (h :: t)
            ∧ ∀ x, x ∈ h :: t → x ∈ ODict.keys nodes ∧ x ∉ V).
  { induction n as [|n (h & t & Hlen & Hc & Hall)].
    - exists u0, []. split_and!; [done..|]. by intros x ->%list_elem_of_singleton.
    - destruct (Hall h) as [Hh HhV]; [by left |].
      destruct (Hback h Hh HhV) as (p & Hph & Hp & HpV).
      exists p, (h :: t). split_and!; [simpl; by rewrite Hlen | done |].
      intros x [->|?]%elem_of_cons; auto. }
  destruct (Hchain (length (ODict.keys nodes))) as (h & t & Hlen & Hc & Hall).
  apply (long_chain_cycle (edge nodes) (ODict.keys nodes) (h :: t)); [done | |simpl; lia].
  intros x Hx. by apply Hall.
Qed.

(** A [True] of Kahn's check comes with a cycle. *)
Lemma is_cyclic_true_cycle nm fuel :
  (length nm ≤ fuel)%nat → GroupFilter_is_cyclic fuel nm = Some true → has_cycle nm.
Proof.
  intros Hfuel. unfold GroupFilter_is_cyclic.
  destruct (kahn_result nm fuel Hfuel) as (V & indeg & -> & Hinv). simpl.
  case_bool_decide as Hlen; [done |]. intros _.
  destruct (unvisited_cycle _ _ _ (proj1 (make_nodes_well_keyed nm)) Hinv Hlen) as [x Hx].
  by exists x.
Qed.

(** X8. [is_cyclic] finishes within as many iterations as there are groups,
    and answers [True] exactly when the edges between known names contain a
    cycle. *)
Theorem is_cyclic_decides nm fuel :
  (length nm ≤ fuel)%nat →
  (GroupFilter_is_cyclic fuel nm = Some true ↔ has_cycle nm)
  ∧ (GroupFilter_is_cyclic fuel nm = Some false ↔ ¬ has_cycle nm).
Proof.
  intros Hfuel. split; split.
  - by apply is_cyclic_true_cycle.
  - intros Hc. by apply is_cyclic_complete.
  - intros Hf Hc. rewrite (is_cyclic_complete _ _ Hc Hfuel) in Hf. done.
  - intros Hn. by apply is_cyclic_sound.
Qed.

(** On an acyclic collection the matcher returns a list. *)
Lemma match_returns nm fuel st :
  ¬ has_cycle nm → (length nm ≤ fuel)%nat →
  ∃ result st', GroupFilter_match fuel nm st = Some (Some result, st').
Proof.
  intros Hacyc Hfuel. unfold GroupFilter_match.
  rewrite (is_cyclic_sound _ _ Hacyc Hfuel). simpl.
  set (nodes := make_nodes nm). set (g := build_graph nodes).
  pose proof (make_nodes_well_keyed nm) as Hwk. fold nodes in Hwk.
  pose proof (children_ok_build _ Hwk) as Hch. fold g in Hch.
  destruct (build_graph_spec nodes Hwk) as (_ & _ & Hkeys). fold g in Hkeys.
  assert (Hnd : NoDup (ODict.keys g.1)) by (rewrite Hkeys; apply Hwk).
  assert (Hno : ∀ x, ¬ tc (edge nodes) x x) by (intros x Hx; apply Hacyc; by exists x).
  destruct (match_loop_terminates nodes g.2 Hwk Hch Hno fuel 0 (zero_in_degree g.1) g.1 [] st)
    as [[res st'] Hloop].
  { intros c Hc%elem_of_zero_in_degree; [|done]. apply deep_O. rewrite <- Hkeys.
    apply elem_of_keys. eauto. }
  { rewrite length_keys. pose proof (length_make_nodes nm). fold nodes in H. lia. }
  rewrite Hloop. simpl. eauto.
Qed.

(** With enough fuel Kahn's check settles whether the graph has a cycle. *)
Lemma cycle_or_not nm fuel : (length nm ≤ fuel)%nat → has_cycle nm ∨ ¬ has_cycle nm.
Proof.
  intros Hfuel. destruct (kahn_result nm fuel Hfuel) as (V & indeg & Hk & _).
  destruct (GroupFilter_is_cyclic fuel nm) as [[]|] eqn:Hc.
  - left. by apply (is_cyclic_true_cycle nm fuel).
  - right. by apply (acyclic_by_check nm fuel).
  - unfold GroupFilter_is_cyclic in Hc. simpl in Hk. by rewrite Hk in Hc.
Qed.

Lemma group_filter_pipeline_returns nm fuel st :
  ¬ has_cycle nm → (length nm ≤ fuel)%nat →
  ∃ result st', group_filter_pipeline fuel nm st = Some (Return (Some result), st').
Proof.
  intros Hacyc Hfuel. unfold group_filter_pipeline.
  rewrite (is_cyclic_sound _ _ Hacyc Hfuel). simpl.
  destruct (match_returns nm fuel st Hacyc Hfuel) as (res & st' & ->). simpl. eauto.
Qed.

(** X9. [group_filter_pipeline] has two outcomes: on a cyclic collection it
    raises the [ValueError] and leaves the state as it was; otherwise it
    returns the list that [GroupFilter.match] returns.  It never returns
    [None], so the membership test of [Rule.execute] on its result is
    defined. *)
Theorem group_filter_pipeline_outcomes nm fuel st :
  (length nm ≤ fuel)%nat →
  (has_cycle nm
   ∧ group_filter_pipeline fuel nm st
     = Some (Raise (Error "Cyclic dependency detected in filters."), st))
  ∨ (¬ has_cycle nm
     ∧ ∃ result st',
         GroupFilter_match fuel nm st = Some (Some result, st')
         ∧ group_filter_pipeline fuel nm st = Some (Return (Some result), st')).
Proof.
  intros Hfuel. unfold group_filter_pipeline.
  destruct (kahn_result nm fuel Hfuel) as (V & indeg & Hk & Hinv).
  destruct (GroupFilter_is_cyclic fuel nm) as [[]|] eqn:Hc.
  - left. split; [|done]. by apply (is_cyclic_true_cycle nm fuel).
  - right. assert (Hacyc : ¬ has_cycle nm) by (by apply (acyclic_by_check nm fuel)).
    split; [done |]. destruct (match_returns nm fuel st Hacyc Hfuel) as (res & st' & Hm).
    exists res, st'. split; [done |]. simpl. by rewrite Hm.
  - exfalso. unfold GroupFilter_is_cyclic in Hc. simpl in Hk. by rewrite Hk in Hc.
Qed.

(** X10. What the two dictionaries hold after the nested loops: the in-degree
    of a group counts its dependencies that name a group of the collection
    (other names are ignored); the children of a group are the groups that
    depend on it, once each, in the order of the dictionary; the first
    frontier holds the groups without a known dependency, in that order. *)
Theorem graph_tables nm :
  let nodes := make_nodes nm in
  let g := build_graph nodes in
  (∀ c node, ODict.get c nodes = Some node →
     ODict.get c g.1
     = Some (Z.of_nat (length (filter (.∈ name <$> nm) (elements (depend_on node))))))
  ∧ (∀ p, p ∈ name <$> nm →
       (∀ c, c ∈ children_of g.2 p ↔ edge nodes p c)
       ∧ children_of g.2 p `sublist_of` ODict.keys nodes)
  ∧ (∀ c, c ∈ zero_in_degree g.1 ↔ c ∈ name <$> nm ∧ ∀ p, ¬ edge nodes p c)
  ∧ zero_in_degree g.1 `sublist_of` ODict.keys nodes.
Proof.
  intros nodes g.
  pose proof (make_nodes_well_keyed nm) as Hwk. fold nodes in Hwk.
  destruct (build_graph_spec nodes Hwk) as (Hdeg & Hch & Hkeys). fold g in Hdeg, Hch, Hkeys.
  assert (Hnd : NoDup (ODict.keys g.1)) by (rewrite Hkeys; apply Hwk).
  split_and!.
  - intros c node Hget. rewrite (Hdeg c node Hget). do 3 f_equal. unfold parents.
    apply list_filter_iff. intros p. apply keys_make_nodes.
  - intros p Hp%keys_make_nodes. fold nodes in Hp.
    unfold children_of. rewrite (Hch p Hp). simpl. split.
    + intros c. by apply elem_of_child_list.
    + unfold child_list. rewrite <- (values_names _ Hwk). apply fmap_sublist, sublist_filter.
  - intros c. rewrite elem_of_zero_in_degree by done. rewrite <- keys_make_nodes.
    fold nodes. split.
    + intros H0. assert (Hc : c ∈ ODict.keys nodes).
      { rewrite <- Hkeys. apply elem_of_keys. eauto. }
      split; [done |]. intros p Hp%elem_of_par.
      apply elem_of_keys in Hc as [node Hnode]. rewrite (Hdeg c node Hnode) in H0.
      rewrite (par_get _ _ _ Hnode) in Hp.
      destruct (parents nodes node); [by apply elem_of_nil in Hp |]. simpl in H0.
      injection H0 as H0. lia.
    + intros [[node Hnode]%elem_of_keys Hno]. rewrite (Hdeg c node Hnode).
      destruct (parents nodes node) as [|p l] eqn:Hp; [done |]. exfalso.
      apply (Hno p), elem_of_par. rewrite (par_get _ _ _ Hnode), Hp. by left.
  - rewrite <- Hkeys. unfold zero_in_degree, ODict.keys. apply fmap_sublist, sublist_filter.
Qed.


(** *** Groups in mode [and] *)

Ltac occ_norm :=
  repeat first [rewrite occurrences_app | rewrite occurrences_cons | rewrite occurrences_nil].

Lemma visit_once nodes children (X : list string) (r : @Round Env) x :
  scheduled_once nodes (r_in_degree r) (X ++ r_next_round r) →
  scheduled_once nodes (r_in_degree (visit nodes children r x))
    (X ++ r_next_round (visit nodes children r x)).
Proof.
  intros HJ. destruct (ODict.get x nodes) as [node|] eqn:Hx.
  - rewrite (visit_Some _ _ _ _ _ Hx). cbn [r_in_degree r_next_round].
    by apply propagate_fold_once.
  - by rewrite (visit_None _ _ _ _ Hx).
Qed.

Lemma visit_fold_visited nodes children (cur X : list string) (r : @Round Env) :
  scheduled_once nodes (r_in_degree r) (X ++ cur ++ r_next_round r) →
  scheduled_once nodes (r_in_degree (foldl (visit nodes children) r cur))
    (X ++ cur ++ r_next_round (foldl (visit nodes children) r cur)).
Proof.
  revert X r. induction cur as [|x cur IH]; intros X r HJ; [done |].
  cbn [foldl].
  apply (scheduled_once_sub _ _
           ((X ++ [x]) ++ cur ++ r_next_round (foldl (visit nodes children)
                                                  (visit nodes children r x) cur))).
  { intros k. occ_norm. lia. }
  apply IH.
  apply (scheduled_once_sub _ _ ((X ++ x :: cur) ++ r_next_round (visit nodes children r x))).
  { intros k. occ_norm. lia. }
  apply visit_once. eapply scheduled_once_sub; [|exact HJ]. intros k. occ_norm. lia.
Qed.

Lemma trace_visited_once nodes children fuel :
  ∀ (cur X : list string) indeg st,
    scheduled_once nodes indeg (X ++ cur) →
    ∀ k, is_and nodes k = true →
      (occurrences k (X ++ mjoin (match_trace fuel nodes children cur indeg st).*1) ≤ 1)%nat.
Proof.
  induction fuel as [|fuel IH]; intros cur X indeg st HJ k Hk.
  - destruct (HJ k Hk) as [Hocc _]. revert Hocc.
    destruct cur; simpl; occ_norm; lia.
  - destruct cur as [|c cur].
    { destruct (HJ k Hk) as [Hocc _]. revert Hocc. simpl. occ_norm. lia. }
    cbn [match_trace]. rewrite fmap_cons. cbn [fst mjoin list_join]. rewrite app_assoc.
    apply IH; [|done].
    pose proof (visit_fold_visited nodes children (c :: cur) X (mkRound indeg [] [] st)) as H.
    cbn [r_in_degree r_next_round] in H. rewrite <- app_assoc. apply H. by rewrite app_nil_r.
Qed.

(** X11. A group in mode [and] enters at most one frontier, at most once: its
    filters are run at most once for a resource. *)
Theorem and_group_evaluated_once nm fuel st k node :
  let nodes := make_nodes nm in
  let g := build_graph nodes in
  ODict.get k nodes = Some node → depend_on_mode node = depend_and →
  (occurrences k (mjoin (match_trace fuel nodes g.2 (zero_in_degree g.1) g.1 st).*1) ≤ 1)%nat.
Proof.
  intros nodes g Hget Hmode.
  pose proof (make_nodes_well_keyed nm) as Hwk. fold nodes in Hwk.
  destruct (build_graph_spec nodes Hwk) as (_ & _ & Hkeys). fold g in Hkeys.
  assert (Hnd : NoDup (ODict.keys g.1)) by (rewrite Hkeys; apply Hwk).
  apply (trace_visited_once nodes g.2 fuel (zero_in_degree g.1) [] g.1 st).
  - by apply initial_scheduled_once.
  - unfold is_and. rewrite Hget. by apply bool_decide_eq_true.
Qed.

Lemma propagate_cases nodes x matched (indeg : ODict.t Z) (nx : list string) y :
  propagate nodes x matched (indeg, nx) y = (indeg, nx)
  ∨ ∃ node (fire : bool),
      ODict.get y nodes = Some node
      ∧ xorb matched (bool_decide (x ∈ depend_on_inverted node)) = true
      ∧ propagate nodes x matched (indeg, nx) y
        = (ODict.update y (λ d, d - 1) indeg, if fire then nx ++ [y] else nx).
Proof.
  unfold propagate. destruct (ODict.get y nodes) as [node|]; [|by left].
  destruct (xorb _ _) eqn:Hx; [|by left]. right. cbn [fst snd].
  exists node.
  exists (bool_decide (depend_on_mode node = depend_or)
          || bool_decide (ODict.get y (ODict.update y (λ d, d - 1) indeg) = Some 0)).
  split; [done |]. split; [done |]. by destruct (_ || _).
Qed.

(** What a round does to the in-degree of [c] when it visits [x]: nothing, or
    one decrement, and this only when [c] depends on [x] and the edge fires. *)
Lemma propagate_fold_get nodes x matched (cs : list string) (indeg : ODict.t Z)
    (nx : list string) c :
  NoDup cs →
  ODict.get c (foldl (propagate nodes x matched) (indeg, nx) cs).1 = ODict.get c indeg
  ∨ (c ∈ cs
     ∧ (∃ node, ODict.get c nodes = Some node
                ∧ xorb matched (bool_decide (x ∈ depend_on_inverted node)) = true)
     ∧ ODict.get c (foldl (propagate nodes x matched) (indeg, nx) cs).1
       = (λ d, d - 1) <$> ODict.get c indeg).
Proof.
  revert indeg nx. induction cs as [|y cs IH]; intros indeg nx Hnd; [by left |].
  apply NoDup_cons in Hnd as [Hy Hnd]. cbn [foldl].
  destruct (propagate_cases nodes x matched indeg nx y) as [->|(node & fire & Hn & Hx & ->)].
  - destruct (IH indeg nx Hnd) as [?|(? & ? & ?)]; [by left |].
    right. split_and!; [by right | done..].
  - destruct (IH (ODict.update y (λ d, d - 1) indeg) (if fire then nx ++ [y] else nx) Hnd)
      as [H|(Hc & Hf & H)].
    + rewrite H, get_update. destruct (decide (y = c)) as [->|Hne]; [|by left].
      right. split_and!; [by left | by exists node | done].
    + rewrite get_update in H. rewrite decide_False in H by congruence.
      right. split_and!; [by right | done..].
Qed.

(** Every group of the collection is in mode [and]. *)
Definition all_and nodes : Prop :=
  ∀ k node, ODict.get k nodes = Some node → depend_on_mode node = depend_and.

(** [c] still waits for [p]: its in-degree exceeds the number of its other
    known dependencies not yet visited. *)
Definition blocked nodes (c p : string) (indeg : ODict.t Z) (V : list string) : Prop :=
  ∃ d, ODict.get c indeg = Some d
       ∧ 1 + Z.of_nat (length (filter (.∉ V) (filter (.≠ p) (par nodes c)))) ≤ d.

Lemma blocked_mono nodes c p indeg (V : list string) x :
  blocked nodes c p indeg V → blocked nodes c p indeg (V ++ [x]).
Proof.
  intros (d & Hd & Hle). exists d. split; [done |].
  assert (length (filter (.∉ V ++ [x]) (filter (.≠ p) (par nodes c)))
          ≤ length (filter (.∉ V) (filter (.≠ p) (par nodes c))))%nat; [|lia].
  apply sublist_length. generalize (filter (.≠ p) (par nodes c)). intros l.
  induction l as [|a l IH]; [done |].
  destruct (decide (a ∉ V ++ [x])) as [Ha|Ha].
  - rewrite filter_cons_True by done.
    rewrite (filter_cons_True (.∉ V)) by (intros ?; apply Ha, elem_of_app; by left).
    by apply sublist_skip.
  - rewrite filter_cons_False by done. rewrite filter_cons.
    case_decide; [by apply sublist_cons | done].
Qed.

Section pruned.
Context (nodes : ODict.t (@GroupFilter Env)) (children : ODict.t (list string)).
Context (c p : string) (node_c node_p : @GroupFilter Env).
Hypothesis (Hwk : well_keyed nodes) (Hch : children_ok nodes children).
Hypothesis (Hand : all_and nodes).
Hypothesis (Hc : ODict.get c nodes = Some node_c) (Hp : ODict.get p nodes = Some node_p).
Hypothesis (Hinv : p ∉ depend_on_inverted node_c).
Hypothesis (Hnever : ∀ s, (GroupFilter_pipeline node_p s).1 = false).

Lemma visit_blocked (r : @Round Env) (V : list string) x :
  (ODict.get x nodes ≠ None → x ∉ V) →
  blocked nodes c p (r_in_degree r) V →
  blocked nodes c p (r_in_degree (visit nodes children r x)) (V ++ [x]).
Proof.
  intros HxV Hb. destruct (ODict.get x nodes) as [node_x|] eqn:Hx.
  2: { rewrite (visit_None _ _ _ _ Hx). by apply blocked_mono. }
  rewrite (visit_Some _ _ _ _ _ Hx). cbn [r_in_degree].
  assert (Hxk : x ∈ ODict.keys nodes) by (apply elem_of_keys; eauto).
  rewrite (Hch x Hxk).
  destruct (propagate_fold_get nodes x (GroupFilter_pipeline node_x (r_state r)).1
              (child_list nodes x) (r_in_degree r) (r_next_round r) c
              (NoDup_child_list _ _ Hwk)) as [Heq|(Hin & (node & Hn & Hfire) & Heq)].
  - destruct (blocked_mono _ _ _ _ _ x Hb) as (d & Hd & Hle).
    exists d. by rewrite Heq.
  - destruct Hb as (d & Hd & Hle). exists (d - 1). rewrite Heq, Hd. split; [done |].
    rewrite Hc in Hn. injection Hn as <-.
    assert (Hxp : x ≠ p).
    { intros ->. rewrite Hp in Hx. injection Hx as <-. rewrite Hnever in Hfire.
      by rewrite bool_decide_eq_false_2 in Hfire. }
    apply elem_of_child_list in Hin; [|done..]. apply elem_of_par in Hin.
    rewrite (filter_visited_in V (filter (.≠ p) (par nodes c)) x) in Hle.
    + lia.
    + apply NoDup_filter, NoDup_par.
    + apply HxV. congruence.
    + by apply list_elem_of_filter.
Qed.

Lemma visit_fold_blocked (cur V : list string) (r : @Round Env) :
  scheduled_once nodes (r_in_degree r) (V ++ cur ++ r_next_round r) →
  blocked nodes c p (r_in_degree r) V →
  blocked nodes c p (r_in_degree (foldl (visit nodes children) r cur)) (V ++ cur).
Proof.
  revert V r. induction cur as [|x cur IH]; intros V r HJ Hb; [by rewrite app_nil_r |].
  cbn [foldl]. replace (V ++ x :: cur) with ((V ++ [x]) ++ cur) by (by rewrite <- app_assoc).
  apply IH.
  - apply (scheduled_once_sub _ _ ((V ++ x :: cur) ++ r_next_round (visit nodes children r x))).
    { intros k. occ_norm. lia. }
    apply visit_once. eapply scheduled_once_sub; [|exact HJ]. intros k. occ_norm. lia.
  - apply visit_blocked; [|done]. intros Hx.
    destruct (ODict.get x nodes) as [node|] eqn:Hxn; [|done].
    assert (Hk : is_and nodes x = true).
    { unfold is_and. rewrite Hxn. apply bool_decide_eq_true. by apply (Hand x). }
    destruct (HJ x Hk) as [Hocc _]. revert Hocc. occ_norm. rewrite decide_True by done.
    intros Hocc HV%occurrences_pos. lia.
Qed.

Lemma trace_blocked fuel :
  ∀ (cur V : list string) indeg st,
    scheduled_once nodes indeg (V ++ cur) →
    blocked nodes c p indeg V →
    Forall (λ fm, c ∉ fm.1) (match_trace fuel nodes children cur indeg st).
Proof.
  assert (Hk : is_and nodes c = true).
  { unfold is_and. rewrite Hc. apply bool_decide_eq_true. by apply (Hand c). }
  induction fuel as [|fuel IH]; intros cur V indeg st HJ Hb;
    (destruct cur as [|x cur]; [constructor |]); [constructor |].
  cbn [match_trace]. constructor.
  - simpl. intros Hin. destruct (HJ c Hk) as [_ Hdeg].
    destruct Hdeg as (d & Hd & Hle); [apply elem_of_app; by right |].
    destruct Hb as (d' & Hd' & Hge). rewrite Hd in Hd'. injection Hd' as <-. lia.
  - unfold run_round.
    pose proof (visit_fold_visited nodes children (x :: cur) V (mkRound indeg [] [] st)) as H1.
    pose proof (visit_fold_blocked (x :: cur) V (mkRound indeg [] [] st)) as H2.
    cbn [r_in_degree r_next_round] in H1, H2. rewrite app_nil_r in H1, H2.
    apply (IH _ (V ++ x :: cur)).
    + rewrite <- app_assoc. by apply H1.
    + by apply H2.
Qed.

End pruned.

(** X12. When every group is in mode [and]: a group that depends, by an edge
    that is not inverted, on a group whose pipeline does not match enters no
    frontier.  Its filters are not run and it is not in the result. *)
Theorem unmatched_dependency_prunes nm fuel st c p node_c node_p :
  let nodes := make_nodes nm in
  let g := build_graph nodes in
  all_and nodes →
  ODict.get c nodes = Some node_c → ODict.get p nodes = Some node_p →
  p ∈ depend_on node_c → p ∉ depend_on_inverted node_c →
  (∀ s, (GroupFilter_pipeline node_p s).1 = false) →
  Forall (λ fm, c ∉ fm.1) (match_trace fuel nodes g.2 (zero_in_degree g.1) g.1 st)
  ∧ ∀ result st', GroupFilter_match fuel nm st = Some (Some result, st') → c ∉ result.
Proof.
  intros nodes g Hand Hc Hp Hdep Hinv Hnever.
  pose proof (make_nodes_well_keyed nm) as Hwk. fold nodes in Hwk.
  pose proof (children_ok_build _ Hwk) as Hch. fold g in Hch.
  destruct (build_graph_spec nodes Hwk) as (Hdeg & _ & Hkeys). fold g in Hdeg, Hkeys.
  assert (Hnd : NoDup (ODict.keys g.1)) by (rewrite Hkeys; apply Hwk).
  assert (Htrace : Forall (λ fm, c ∉ fm.1)
                     (match_trace fuel nodes g.2 (zero_in_degree g.1) g.1 st)).
  { apply (trace_blocked nodes g.2 c p node_c node_p Hwk Hch Hand Hc Hp Hinv Hnever
             fuel _ [] g.1 st).
    - by apply initial_scheduled_once.
    - exists (Z.of_nat (length (par nodes c))). split.
      + rewrite (par_get _ _ _ Hc). by apply Hdeg.
      + rewrite filter_notin_nil.
        assert (Hpin : p ∈ par nodes c).
        { apply elem_of_par. exists node_c. split; [done |]. split; [done |].
          apply elem_of_keys. by rewrite Hp. }
        assert (Hlt : (length (filter (.≠ p) (par nodes c)) < length (par nodes c))%nat)
          by (apply (length_filter_lt _ _ p); [done | by intros ?]).
        lia. }
  split; [done |].
  intros result st'. unfold GroupFilter_match.
  destruct (GroupFilter_is_cyclic fuel nm) as [[]|]; simpl; [done | | done].
  fold nodes. fold g.
  destruct (match_loop fuel nodes g.2 (zero_in_degree g.1) g.1 [] st) as [[res s]|] eqn:Hloop;
    simpl; [|done].
  intros [= <- <-]. destruct (match_loop_result _ _ _ _ _ _ _ _ _ Hloop) as (-> & Hsub & _).
  simpl. intros (m & Hin & Hm)%list_elem_of_join.
  apply list_elem_of_fmap in Hm as ([fr rm] & -> & Hm).
  rewrite Forall_forall in Hsub, Htrace.
  apply (Htrace _ Hm). simpl. eapply elem_of_sublist; [done | apply (Hsub _ Hm)].
Qed.

End GraphLaws.

(** * Further properties of the rule executor *)

Section ExecutorLaws.
Context {Env : Type}.
Implicit Types (st : @State Env) (r : @Rule Env) (x : @Exec Env).
Local Open Scope nat_scope.

Lemma flat_branch_total r simulate sm skip st :
  ∃ sm' skip' st', flat_branch r simulate sm skip st = (sm', skip', st').
Proof. destruct (flat_branch r simulate sm skip st) as [[sm' skip'] st']. eauto. Qed.

(** One pass of the loop body over an acyclic collection returns. *)
Lemma process_resource_returns fuel r simulate nr x p :
  ¬ has_cycle (classify_by_type (rule_filters r)).1 →
  length (classify_by_type (rule_filters r)).1 ≤ fuel →
  ∃ x', process_resource fuel r simulate nr x p = Some (Return (), x').
Proof.
  intros Hacyc Hfuel. unfold process_resource. case_bool_decide; [eauto |].
  destruct (classify_by_type (rule_filters r)).1 as [|g gfs] eqn:Hgf.
  - destruct (flat_branch _ _ _ _ _) as [[sm skip] st']. eauto.
  - unfold group_branch. rewrite Hgf.
    destruct (group_filter_pipeline_returns (g :: gfs) fuel
                (mkState (new_resource (Some p) nr) (ex_out x) (ex_env x)) Hacyc Hfuel)
      as (result & st1 & ->). simpl.
    destruct (try_actions _ _ _ _ _) as [[sm1 skip1] st2]. simpl.
    destruct (flat_branch _ _ _ _ _) as [[sm skip] st']. eauto.
Qed.

Lemma execute_loop_returns fuel r simulate nr (walk : list Path) x :
  ¬ has_cycle (classify_by_type (rule_filters r)).1 →
  length (classify_by_type (rule_filters r)).1 ≤ fuel →
  ∃ x', execute_loop fuel r simulate nr walk x = Some (Return (), x').
Proof.
  intros Hacyc Hfuel. revert x. induction walk as [|p walk IH]; intros x; simpl; [eauto |].
  destruct (process_resource_returns fuel r simulate nr x p Hacyc Hfuel) as [x1 ->]. simpl.
  apply IH.
Qed.

(** X13. [execute] on a rule whose group filters are acyclic returns a
    summary for every walk: no exception leaves it, whatever the filters and
    the actions raise, and the loops of the matcher end for every resource. *)
Theorem acyclic_rule_returns fuel r simulate nr (walk : list Path) out env :
  ¬ has_cycle (classify_by_type (rule_filters r)).1 →
  length (classify_by_type (rule_filters r)).1 ≤ fuel →
  ∃ x, Rule_execute fuel r simulate nr walk out env = Some (Return (), x).
Proof.
  intros Hacyc Hfuel. unfold Rule_execute.
  destruct (negb (enabled r)); [eauto |].
  destruct (locations r) as [|l ls].
  - destruct (action_pipeline _ _ _) as [[|text sender] st']; eauto.
  - by apply execute_loop_returns.
Qed.

(** X14. The one exception that leaves [execute] is the [ValueError] of a
    cyclic collection of group filters, and it leaves at the first resource:
    nothing has been counted, no message written and no filter or action run. *)
Theorem only_cyclic_error_escapes fuel r simulate nr (walk : list Path) out env e x :
  length (classify_by_type (rule_filters r)).1 ≤ fuel →
  Rule_execute fuel r simulate nr walk out env = Some (Raise e, x) →
  e = Error "Cyclic dependency detected in filters."
  ∧ has_cycle (classify_by_type (rule_filters r)).1
  ∧ x = mkExec (mkSummary 0 0) ∅ out env
  ∧ walk ≠ [] ∧ enabled r = true ∧ locations r ≠ [].
Proof.
  intros Hfuel. unfold Rule_execute.
  destruct (enabled r); simpl; [|done].
  destruct (locations r) as [|l ls].
  { by destruct (action_pipeline _ _ _) as [[|text sender] st']. }
  destruct (cycle_or_not _ _ Hfuel) as [Hcyc|Hacyc].
  2: { destruct (execute_loop_returns fuel r simulate nr walk
                   (mkExec (mkSummary 0 0) ∅ out env) Hacyc Hfuel) as [x' ->]. done. }
  destruct walk as [|p walk]; [done |]. simpl.
  unfold process_resource. rewrite bool_decide_eq_false_2 by set_solver.
  pose proof (has_cycle_nonempty _ Hcyc) as Hne.
  destruct (classify_by_type (rule_filters r)).1 as [|g gfs] eqn:Hgf; [done |].
  unfold group_branch. rewrite Hgf. unfold group_filter_pipeline.
  rewrite (is_cyclic_complete _ _ Hcyc Hfuel). simpl.
  intros [= <- <-]. done.
Qed.

(** X15. Group actions run only behind group filters: for a rule with flat
    filters and a map of group actions, what [execute] returns, writes and
    changes does not depend on the group actions. *)
Theorem group_actions_need_group_filters fuel r r' simulate nr (walk : list Path) out env
    (fs : list (@Filter Env)) (gas gas' : list (@GroupAction Env)) :
  enabled r = enabled r' → locations r = locations r' →
  rule_filter_mode r = rule_filter_mode r' →
  rule_filters r = inl fs → rule_filters r' = inl fs →
  rule_actions r = inr gas → rule_actions r' = inr gas' →
  gas ≠ [] → gas' ≠ [] →
  Rule_execute fuel r simulate nr walk out env = Rule_execute fuel r' simulate nr walk out env.
Proof.
  intros Hen Hloc Hmode Hf Hf' Ha Ha' Hne Hne'.
  assert (Hflat : ∀ sm skip st,
            flat_branch r simulate sm skip st = flat_branch r' simulate sm skip st).
  { intros sm skip st. unfold flat_branch, has_actions.
    rewrite Hf, Hf', Ha, Ha', Hmode. simpl.
    by rewrite !bool_decide_eq_true_2. }
  assert (Hproc : ∀ x p, process_resource fuel r simulate nr x p
                         = process_resource fuel r' simulate nr x p).
  { intros x p. unfold process_resource. rewrite Hf, Hf'. simpl. by rewrite Hflat. }
  unfold Rule_execute. rewrite Hen, Hloc, Ha, Ha'. simpl.
  destruct (negb (enabled r')); [done |].
  destruct (locations r') as [|l ls]; [done |].
  generalize (mkExec (mkSummary 0 0) ∅ out env).
  induction walk as [|p walk IH]; intros x; simpl; [done |].
  rewrite Hproc. destruct (process_resource fuel r' simulate nr x p) as [[[[]|e] x1]|]; simpl; auto.
Qed.

End ExecutorLaws.

(** * Validation and configuration *)

Section ValidationLaws.
Context {Env : Type}.
Implicit Types (r : @Rule Env) (f : @Filter Env) (a : @Action Env).

Lemma check_each_Return {A} (ok : A → bool) msg (xs : list A) :
  check_each ok msg xs = Return () ↔ Forall (λ x, ok x = true) xs.
Proof.
  induction xs as [|x xs IH]; simpl; [by split |].
  rewrite Forall_cons, <- IH. destruct (ok x); split; try done; [tauto | by intros [? ?]].
Qed.

Lemma check_each_first {A} (ok : A → bool) msg (pre post : list A) x :
  Forall (λ x, ok x = true) pre → ok x = false →
  check_each ok msg (pre ++ x :: post) = Raise (Error (msg x)).
Proof.
  induction 1 as [|y pre Hy _ IH]; intros Hx; simpl.
  - by rewrite Hx.
  - rewrite Hy. by apply IH.
Qed.

Lemma and_then_Return c1 c2 :
  and_then c1 c2 = Return () ↔ c1 = Return () ∧ c2 = Return ().
Proof. destruct c1 as [[]|e]; simpl; [tauto |]. split; [done | by intros [? _]]. Qed.

Lemma foldl_snoc_id {A} (xs acc : list A) : foldl (λ acc x, acc ++ [x]) acc xs = acc ++ xs.
Proof.
  revert acc. induction xs as [|x xs IH]; intros acc; simpl; [by rewrite app_nil_r |].
  by rewrite IH, <- app_assoc.
Qed.

Lemma foldl_extend {A B} (sel : A → list B) (xs : list A) (acc : list B) :
  foldl (λ acc x, acc ++ sel x) acc xs = acc ++ mjoin (sel <$> xs).
Proof.
  revert acc. induction xs as [|x xs IH]; intros acc; simpl; [by rewrite app_nil_r |].
  by rewrite IH, <- app_assoc.
Qed.

(** The filters that validation looks at: the flat ones, or those of every group. *)
Lemma elem_of_all_filters r f :
  f ∈ all_filters r ↔
  match rule_filters r with
  | inl fs => f ∈ fs
  | inr gfs => ∃ g, g ∈ gfs ∧ f ∈ filters g
  end.
Proof.
  unfold all_filters. destruct (rule_filters r) as [fs|gfs].
  - by rewrite foldl_snoc_id.
  - rewrite foldl_extend. simpl. rewrite list_elem_of_join. split.
    + intros (l & Hf & (g & -> & Hg)%list_elem_of_fmap). eauto.
    + intros (g & Hg & Hf). exists (filters g). split; [done |].
      apply list_elem_of_fmap. eauto.
Qed.

Lemma elem_of_all_actions r a :
  a ∈ all_actions r ↔
  match rule_actions r with
  | inl acts => a ∈ acts
  | inr gas => ∃ g, g ∈ gas ∧ a ∈ actions g
  end.
Proof.
  unfold all_actions. destruct (rule_actions r) as [acts|gas].
  - by rewrite foldl_snoc_id.
  - rewrite foldl_extend. simpl. rewrite list_elem_of_join. split.
    + intros (l & Hf & (g & -> & Hg)%list_elem_of_fmap). eauto.
    + intros (g & Hg & Hf). exists (actions g). split; [done |].
      apply list_elem_of_fmap. eauto.
Qed.

(** X16. What validation accepts: a rule without locations has no filters
    and only actions that support standalone mode; the target is [dirs] or
    [files], and every filter and every action of the rule, flat or inside a
    group, supports it. *)
Theorem validate_target_support_accepts targets r :
  validate_target_support targets r = Return () ↔
    (locations r = [] →
       has_filters r = false
       ∧ ∀ a, a ∈ all_actions r → ac_standalone (action_config a) = true)
    ∧ ((targets = "dirs"
        ∧ (∀ f, f ∈ all_filters r → fc_dirs (filter_config f) = true)
        ∧ (∀ a, a ∈ all_actions r → ac_dirs (action_config a) = true))
       ∨ (targets = "files"
          ∧ (∀ f, f ∈ all_filters r → fc_files (filter_config f) = true)
          ∧ (∀ a, a ∈ all_actions r → ac_files (action_config a) = true))).
Proof.
  unfold validate_target_support. rewrite and_then_Return.
  match goal with
  | |- ?A ∧ ?B ↔ ?C ∧ ?D => assert (HA : A ↔ C); [|assert (HB : B ↔ D); [|tauto]]
  end.
  - destruct (locations r) as [|l ls].
    + destruct (has_filters r).
      * split; [done | intros H; by destruct (H eq_refl)].
      * rewrite check_each_Return, Forall_forall. split; [auto | intros H; by apply H].
    + split; done.
  - case_bool_decide as Hd; [|case_bool_decide as Hf].
    + rewrite and_then_Return, !check_each_Return, !Forall_forall. subst targets.
      split; [intros [? ?]; by left | intros [(_ & ? & ?)|(? & _)]; done].
    + rewrite and_then_Return, !check_each_Return, !Forall_forall. subst targets.
      split; [intros [? ?]; by right | intros [(? & _)|(_ & ? & ?)]; done].
    + split; [done | intros [(? & _)|(? & _)]; done].
Qed.

(** X17. The order of the checks: with no locations, the presence of
    filters is reported before anything else, whatever the target; for the
    target [files] of a rule with locations, the first filter that does not
    support files is the one reported, before any action is looked at. *)
Theorem validate_target_support_first_error targets r :
  (locations r = [] → has_filters r = true →
     validate_target_support targets r
     = Raise (Error "Filters are present but no locations are given!"))
  ∧ (∀ pre post f,
       locations r ≠ [] → targets = "files" →
       all_filters r = pre ++ f :: post →
       Forall (λ f, fc_files (filter_config f) = true) pre →
       fc_files (filter_config f) = false →
       validate_target_support targets r
       = Raise (Error (not_supported "Filter" (fc_name (filter_config f))
                         "files (targets: files)"))).
Proof.
  split.
  - intros Hloc Hf. unfold validate_target_support. by rewrite Hloc, Hf.
  - intros pre post f Hloc -> Hall Hpre Hf. unfold validate_target_support.
    destruct (locations r); [done |]. simpl.
    rewrite Hall, (check_each_first _ _ pre post f Hpre Hf). done.
Qed.

End ValidationLaws.

Section ConfigurationLaws.
Context {Env : Type}.
Implicit Types (d : @GroupFilterDict Env).

Lemma prefix_drop (p s : string) :
  String.prefix p s = true → s = p +:+ string_drop (String.length p) s.
Proof.
  revert s. induction p as [|c p IH]; intros s; [done |].
  destruct s as [|c' s]; [done |]. cbn [String.prefix String.length string_drop].
  destruct (Ascii.ascii_dec c c') as [<-|]; [|done].
  intros H.
  change (String c s = String c (p +:+ string_drop (String.length p) s)).
  f_equal. by apply IH.
Qed.

Lemma prefix_append (p x : string) :
  String.prefix p (p +:+ x) = true ∧ string_drop (String.length p) (p +:+ x) = x.
Proof.
  induction p as [|c p [IH1 IH2]]; [split; [by destruct x | done] |].
  change (String c p +:+ x) with (String c (p +:+ x)).
  cbn [String.prefix String.length string_drop].
  by destruct (Ascii.ascii_dec c c).
Qed.

Lemma prefix_not dep :
  String.prefix "not " dep = true ↔ dep = "not " +:+ string_drop 4 dep.
Proof.
  split; [apply (prefix_drop "not ") |].
  intros ->. apply (prefix_append "not ").
Qed.

Lemma not_prefixed x :
  String.prefix "not " ("not " +:+ x) = true ∧ string_drop 4 ("not " +:+ x) = x.
Proof. apply (prefix_append "not "). Qed.

(** The two sets after the loop over the names [deps]. *)
Lemma add_dep_fold (deps : list string) (acc : gset string * gset string) x :
  (x ∈ (foldl add_dep acc deps).1 ↔
     x ∈ acc.1 ∨ (x ∈ deps ∧ String.prefix "not " x = false) ∨ ("not " +:+ x) ∈ deps)
  ∧ (x ∈ (foldl add_dep acc deps).2 ↔ x ∈ acc.2 ∨ ("not " +:+ x) ∈ deps).
Proof.
  revert acc. induction deps as [|dep deps IH]; intros acc; simpl.
  - rewrite !elem_of_nil. tauto.
  - destruct (IH (add_dep acc dep)) as [-> ->]. rewrite !elem_of_cons. unfold add_dep.
    destruct (String.prefix "not " dep) eqn:Hp; cbn [fst snd];
      rewrite !elem_of_union, ?elem_of_singleton.
    + assert (Heq : x = string_drop 4 dep ↔ "not " +:+ x = dep).
      { apply prefix_not in Hp.
        split; [intros ->; done | intros <-; by destruct (not_prefixed x)]. }
      assert (Hxd : x = dep → String.prefix "not " x = false → False) by congruence.
      rewrite Heq. tauto.
    + assert (Hne : "not " +:+ x ≠ dep).
      { intros <-. destruct (not_prefixed x). congruence. }
      assert (Hxd : x = dep → String.prefix "not " x = false) by congruence.
      tauto.
Qed.

(** X18. The group that the configuration yields: a name listed as
    ["not x"] puts [x] in both sets, so [depend_on_inverted] is a part of
    [depend_on], and listing [x] beside ["not x"] leaves the edge inverted;
    the mode of every configured group is [and]. *)
Theorem group_filter_from_dict_edges name_ d :
  let g := group_filter_from_dict name_ d in
  (∀ x, x ∈ depend_on g ↔
        (x ∈ d_depend_on d ∧ String.prefix "not " x = false)
        ∨ ("not " +:+ x) ∈ d_depend_on d)
  ∧ (∀ x, x ∈ depend_on_inverted g ↔ ("not " +:+ x) ∈ d_depend_on d)
  ∧ depend_on_inverted g ⊆ depend_on g
  ∧ depend_on_mode g = depend_and
  ∧ name g = name_ ∧ filters g = d_filters d ∧ filter_mode g = d_filter_mode d.
Proof.
  intros g.
  assert (H1 : ∀ x, x ∈ depend_on g ↔
             (x ∈ d_depend_on d ∧ String.prefix "not " x = false)
             ∨ ("not " +:+ x) ∈ d_depend_on d).
  { intros x. unfold g, group_filter_from_dict. cbn [depend_on].
    rewrite (proj1 (add_dep_fold _ _ x)). cbn [fst].
    rewrite !elem_of_elements, !elem_of_list_to_set.
    pose proof (not_elem_of_empty (C:=gset string) x). tauto. }
  assert (H2 : ∀ x, x ∈ depend_on_inverted g ↔ ("not " +:+ x) ∈ d_depend_on d).
  { intros x. unfold g, group_filter_from_dict. cbn [depend_on_inverted].
    rewrite (proj2 (add_dep_fold _ _ x)). cbn [snd].
    rewrite !elem_of_elements, !elem_of_list_to_set.
    pose proof (not_elem_of_empty (C:=gset string) x). tauto. }
  split_and!; [done | done | | done..].
  intros x. rewrite H1, H2. tauto.
Qed.

Lemma NoDup_occurrences (l : list string) : (∀ k, (occurrences k l ≤ 1)%nat) → NoDup l.
Proof.
  induction l as [|x l IH]; intros H; [constructor |]. constructor.
  - intros Hx%occurrences_pos. specialize (H x). rewrite occurrences_cons in H.
    rewrite decide_True in H by done. lia.
  - apply IH. intros k. specialize (H k). rewrite occurrences_cons in H.
    destruct (decide (k = x)); lia.
Qed.

Lemma get_make_nodes_elem (nm : list (@GroupFilter Env)) k node :
  ODict.get k (make_nodes nm) = Some node → node ∈ nm.
Proof.
  unfold make_nodes. induction nm as [|n nm IH] using rev_ind; [done |].
  rewrite fmap_app. simpl. rewrite from_list_snoc, get_set, elem_of_app.
  case_decide; [intros [= <-]; right; by left | intros ?; left; auto].
Qed.

(** When every group is in mode [and], the matcher lists no name twice. *)
Lemma and_mode_match_NoDup (nm : list (@GroupFilter Env)) fuel st result st' :
  Forall (λ g, depend_on_mode g = depend_and) nm →
  GroupFilter_match fuel nm st = Some (Some result, st') → NoDup result.
Proof.
  intros Hand. unfold GroupFilter_match.
  destruct (GroupFilter_is_cyclic fuel nm) as [[]|]; simpl; [done | | done].
  set (nodes := make_nodes nm). set (g := build_graph nodes).
  destruct (match_loop fuel nodes g.2 (zero_in_degree g.1) g.1 [] st) as [[res s]|] eqn:Hloop;
    simpl; [|done].
  intros [= <- <-].
  pose proof (make_nodes_well_keyed nm) as Hwk. fold nodes in Hwk.
  pose proof (children_ok_build _ Hwk) as Hch. fold g in Hch.
  destruct (build_graph_spec nodes Hwk) as (_ & _ & Hkeys). fold g in Hkeys.
  assert (Hnd : NoDup (ODict.keys g.1)) by (rewrite Hkeys; apply Hwk).
  destruct (match_loop_result _ _ _ _ _ _ _ _ _ Hloop) as (Hres & Hsub & Honce).
  specialize (Honce (initial_scheduled_once nodes g.1 Hnd)).
  pose proof (match_trace_known nodes g.2 Hwk Hch fuel (zero_in_degree g.1) g.1 st) as Hknown.
  apply NoDup_occurrences. intros k.
  destruct (ODict.get k nodes) as [node|] eqn:Hk.
  - apply Honce. unfold is_and. rewrite Hk. apply bool_decide_eq_true.
    rewrite Forall_forall in Hand. apply Hand.
    by apply (get_make_nodes_elem nm k).
  - assert (Hnot : k ∉ res); [|by destruct (occurrences k res) eqn:E;
      [lia | exfalso; apply Hnot, occurrences_pos; lia]].
    rewrite Hres. simpl. intros (m & Hin & Hm)%list_elem_of_join.
    apply list_elem_of_fmap in Hm as ([fr rm] & -> & Hm).
    assert (H0 : ∀ c, c ∈ zero_in_degree g.1 → c ∈ ODict.keys nodes).
    { intros c Hc%elem_of_zero_in_degree; [|done]. rewrite <- Hkeys.
      apply elem_of_keys. eauto. }
    specialize (Hknown H0). rewrite Forall_forall in Hsub, Hknown.
    assert (Hkk : k ∈ ODict.keys nodes).
    { apply (Hknown _ Hm). simpl. eapply elem_of_sublist; [done | apply (Hsub _ Hm)]. }
    apply elem_of_keys in Hkk as [? ?]. congruence.
Qed.

(** X19. For the groups of a configuration the matcher lists no name
    twice: the configuration yields groups in mode [and] only. *)
Theorem configured_groups_listed_once (instances : ODict.t (@GroupFilterDict Env))
    fuel st result st' :
  GroupFilter_match fuel (transform_instances_dict instances) st = Some (Some result, st') →
  NoDup result
  ∧ Forall (λ g, depend_on_mode g = depend_and) (transform_instances_dict instances).
Proof.
  assert (Hand : Forall (λ g : @GroupFilter Env, depend_on_mode g = depend_and)
                   (transform_instances_dict instances)).
  { unfold transform_instances_dict. apply Forall_fmap, Forall_true. done. }
  intros H. split; [|done]. by eapply and_mode_match_NoDup.
Qed.

End ConfigurationLaws.

(** * The filter [dircontent] and the action [make_pdf] *)

Module DirContentLaws.
Import DirContent.

Lemma relative_to_Some path base :
  is_Some (relative_to path base) ↔
  base `prefix_of` path ∧ ¬ (base = [] ∧ is_absolute path = true).
Proof.
  unfold relative_to. destruct base as [|b base].
  - destruct (is_absolute path); split.
    + by intros [? ?].
    + intros [_ H]. by destruct H.
    + intros _. split; [apply prefix_nil | by intros [_ ?]].
    + eauto.
  - case_bool_decide as H; split.
    + intros _. split; [done | by intros [? _]].
    + eauto.
    + by intros [? ?].
    + by intros [? _].
Qed.

Lemma relative_to_prefix path base :
  is_Some (relative_to path base) → base `prefix_of` path.
Proof. by intros [? _]%relative_to_Some. Qed.

(** [lies_under path base]: [path.relative_to(base)] does not raise. *)
Definition lies_under (path base : Parts) : Prop := is_Some (relative_to path base).

#[global] Instance lies_under_dec path base : Decision (lies_under path base).
Proof. unfold lies_under. apply _. Defined.

Lemma lies_under_refl path : lies_under path path.
Proof.
  apply relative_to_Some. split; [done |]. intros [-> H]. done.
Qed.

Lemma has_elem_of path (base_dirs : list Parts) : has path base_dirs = true ↔ path ∈ base_dirs.
Proof.
  unfold has. rewrite existsb_exists. split.
  - intros (p & Hin%list_elem_of_In & ->%bool_decide_eq_true). done.
  - intros Hin. exists path. split; [by apply list_elem_of_In | by apply bool_decide_eq_true].
Qed.

(** X20. [BaseDirSet.add] keeps the set covering: after [add path] the
    path lies under a registered directory, whatever lay under a registered
    directory still does, and the list has grown by at most one entry. *)
Theorem add_covers path (base_dirs : list Parts) :
  (∃ b, b ∈ add path base_dirs ∧ b `prefix_of` path)
  ∧ (∀ q b, b ∈ base_dirs → b `prefix_of` q →
       ∃ b', b' ∈ add path base_dirs ∧ b' `prefix_of` q)
  ∧ (length base_dirs ≤ length (add path base_dirs) ≤ S (length base_dirs))%nat.
Proof.
  induction base_dirs as [|d ds (IH1 & IH2 & IH3)]; simpl.
  - split_and!; [exists path; split; [by left | done] | by intros q b ?%elem_of_nil | lia..].
  - destruct (relative_to path d) eqn:H1.
    { assert (Hd : d `prefix_of` path) by (apply relative_to_prefix; eauto).
      split_and!; [exists d; split; [by left | done] | eauto | simpl; lia..]. }
    destruct (relative_to d path) eqn:H2.
    { assert (Hd : path `prefix_of` d) by (apply relative_to_prefix; eauto).
      split_and!; [exists path; split; [by left | done] | | simpl; lia..].
      intros q b [->|Hb]%elem_of_cons Hq.
      - exists path. split; [by left | by etrans].
      - exists b. split; [by right | done]. }
    split_and!; [| | simpl; lia..].
    + destruct IH1 as (b & Hb & Hp). exists b. split; [by right | done].
    + intros q b [->|Hb]%elem_of_cons Hq.
      * exists d. split; [by left | done].
      * destruct (IH2 q b Hb Hq) as (b' & Hb' & Hq'). exists b'. split; [by right | done].
Qed.

(** No two distinct registered directories lie one under the other. *)
Definition antichain (base_dirs : list Parts) : Prop :=
  ∀ a b, a ∈ base_dirs → b ∈ base_dirs → lies_under b a → a = b.

(** X21. When no registered directory lies strictly under [path] (the
    walker yields a directory before what is inside it), [add path] leaves
    the list as it is if [path] lies under a registered directory, and
    appends [path] otherwise; [has path] then holds exactly when [path] was
    registered already or lay under no registered directory, and an
    antichain stays one.  To lie under is what [relative_to] decides: an
    absolute path does not lie under [Path(".")]. *)
Theorem add_parents_first path (base_dirs : list Parts) :
  (∀ b, b ∈ base_dirs → lies_under b path → b = path) →
  add path base_dirs
  = (if existsb (λ b, bool_decide (lies_under path b)) base_dirs
     then base_dirs else base_dirs ++ [path])
  ∧ (has path (add path base_dirs) = true ↔
       path ∈ base_dirs ∨ ∀ b, b ∈ base_dirs → ¬ lies_under path b)
  ∧ (antichain base_dirs → antichain (add path base_dirs)).
Proof.
  intros Hdesc.
  assert (Hadd : add path base_dirs
                 = (if existsb (λ b, bool_decide (lies_under path b)) base_dirs
                    then base_dirs else base_dirs ++ [path])).
  { induction base_dirs as [|d ds IH]; simpl; [done |].
    destruct (relative_to path d) eqn:H1.
    { rewrite bool_decide_eq_true_2; [done |]. unfold lies_under. rewrite H1. eauto. }
    rewrite bool_decide_eq_false_2
      by (unfold lies_under; rewrite H1; by intros [? ?]).
    simpl. destruct (relative_to d path) eqn:H2.
    { assert (Hd : lies_under d path) by (unfold lies_under; rewrite H2; eauto).
      rewrite (Hdesc d) in H1; [|by left | done].
      destruct (lies_under_refl path) as [? Hrefl]. congruence. }
    rewrite IH by (intros b Hb; apply Hdesc; by right).
    by case_match. }
  assert (Hex : existsb (λ b, bool_decide (lies_under path b)) base_dirs = true
                ↔ ∃ b, b ∈ base_dirs ∧ lies_under path b).
  { rewrite existsb_exists. split.
    - intros (b & Hb%list_elem_of_In & Hp%bool_decide_eq_true). eauto.
    - intros (b & Hb & Hp). exists b.
      split; [by apply list_elem_of_In | by apply bool_decide_eq_true]. }
  split; [done |]. rewrite Hadd, has_elem_of.
  destruct (existsb (λ b, bool_decide (lies_under path b)) base_dirs) eqn:He.
  - destruct (proj1 Hex eq_refl) as (b & Hb & Hp). split.
    + split; [by left |]. intros [?|Hno]; [done |]. by destruct (Hno b Hb).
    + done.
  - assert (Hno : ∀ b, b ∈ base_dirs → ¬ lies_under path b).
    { intros b Hb Hp. assert (false = true) by (apply Hex; eauto). done. }
    split.
    + split; [by right |]. intros _. apply elem_of_app. right. by left.
    + intros Hanti a b [Ha|Ha%list_elem_of_singleton]%elem_of_app
        [Hb|Hb%list_elem_of_singleton]%elem_of_app Hab; subst.
      * by apply Hanti.
      * by destruct (Hno a Ha).
      * symmetry. by apply Hdesc.
      * done.
Qed.

Lemma file_dirs_loop_plain path (children : list Child) (has_file has_dir : bool)
    (base_dirs : list Parts) :
  has_file && has_dir = false →
  file_dirs_loop false path children has_file has_dir base_dirs
  = ((has_file || existsb is_file children) && (has_dir || existsb is_dir children), base_dirs).
Proof.
  revert has_file has_dir. induction children as [|c cs IH]; intros hf hd Hacc; simpl.
  - rewrite !orb_false_r. by rewrite Hacc.
  - destruct (is_file c), (is_dir c), hf, hd; simpl in *; try done;
      try (rewrite IH by done; simpl; by rewrite ?orb_true_r).
Qed.

(** X22. The mode [file_dirs] without [base_file_dirs] holds exactly when
    the directory has an entry that is a file and an entry that is a
    directory, in whatever order they come, and it leaves the registered
    directories alone. *)
Theorem file_dirs_result p (children : list Child) (base_dirs : list Parts) :
  pipeline mode_file_dirs false (Some p) children base_dirs
  = (Return (existsb is_file children && existsb is_dir children), base_dirs).
Proof. unfold pipeline. by rewrite file_dirs_loop_plain. Qed.

(** X23. With [base_file_dirs], a directory that has a file and a
    directory among its entries matches exactly when [add] leaves it
    registered; a directory lacking one of the two does not match and
    registers nothing. *)
Theorem file_dirs_registers p (children : list Child) (base_dirs : list Parts) :
  (existsb is_file children && existsb is_dir children = true →
     pipeline mode_file_dirs true (Some p) children base_dirs
     = (Return (has p (add p base_dirs)), add p base_dirs))
  ∧ (existsb is_file children && existsb is_dir children = false →
     pipeline mode_file_dirs true (Some p) children base_dirs = (Return false, base_dirs)).
Proof.
  unfold pipeline.
  assert (H : ∀ hf hd, hf && hd = false →
            file_dirs_loop true p children hf hd base_dirs
            = if (hf || existsb is_file children) && (hd || existsb is_dir children)
              then (has p (add p base_dirs), add p base_dirs)
              else (false, base_dirs)).
  { induction children as [|c cs IH]; intros hf hd Hacc; simpl.
    - rewrite !orb_false_r. by rewrite Hacc.
    - destruct (is_file c), (is_dir c), hf, hd; simpl in *; try done;
        try (rewrite IH by done; simpl; by rewrite ?orb_true_r). }
  rewrite H by done. simpl. split; intros ->; done.
Qed.

End DirContentLaws.

Module MakePdfLaws.
Import MakePdf.

(** X24. The JPEG quality handed to Pillow lies between 1 and 95 and
    falls as the compression level rises; the levels up to 6 give 95, the
    levels from 100 on give 1; only the level 0 gives no options. *)
Theorem pdf_options_quality (compression_level : Z) :
  (pdf_options compression_level = None ↔ compression_level = 0)
  ∧ (compression_level ≠ 0 →
       pdf_options compression_level = Some (true, jpeg_quality compression_level))
  ∧ 1 ≤ jpeg_quality compression_level ≤ 95
  ∧ (∀ c', compression_level ≤ c' → jpeg_quality c' ≤ jpeg_quality compression_level)
  ∧ (jpeg_quality compression_level = 95 ↔ compression_level ≤ 6)
  ∧ (jpeg_quality compression_level = 1 ↔ 100 ≤ compression_level)
  ∧ (6 ≤ compression_level ≤ 100 →
       jpeg_quality compression_level = 101 - compression_level).
Proof.
  unfold pdf_options, jpeg_quality. split_and!.
  - case_bool_decide; split; done.
  - intros H. by rewrite bool_decide_eq_false_2.
  - lia.
  - lia.
  - intros c' H. lia.
  - lia.
  - lia.
  - lia.
Qed.

End MakePdfLaws.

(** * Capabilities of the shipped filters and actions *)

Section CapabilityLaws.
Context {Env : Type}.
Implicit Types (r : @Rule Env) (f : @Filter Env) (a : @Action Env).

(** What an accepted rule satisfies, check by check. *)
Lemma validate_Return_inv targets r :
  validate_target_support targets r = Return () →
  (locations r = [] → Forall (λ a, ac_standalone (action_config a) = true) (all_actions r))
  ∧ ((targets = "dirs"
      ∧ Forall (λ f, fc_dirs (filter_config f) = true) (all_filters r)
      ∧ Forall (λ a, ac_dirs (action_config a) = true) (all_actions r))
     ∨ (targets = "files"
        ∧ Forall (λ f, fc_files (filter_config f) = true) (all_filters r)
        ∧ Forall (λ a, ac_files (action_config a) = true) (all_actions r))).
Proof.
  unfold validate_target_support. intros [H1 H2]%and_then_Return. split.
  - intros Hloc. rewrite Hloc in H1. destruct (has_filters r); [done |].
    by apply check_each_Return in H1.
  - clear H1. case_bool_decide as Hd; [|case_bool_decide as Hf; [|done]].
    + apply and_then_Return in H2 as [?%check_each_Return ?%check_each_Return]. by left.
    + apply and_then_Return in H2 as [?%check_each_Return ?%check_each_Return]. by right.
Qed.

(** X25. What validation means for the filters and actions of this
    repository: [make_pdf], [make_heic] and [extract_heic] are accepted only
    in a rule with locations, so their pipelines get a resource with a path;
    [dircontent] only with the target [dirs]; [mediainfo],
    [otaku_mediainfos] and [extract_heic] only with the target [files]. *)
Theorem shipped_capabilities targets r :
  validate_target_support targets r = Return () →
  (∀ a, a ∈ all_actions r →
        action_config a ∈ [MakePdf.action_config; MakeHeic.action_config;
                           ExtractHeic.action_config] →
        locations r ≠ [])
  ∧ (∀ f, f ∈ all_filters r → filter_config f = DirContent.filter_config →
          targets = "dirs")
  ∧ (∀ f, f ∈ all_filters r →
          filter_config f ∈ [MediaInfo.filter_config; OtakuMediaInfos.filter_config] →
          targets = "files")
  ∧ (∀ a, a ∈ all_actions r → action_config a = ExtractHeic.action_config →
          targets = "files").
Proof.
  intros (Hst & Htg)%validate_Return_inv. split_and!.
  - intros a Ha Hcfg Hloc. specialize (Hst Hloc). rewrite Forall_forall in Hst.
    specialize (Hst a Ha).
    repeat (apply elem_of_cons in Hcfg as [Hcfg|Hcfg]; [by rewrite Hcfg in Hst |]).
    by apply elem_of_nil in Hcfg.
  - intros f Hf Hcfg. destruct Htg as [(? & _)|(_ & Hfs & _)]; [done |].
    rewrite Forall_forall in Hfs. specialize (Hfs f Hf). by rewrite Hcfg in Hfs.
  - intros f Hf Hcfg. destruct Htg as [(_ & Hfs & _)|(? & _)]; [|done].
    rewrite Forall_forall in Hfs. specialize (Hfs f Hf).
    repeat (apply elem_of_cons in Hcfg as [Hcfg|Hcfg]; [by rewrite Hcfg in Hfs |]).
    by apply elem_of_nil in Hcfg.
  - intros a Ha Hcfg. destruct Htg as [(_ & _ & Has)|(? & _)]; [|done].
    rewrite Forall_forall in Has. specialize (Has a Ha). by rewrite Hcfg in Has.
Qed.

End CapabilityLaws.

(** * The matcher and its prototype *)

Section PrototypeLaws.
Context {Env : Type}.
Implicit Types (nodes : ODict.t (@GroupFilter Env)) (nm : list (@GroupFilter Env))
  (st : @State Env).

(** A group as a node of the prototype: [match] runs the group's pipeline. *)
Definition to_node (g : @GroupFilter Env) : @Prototype.Node (@State Env) :=
  Prototype.mkNode (name g) (elements (depend_on g)) (GroupFilter_pipeline g).

(** A collection the prototype can express: every group is in mode [and]
    and inverts none of its dependencies. *)
Definition plain nm : Prop :=
  Forall (λ g, depend_on_mode g = depend_and
               ∧ ∀ x, x ∈ depend_on g → x ∉ depend_on_inverted g) nm.

Lemma set_fmap {V W} (f : V → W) (d : ODict.t V) k v :
  ODict.set k (f v) (prod_map id f <$> d) = prod_map id f <$> ODict.set k v d.
Proof.
  induction d as [|[k0 v0] d IH]; simpl; [done |].
  case_decide; simpl; [done |]. f_equal. exact IH.
Qed.

Lemma from_list_fmap {V W} (f : V → W) (l : list (string * V)) :
  ODict.from_list (prod_map id f <$> l) = prod_map id f <$> ODict.from_list l.
Proof.
  induction l as [|[k v] l IH] using rev_ind; [done |].
  rewrite fmap_app. simpl. rewrite !from_list_snoc, IH. apply set_fmap.
Qed.

Lemma get_fmap {V W} (f : V → W) (d : ODict.t V) k :
  ODict.get k (prod_map id f <$> d) = f <$> ODict.get k d.
Proof.
  induction d as [|[k0 v0] d IH]; simpl; [done |]. by case_decide.
Qed.

Lemma keys_fmap {V W} (f : V → W) (d : ODict.t V) :
  ODict.keys (prod_map id f <$> d) = ODict.keys d.
Proof. unfold ODict.keys. rewrite <- list_fmap_compose. by apply list_fmap_ext; intros ? []. Qed.

Lemma values_fmap {V W} (f : V → W) (d : ODict.t V) :
  ODict.values (prod_map id f <$> d) = f <$> ODict.values d.
Proof.
  unfold ODict.values. rewrite <- !list_fmap_compose. by apply list_fmap_ext; intros ? [].
Qed.

Lemma prototype_nodes nm :
  Prototype.make_nodes (to_node <$> nm) = prod_map id to_node <$> make_nodes nm.
Proof.
  unfold Prototype.make_nodes, make_nodes. rewrite <- from_list_fmap. f_equal.
  rewrite <- !list_fmap_compose. by apply list_fmap_ext.
Qed.

Lemma foldl_ext_in {A B} (f g : A → B → A) (l : list B) (a : A) :
  (∀ a b, b ∈ l → f a b = g a b) → foldl f a l = foldl g a l.
Proof.
  revert a. induction l as [|b l IH]; intros a H; simpl; [done |].
  rewrite H by (by left). apply IH. intros a' b' Hb'. apply H. by right.
Qed.

Lemma prototype_graph nodes :
  Prototype.build_graph (prod_map id to_node <$> nodes) = build_graph nodes.
Proof.
  unfold Prototype.build_graph, build_graph, init_in_degree, init_children.
  rewrite keys_fmap, values_fmap.
  generalize (ODict.from_list ((λ k, (k, 0)) <$> ODict.keys nodes),
              ODict.from_list ((λ k : string, (k, @nil string)) <$> ODict.keys nodes)).
  induction (ODict.values nodes) as [|g gs IH]; intros acc; simpl; [done |].
  rewrite <- IH. f_equal. apply foldl_ext_in. intros a dep _.
  unfold Prototype.add_dependency, add_dependency, ODict.contains.
  rewrite get_fmap.
  assert (Hc : bool_decide (is_Some (to_node <$> ODict.get dep nodes))
               = bool_decide (is_Some (ODict.get dep nodes)))
    by (apply bool_decide_ext; by rewrite fmap_is_Some).
  by rewrite Hc.
Qed.

Lemma is_cyclic_agree nm fuel :
  GroupFilter_is_cyclic fuel nm = Prototype.is_cyclic fuel (to_node <$> nm).
Proof.
  unfold GroupFilter_is_cyclic, Prototype.is_cyclic.
  rewrite prototype_nodes, prototype_graph. by rewrite length_fmap.
Qed.

(** X26. The prototype and [GroupFilter] build the same tables
    [in_degree] and [children], and their cycle checks give the same answer
    on every collection, with the same fuel: Kahn's check looks at the
    names in [depend_on] only. *)
Theorem is_cyclic_is_prototype nm fuel :
  Prototype.build_graph (Prototype.make_nodes (to_node <$> nm)) = build_graph (make_nodes nm)
  ∧ GroupFilter_is_cyclic fuel nm = Prototype.is_cyclic fuel (to_node <$> nm).
Proof.
  split; [|apply is_cyclic_agree]. by rewrite prototype_nodes, prototype_graph.
Qed.

(** The round of the matcher as a round of the prototype. *)
Definition to_round (r : @Round Env) : @Prototype.Round (@State Env) :=
  Prototype.mkRound (r_in_degree r) (r_next_round r) (r_round_matched r) (r_state r).

Section plain_collection.
Context (nm : list (@GroupFilter Env)).
Hypothesis Hplain : plain nm.
Let nodes := make_nodes nm.
Let children := (build_graph nodes).2.

Lemma plain_get k node :
  ODict.get k nodes = Some node →
  depend_on_mode node = depend_and ∧ ∀ x, x ∈ depend_on node → x ∉ depend_on_inverted node.
Proof.
  intros Hget%get_make_nodes_elem. unfold plain in Hplain.
  rewrite Forall_forall in Hplain. by apply Hplain.
Qed.

(** On an edge of a plain collection the matcher does to the child what
    the prototype does, when the parent matched, and nothing otherwise. *)
Lemma propagate_plain x (matched : bool) acc c :
  edge nodes x c →
  propagate nodes x matched acc c = if matched then release_child acc c else acc.
Proof.
  intros (node & Hc & Hx & _). unfold propagate, release_child. rewrite Hc.
  destruct (plain_get c node Hc) as [Hmode Hinv].
  rewrite (bool_decide_eq_false_2 (x ∈ depend_on_inverted node)) by auto.
  rewrite xorb_false_r. destruct matched; [|done].
  rewrite Hmode. rewrite (bool_decide_eq_false_2 (depend_and = depend_or)) by done. simpl.
  destruct acc as [indeg nx]. simpl.
  destruct (decide (ODict.get c (ODict.update c (λ d, d - 1) indeg) = Some 0)).
  - by rewrite bool_decide_eq_true_2.
  - by rewrite bool_decide_eq_false_2.
Qed.

Lemma propagate_fold_plain x (matched : bool) acc (cs : list string) :
  (∀ c, c ∈ cs → edge nodes x c) →
  foldl (propagate nodes x matched) acc cs
  = if matched then foldl release_child acc cs else acc.
Proof.
  revert acc. induction cs as [|c cs IH]; intros acc H; simpl; [by destruct matched |].
  rewrite propagate_plain by (apply H; by left).
  rewrite IH by (intros c' Hc'; apply H; by right). by destruct matched.
Qed.

Lemma visit_plain (r : @Round Env) x :
  Prototype.visit (prod_map id to_node <$> nodes) children (to_round r) x
  = to_round (visit nodes children r x).
Proof.
  pose proof (make_nodes_well_keyed nm) as Hwk. fold nodes in Hwk.
  unfold Prototype.visit. rewrite get_fmap.
  destruct (ODict.get x nodes) as [node|] eqn:Hx; simpl.
  2: { by rewrite (visit_None _ _ _ _ Hx). }
  rewrite (visit_Some _ _ _ _ _ Hx). cbn zeta.
  assert (Hxk : x ∈ ODict.keys nodes) by (apply elem_of_keys; eauto).
  rewrite propagate_fold_plain.
  2: { intros c Hc. unfold children in Hc. rewrite (children_ok_build _ Hwk x Hxk) in Hc.
       by apply elem_of_child_list in Hc. }
  destruct (GroupFilter_pipeline node (r_state r)) as [[] st']; done.
Qed.

Lemma round_plain (cur : list string) (r : @Round Env) :
  foldl (Prototype.visit (prod_map id to_node <$> nodes) children) (to_round r) cur
  = to_round (foldl (visit nodes children) r cur).
Proof.
  revert r. induction cur as [|x cur IH]; intros r; simpl; [done |].
  by rewrite visit_plain, IH.
Qed.

(** A round that has matched nothing has scheduled nothing. *)
Lemma round_matched_nothing (cur : list string) (r : @Round Env) :
  (r_round_matched r = [] → r_next_round r = []) →
  r_round_matched (foldl (visit nodes children) r cur) = [] →
  r_next_round (foldl (visit nodes children) r cur) = [].
Proof.
  pose proof (make_nodes_well_keyed nm) as Hwk. fold nodes in Hwk.
  revert r. induction cur as [|x cur IH]; intros r Hr; simpl; [done |].
  apply IH. destruct (ODict.get x nodes) as [node|] eqn:Hx.
  2: { by rewrite (visit_None _ _ _ _ Hx). }
  rewrite (visit_Some _ _ _ _ _ Hx). cbn zeta.
  assert (Hxk : x ∈ ODict.keys nodes) by (apply elem_of_keys; eauto).
  rewrite propagate_fold_plain.
  2: { intros c Hc. unfold children in Hc. rewrite (children_ok_build _ Hwk x Hxk) in Hc.
       by apply elem_of_child_list in Hc. }
  destruct (GroupFilter_pipeline node (r_state r)) as [[] st']; simpl; [|done].
  by intros [_ [=]]%app_eq_nil.
Qed.

Lemma match_loop_plain fuel :
  ∀ (cur : list string) indeg result st,
    Prototype.match_loop fuel (prod_map id to_node <$> nodes) children cur indeg result st
    = match_loop fuel nodes children cur indeg result st.
Proof.
  induction fuel as [|fuel IH]; intros cur indeg result st; destruct cur as [|x cur]; try done.
  cbn [Prototype.match_loop match_loop]. unfold run_round.
  change (Prototype.mkRound indeg [] [] st) with (to_round (mkRound indeg [] [] st)).
  rewrite round_plain.
  set (r := foldl (visit nodes children) (mkRound indeg [] [] st) (x :: cur)).
  cbn [to_round Prototype.p_round_matched Prototype.p_next_round Prototype.p_in_degree
       Prototype.p_state].
  destruct (r_round_matched r) as [|m ms] eqn:Hm.
  - assert (Hnx : r_next_round r = [])
      by (by apply (round_matched_nothing (x :: cur) (mkRound indeg [] [] st))).
    rewrite Hnx, app_nil_r. by destruct fuel.
  - apply IH.
Qed.

End plain_collection.

(** X27. On a collection in which every group is in mode [and] and no
    dependency is inverted, [GroupFilter.match] is the prototype
    [find_matching_path]: the same result and the same state, with the same
    fuel.  The prototype leaves its loop after a round that matched nothing;
    the matcher goes on, and finds the next frontier empty. *)
Theorem match_refines_prototype nm fuel st :
  plain nm →
  GroupFilter_match fuel nm st = Prototype.find_matching_path fuel (to_node <$> nm) st.
Proof.
  intros Hplain. unfold GroupFilter_match, Prototype.find_matching_path.
  rewrite <- is_cyclic_agree.
  destruct (GroupFilter_is_cyclic fuel nm) as [[]|]; simpl; [done | | done].
  rewrite prototype_nodes, prototype_graph.
  by rewrite (match_loop_plain nm Hplain).
Qed.

End PrototypeLaws.

(** * Worked instances *)

Module Examples.

(** The world of the instances is a log of the filters and actions that ran. *)
Definition Log := list string.

Definition log (l : string) (st : @State Log) : @State Log :=
  mkState (st_res st) (st_out st) (st_env st ++ [l]).

(** A filter that records its run and yields a fixed outcome. *)
Definition probe (label : string) (result : Outcome bool) : @Filter Log :=
  mkFilter (mkFilterConfig label true true) (λ st, (result, log label st)).

(** An action that records its run and yields a fixed outcome. *)
Definition act (label : string) (result : Outcome unit) : @Action Log :=
  mkAction (mkActionConfig label true true true) (λ _ st, (result, log label st)).

(** An action that asks the walker to skip [p], then yields [result]. *)
Definition consume (label : string) (p : Path) (result : Outcome unit) : @Action Log :=
  mkAction (mkActionConfig label true true true)
    (λ _ st,
       let res := st_res st in
       (result,
        log label
          (mkState (mkResource (path res) (rule_nr res) (vars res)
                               (walker_skip_pathes res ∪ {[p]}))
                   (st_out st) (st_env st)))).

Definition s0 : @State Log := mkState (new_resource (Some "/in/a") 0) [] [].

Definition group (k : string) (result : bool) (deps : gset string) (mode : DependOnMode)
    (inverted : gset string) : @GroupFilter Log :=
  mkGroupFilter k [probe k (Return result)] mode_all deps mode inverted.

Definition ran (events : list string) (st : @State Log) : @State Log :=
  mkState (st_res st) (st_out st) (st_env st ++ events).

(** C1: two parents of an or-mode group *)
Definition diamond : list (@GroupFilter Log) :=
  [ group "A" true ∅ depend_and ∅;
    group "B" true ∅ depend_and ∅;
    group "D" true {["A"; "B"]} depend_or ∅ ].

(** C1, the matcher at the failing input: [D] depends on [A] and [B] in mode
    [or]; both match, each puts [D] into the next frontier, and [D] is
    evaluated and listed twice, in an acyclic collection. *)
Lemma or_mode_group_listed_twice :
  ¬ has_cycle diamond
  ∧ GroupFilter_match 3 diamond s0
    = Some (Some ["A"; "B"; "D"; "D"], ran ["A"; "B"; "D"; "D"] s0).
Proof.
  split.
  - apply (acyclic_by_check diamond 3); [simpl; lia | vm_compute; reflexivity].
  - vm_compute. reflexivity.
Qed.

(** C1: [E] waits, in mode [and], for [D] and for [F], which does not match *)
Definition double_release (mode : DependOnMode) : list (@GroupFilter Log) :=
  [ group "A" true ∅ depend_and ∅;
    group "B" true ∅ depend_and ∅;
    group "D" true {["A"; "B"]} mode ∅;
    group "F" false ∅ depend_and ∅;
    group "E" true {["D"; "F"]} depend_and ∅ ].

(** C1, what the repeated entry does further on: with [D] in mode [or] the
    two visits of [D] take the in-degree of [E] from 2 to 0, and [E] is
    evaluated and listed although [F] has not matched; with [D] in mode
    [and] the same groups give [A; B; D] and [E] is not evaluated. *)
Lemma or_mode_double_visit_releases_and_child :
  GroupFilter_match 5 (double_release depend_or) s0
  = Some (Some ["A"; "B"; "D"; "D"; "E"], ran ["A"; "B"; "F"; "D"; "D"; "E"] s0)
  ∧ GroupFilter_match 5 (double_release depend_and) s0
    = Some (Some ["A"; "B"; "D"], ran ["A"; "B"; "F"; "D"] s0).
Proof. split; vm_compute; reflexivity. Qed.

(** C2: the five groups of the worked example *)
Definition five : list (@GroupFilter Log) :=
  [ group "A" true ∅ depend_and ∅;
    group "B" true {["A"]} depend_and ∅;
    group "C" false {["A"]} depend_and ∅;
    group "D" true {["B"; "C"]} depend_and ∅;
    group "E" true {["B"]} depend_and ∅ ].

(** X28, instance of [match_acyclic]. *)
Lemma match_acyclic_witness :
  ∃ result st',
    GroupFilter_match 5 five s0 = Some (Some result, st')
    ∧ (∀ k, k ∈ result → k ∈ name <$> five)
    ∧ (∀ k node, ODict.get k (make_nodes five) = Some node →
         depend_on_mode node = depend_and → (occurrences k result ≤ 1)%nat).
Proof.
  destruct (match_acyclic five 5 s0) as (result & st' & H1 & H2 & H3 & _).
  - apply (acyclic_by_check five 5); [simpl; lia | vm_compute; reflexivity].
  - simpl. lia.
  - exists result, st'. auto.
Defined.

(** A filter that matches the resource at [p] and no other, and records
    its run. *)
Definition on_path (label : string) (p : Path) : @Filter Log :=
  mkFilter (mkFilterConfig label true true)
    (λ st, (Return (bool_decide (path (st_res st) = Some p)), log label st)).

(** C2: the five groups, [A] and [E] matching the resource [/in/a] only *)
Definition five_on_path : list (@GroupFilter Log) :=
  [ mkGroupFilter "A" [on_path "A" "/in/a"] mode_all ∅ depend_and ∅;
    group "B" true {["A"]} depend_and ∅;
    group "C" false {["A"]} depend_and ∅;
    group "D" true {["B"; "C"]} depend_and ∅;
    mkGroupFilter "E" [on_path "E" "/in/a"] mode_all {["B"]} depend_and ∅ ].

(** C2, instances of [worked_example]: the log shows the pipelines that
    ran.  In the second one the outcomes of [A] and [E] depend on the
    resource. *)
Lemma worked_example_witness :
  GroupFilter_match 5 five s0 = Some (Some ["A"; "B"; "E"], ran ["A"; "B"; "C"; "E"] s0)
  ∧ GroupFilter_match 5 five_on_path s0
    = Some (Some ["A"; "B"; "E"], ran ["A"; "B"; "C"; "E"] s0).
Proof.
  split.
  - apply (worked_example [probe "A" (Return true)] [probe "B" (Return true)]
             [probe "C" (Return false)] [probe "D" (Return true)] [probe "E" (Return true)]
             mode_all mode_all mode_all mode_all mode_all
             depend_and depend_and depend_and depend_and s0 5);
      [reflexivity.. | lia].
  - apply (worked_example [on_path "A" "/in/a"] [probe "B" (Return true)]
             [probe "C" (Return false)] [probe "D" (Return true)] [on_path "E" "/in/a"]
             mode_all mode_all mode_all mode_all mode_all
             depend_and depend_and depend_and depend_and s0 5);
      [reflexivity.. | lia].
Defined.

(** C4, C5: two groups that depend on each other *)
Definition mutual : list (@GroupFilter Log) :=
  [ group "A" true {["B"]} depend_and ∅;
    group "B" true {["A"]} depend_and ∅ ].

Lemma mutual_has_cycle : has_cycle mutual.
Proof.
  exists "A". apply (tc_l _ _ "B").
  - exists (group "B" true {["A"]} depend_and ∅).
    split_and!; [reflexivity | set_solver | vm_compute; set_solver].
  - apply tc_once. exists (group "A" true {["B"]} depend_and ∅).
    split_and!; [reflexivity | set_solver | vm_compute; set_solver].
Qed.

(** C4, instance of [match_cyclic]. *)
Lemma match_cyclic_witness : GroupFilter_match 2 mutual s0 = Some (None, s0).
Proof. apply (match_cyclic mutual 2 s0 mutual_has_cycle). simpl. lia. Defined.

Definition mutual_rule : @Rule Log :=
  mkRule true ["/in"] (inr mutual) mode_all
         (inr [mkGroupAction "A" [act "a" (Return ())]]).

(** C5, counterexample: the rule is cyclic, the walker yields nothing, and
    [execute] returns the empty summary without raising. *)
Lemma cyclic_rule_without_resources :
  has_cycle mutual
  ∧ Rule_execute 2 mutual_rule false 0 [] [] []
    = Some (Return (), mkExec (mkSummary 0 0) ∅ [] []).
Proof. split; [exact mutual_has_cycle | reflexivity]. Qed.

(** C5, instance of [cyclic_rule_fails_at_first_resource]. *)
Lemma cyclic_rule_witness :
  Rule_execute 2 mutual_rule false 0 ["/in/a"; "/in/b"] [] []
  = Some (Raise (Error "Cyclic dependency detected in filters."),
          mkExec (mkSummary 0 0) ∅ [] [])
  ∧ Rule_execute 2 mutual_rule false 0 [] [] []
    = Some (Return (), mkExec (mkSummary 0 0) ∅ [] []).
Proof.
  apply (cyclic_rule_fails_at_first_resource 2 mutual_rule false 0 mutual "/in/a" ["/in/b"] [] []);
    [reflexivity | done | reflexivity | exact mutual_has_cycle | simpl; lia].
Defined.






(** C7, instances of [All_pipeline_stops]: the filter [c] does not run. *)
Lemma All_pipeline_stops_witness :
  filter_pipeline
    ([probe "a" (Return true)] ++ probe "b" (Raise (Error "boom")) :: [probe "c" (Return true)])
    mode_all s0
  = (false, output_msg "error" "boom" "b" (ran ["a"; "b"] s0))
  ∧ filter_pipeline
      ([probe "a" (Return true)] ++ probe "b" (Return false) :: [probe "c" (Return true)])
      mode_all s0
    = (false, ran ["a"; "b"] s0).
Proof.
  split.
  - exact (proj1 (All_pipeline_stops [probe "a" (Return true)] [probe "c" (Return true)]
                    (probe "b" (Raise (Error "boom"))) s0 (ran ["a"] s0) (ran ["a"; "b"] s0)
                    eq_refl) (Error "boom") eq_refl).
  - exact (proj2 (All_pipeline_stops [probe "a" (Return true)] [probe "c" (Return true)]
                    (probe "b" (Return false)) s0 (ran ["a"] s0) (ran ["a"; "b"] s0)
                    eq_refl) eq_refl).
Defined.

(** C9: the second action of [G] raises [StopIteration] *)
Definition stopping_group : @GroupAction Log :=
  mkGroupAction "G" [act "g1" (Return ()); act "g2" (Raise StopIteration); act "g3" (Return ())].

Definition sibling_group : @GroupAction Log :=
  mkGroupAction "H" [act "h1" (Return ())].

(** C9, instance of [stop_signal_ends_own_group]: [g3] does not run, [h1]
    does, and a success is counted. *)
Lemma stop_signal_witness :
  GroupAction_pipeline stopping_group false s0 = (Return (), ran ["g1"; "g2"] s0)
  ∧ try_actions [stopping_group; sibling_group] false (mkSummary 0 0) ∅ s0
    = (mkSummary 1 0, ∅ ∪ ∅, ran ["g1"; "g2"; "h1"] s0).
Proof.
  destruct (stop_signal_ends_own_group stopping_group [sibling_group]
              [act "g1" (Return ())] [act "g3" (Return ())] (act "g2" (Raise StopIteration))
              false s0 (ran ["g1"] s0) (ran ["g1"; "g2"] s0) eq_refl eq_refl eq_refl)
    as (H1 & _ & H3 & _).
  split; [exact H1 |]. apply (H3 (mkSummary 0 0) ∅ (ran ["g1"; "g2"; "h1"] s0)). reflexivity.
Defined.

(** C6: a rule with one group, on one resource *)
Definition group_rule : @Rule Log :=
  mkRule true ["/in"] (inr [group "A" true ∅ depend_and ∅]) mode_all
         (inr [mkGroupAction "A" [act "a" (Return ())]]).

(** C6, [execute] at the failing input: one resource, two increments.  The
    group block counts the resource, and the flat block, whose action list
    is empty, counts it again. *)
Lemma one_resource_counted_twice :
  Rule_execute 1 group_rule false 0 ["/in/a"] [] []
  = Some (Return (), mkExec (mkSummary 2 0) ∅ [] ["A"; "a"]).
Proof. vm_compute. reflexivity. Qed.

Definition group_rule_any : @Rule Log :=
  mkRule true ["/in"] (inr [group "A" true ∅ depend_and ∅]) mode_any
         (inr [mkGroupAction "A" [act "a" (Return ())]]).

(** C6, the same rule with [filter_mode] [any]: the flat block is not
    entered, and the resource is counted once. *)
Lemma one_resource_counted_once_under_any :
  Rule_execute 1 group_rule_any false 0 ["/in/a"] [] []
  = Some (Return (), mkExec (mkSummary 1 0) ∅ [] ["A"; "a"]).
Proof. vm_compute. reflexivity. Qed.

(** C10: a group action that records a path to skip, then fails *)
Definition failing_rule : @Rule Log :=
  mkRule true ["/in"] (inr [group "A" true ∅ depend_and ∅]) mode_all
         (inr [mkGroupAction "A" [consume "move" "/in/b" (Raise (Error "disk full"))]]).

(** C10, [execute] at the failing input: the action pipeline of [/in/a]
    raises, yet the path it recorded is in the skip set afterwards, and
    [/in/b] is not evaluated. *)
Lemma failed_run_grows_skip_set :
  Rule_execute 1 failing_rule false 0 ["/in/a"; "/in/b"] [] []
  = Some (Return (),
          mkExec (mkSummary 1 1) {["/in/b"]}
                 [mkMessage (Some "/in/a") "error" "disk full" "A"]
                 ["A"; "move"]).
Proof. vm_compute. reflexivity. Qed.

Definition failing_rule_any : @Rule Log :=
  mkRule true ["/in"] (inr [group "A" true ∅ depend_and ∅]) mode_any
         (inr [mkGroupAction "A" [consume "move" "/in/b" (Raise (Error "disk full"))]]).

Definition failing_flat_rule : @Rule Log :=
  mkRule true ["/in"] (inl []) mode_all
         (inl [consume "move" "/in/b" (Raise (Error "disk full"))]).

(** C10, the sibling paths: with [filter_mode] [any] the flat block is not
    entered, and with flat actions the one block fails; in both the skip
    set stays empty and [/in/b] is evaluated. *)
Lemma failed_run_keeps_skip_set_elsewhere :
  Rule_execute 1 failing_rule_any false 0 ["/in/a"; "/in/b"] [] []
  = Some (Return (),
          mkExec (mkSummary 0 2) ∅
                 [mkMessage (Some "/in/a") "error" "disk full" "A";
                  mkMessage (Some "/in/b") "error" "disk full" "A"]
                 ["A"; "move"; "A"; "move"])
  ∧ Rule_execute 0 failing_flat_rule false 0 ["/in/a"; "/in/b"] [] []
    = Some (Return (),
            mkExec (mkSummary 0 2) ∅
                   [mkMessage (Some "/in/a") "error" "disk full" "move";
                    mkMessage (Some "/in/b") "error" "disk full" "move"]
                   ["move"; "move"]).
Proof. split; vm_compute; reflexivity. Qed.

(** C8: the action asks the walker to skip [/in/b] *)
Definition moving_rule : @Rule Log :=
  mkRule true ["/in"] (inl []) mode_all (inl [consume "move" "/in/b" (Return ())]).

(** C8, instance of [skipped_path_is_not_evaluated]. *)
Lemma skipped_path_witness :
  Rule_execute 0 moving_rule false 0 ([] ++ "/in/a" :: ["/in/c"] ++ "/in/b" :: ["/in/d"]) [] []
  = Rule_execute 0 moving_rule false 0 ([] ++ "/in/a" :: ["/in/c"] ++ ["/in/d"]) [] [].
Proof.
  apply (skipped_path_is_not_evaluated 0 moving_rule false 0 [] ["/in/c"] ["/in/d"]
           "/in/a" "/in/b" [] [] (mkExec (mkSummary 1 0) {["/in/b"]} [] ["move"])).
  - vm_compute. reflexivity.
  - simpl. set_solver.
Defined.

End Examples.

(** * Further worked instances *)

Module Instances.
Import Examples.

(** X4, instance of [none_is_not_any]. *)
Lemma none_is_not_any_witness :
  (filter_pipeline [probe "a" (Return false); probe "b" (Return true)] mode_none s0).1
  = negb (filter_pipeline [probe "a" (Return false); probe "b" (Return true)] mode_any s0).1.
Proof.
  apply none_is_not_any. intros f st Hin.
  apply elem_of_cons in Hin as [->|Hin]; [eexists _, _; reflexivity |].
  apply list_elem_of_singleton in Hin as ->. eexists _, _; reflexivity.
Defined.

(** X5, instance of [none_stops_at_error]: the filter [c] does not run. *)
Lemma none_stops_at_error_witness :
  filter_pipeline
    ([probe "a" (Return false)] ++ probe "b" (Raise (Error "boom")) :: [probe "c" (Return false)])
    mode_none s0
  = (false, output_msg "error" "boom" "b" (ran ["a"; "b"] s0)).
Proof.
  exact (none_stops_at_error [probe "a" (Return false)] [probe "c" (Return false)]
           (probe "b" (Raise (Error "boom"))) s0 (ran ["a"] s0) (ran ["a"; "b"] s0)
           (Error "boom") eq_refl eq_refl).
Defined.

(** X6, instance of [action_pipeline_error]: the action [c] does not run. *)
Lemma action_pipeline_error_witness :
  action_pipeline
    ([act "a" (Return ())] ++ act "b" (Raise (Error "boom")) :: [act "c" (Return ())])
    false s0
  = (Propagated "boom" "b", ran ["a"; "b"] s0).
Proof.
  exact (action_pipeline_error [act "a" (Return ())] [act "c" (Return ())]
           (act "b" (Raise (Error "boom"))) false s0 (ran ["a"] s0) (ran ["a"; "b"] s0)
           "boom" eq_refl eq_refl).
Defined.

Definition failing_group : @GroupAction Log :=
  mkGroupAction "G" [act "g1" (Return ()); act "g2" (Raise (Error "boom")); act "g3" (Return ())].

(** X7, instance of [group_error_reported_by_group]: neither [g3] nor the
    sibling group runs, and the message names the group. *)
Lemma group_error_witness :
  action_pipeline [failing_group; sibling_group] false s0
  = (Propagated "boom" "G", ran ["g1"; "g2"] s0)
  ∧ try_actions [failing_group; sibling_group] false (mkSummary 0 0) ∅ s0
    = (mkSummary 0 1, ∅, output_msg "error" "boom" "G" (ran ["g1"; "g2"] s0)).
Proof.
  exact (group_error_reported_by_group failing_group [sibling_group]
           [act "g1" (Return ())] [act "g3" (Return ())] (act "g2" (Raise (Error "boom")))
           false s0 (ran ["g1"] s0) (ran ["g1"; "g2"] s0) "boom" (mkSummary 0 0) ∅
           eq_refl eq_refl eq_refl).
Defined.

(** X8, instance of [is_cyclic_decides]. *)
Lemma is_cyclic_decides_witness :
  (GroupFilter_is_cyclic 2 mutual = Some true ↔ has_cycle mutual)
  ∧ (GroupFilter_is_cyclic 2 mutual = Some false ↔ ¬ has_cycle mutual).
Proof. apply is_cyclic_decides. simpl. lia. Defined.

(** X9, instance of [group_filter_pipeline_outcomes]. *)
Lemma group_filter_pipeline_witness :
  (has_cycle five
   ∧ group_filter_pipeline 5 five s0
     = Some (Raise (Error "Cyclic dependency detected in filters."), s0))
  ∨ (¬ has_cycle five
     ∧ ∃ result st',
         GroupFilter_match 5 five s0 = Some (Some result, st')
         ∧ group_filter_pipeline 5 five s0 = Some (Return (Some result), st')).
Proof. apply group_filter_pipeline_outcomes. simpl. lia. Defined.

(** X11, instance of [and_group_evaluated_once]. *)
Lemma and_group_once_witness :
  (occurrences "E"
     (mjoin (match_trace 5 (make_nodes five) (build_graph (make_nodes five)).2
               (zero_in_degree (build_graph (make_nodes five)).1)
               (build_graph (make_nodes five)).1 s0).*1) ≤ 1)%nat.
Proof.
  apply (and_group_evaluated_once five 5 s0 "E" (group "E" true {["B"]} depend_and ∅));
    reflexivity.
Defined.

Lemma five_all_and : all_and (make_nodes five).
Proof.
  intros k node Hget%get_make_nodes_elem.
  repeat (apply elem_of_cons in Hget as [->|Hget]; [reflexivity |]).
  by apply elem_of_nil in Hget.
Qed.

(** X12, instance of [unmatched_dependency_prunes]: [C] does not match, so
    [D] enters no frontier. *)
Lemma unmatched_dependency_witness :
  Forall (λ fm, "D" ∉ fm.1)
    (match_trace 5 (make_nodes five) (build_graph (make_nodes five)).2
       (zero_in_degree (build_graph (make_nodes five)).1)
       (build_graph (make_nodes five)).1 s0)
  ∧ ∀ result st', GroupFilter_match 5 five s0 = Some (Some result, st') → "D" ∉ result.
Proof.
  apply (unmatched_dependency_prunes five 5 s0 "D" "C"
           (group "D" true {["B"; "C"]} depend_and ∅) (group "C" false {["A"]} depend_and ∅)).
  - exact five_all_and.
  - reflexivity.
  - reflexivity.
  - simpl. set_solver.
  - simpl. set_solver.
  - intros s. reflexivity.
Defined.

(** X13, instance of [acyclic_rule_returns]. *)
Lemma acyclic_rule_witness :
  ∃ x, Rule_execute 1 group_rule false 0 ["/in/a"; "/in/b"] [] [] = Some (Return (), x).
Proof.
  apply acyclic_rule_returns.
  - apply (acyclic_by_check _ 1); [simpl; lia | vm_compute; reflexivity].
  - simpl. lia.
Defined.

(** X14, instance of [only_cyclic_error_escapes]. *)
Lemma only_cyclic_error_witness :
  Error "Cyclic dependency detected in filters." = Error "Cyclic dependency detected in filters."
  ∧ has_cycle (classify_by_type (rule_filters mutual_rule)).1
  ∧ @mkExec Log (mkSummary 0 0) ∅ [] [] = mkExec (mkSummary 0 0) ∅ [] []
  ∧ ["/in/a"] ≠ [] ∧ enabled mutual_rule = true ∧ locations mutual_rule ≠ [].
Proof.
  apply (only_cyclic_error_escapes 2 mutual_rule false 0 ["/in/a"] [] []).
  - simpl. lia.
  - vm_compute. reflexivity.
Defined.

Definition flat_filter_rule (gas : list (@GroupAction Log)) : @Rule Log :=
  mkRule true ["/in"] (inl [probe "f" (Return true)]) mode_all (inr gas).

(** X15, instance of [group_actions_need_group_filters]. *)
Lemma group_actions_witness :
  Rule_execute 0 (flat_filter_rule [stopping_group]) false 0 ["/in/a"] [] []
  = Rule_execute 0 (flat_filter_rule [sibling_group; failing_group]) false 0 ["/in/a"] [] [].
Proof.
  apply (group_actions_need_group_filters 0 _ _ false 0 ["/in/a"] [] []
           [probe "f" (Return true)] [stopping_group] [sibling_group; failing_group]);
    done.
Defined.

(** X19: a configuration with an inverted dependency *)
Definition configured : ODict.t (@GroupFilterDict Log) :=
  [ ("A", mkGroupFilterDict [probe "A" (Return true)] mode_all []);
    ("B", mkGroupFilterDict [probe "B" (Return true)] mode_all ["not A"]);
    ("C", mkGroupFilterDict [probe "C" (Return true)] mode_all ["A"; "not B"]) ].

(** X19, instance of [configured_groups_listed_once]. *)
Lemma configured_groups_witness :
  NoDup ["A"]
  ∧ Forall (λ g, depend_on_mode g = depend_and) (transform_instances_dict configured).
Proof.
  apply (configured_groups_listed_once configured 3 s0 ["A"] (ran ["A"] s0)).
  vm_compute. reflexivity.
Defined.

(** X21, instances of [add_parents_first]: [/a/b] lies under the
    registered [/a] and is not added; [/a] does not lie under the registered
    [Path(".")] and is appended. *)
Lemma add_parents_first_witness :
  DirContent.add ["/"; "a"; "b"] [["/"; "a"]] = [["/"; "a"]]
  ∧ DirContent.add ["/"; "a"] [[]] = [[]; ["/"; "a"]].
Proof.
  split.
  - apply (DirContentLaws.add_parents_first ["/"; "a"; "b"] [["/"; "a"]]).
    intros b ->%list_elem_of_singleton [x Hx]. discriminate Hx.
  - apply (DirContentLaws.add_parents_first ["/"; "a"] [[]]).
    intros b ->%list_elem_of_singleton [x Hx]. discriminate Hx.
Defined.

Definition dir_rule : @Rule Log :=
  mkRule true ["/in"]
         (inl [mkFilter DirContent.filter_config (λ st, (Return true, st))]) mode_all
         (inl [mkAction MakePdf.action_config (λ _ st, (Return (), st))]).

(** X25, instance of [shipped_capabilities]. *)
Lemma shipped_capabilities_witness :
  (∀ a, a ∈ all_actions dir_rule →
        action_config a ∈ [MakePdf.action_config; MakeHeic.action_config;
                           ExtractHeic.action_config] →
        locations dir_rule ≠ [])
  ∧ (∀ f, f ∈ all_filters dir_rule → filter_config f = DirContent.filter_config →
          "dirs" = "dirs")
  ∧ (∀ f, f ∈ all_filters dir_rule →
          filter_config f ∈ [MediaInfo.filter_config; OtakuMediaInfos.filter_config] →
          "dirs" = "files")
  ∧ (∀ a, a ∈ all_actions dir_rule → action_config a = ExtractHeic.action_config →
          "dirs" = "files").
Proof. apply (shipped_capabilities "dirs" dir_rule). reflexivity. Defined.

(** X27, instance of [match_refines_prototype]. *)
Lemma match_refines_prototype_witness :
  GroupFilter_match 5 five s0 = Prototype.find_matching_path 5 (to_node <$> five) s0.
Proof.
  apply match_refines_prototype. unfold plain, five.
  repeat (apply Forall_cons; split;
          [split; [reflexivity | intros x _; apply not_elem_of_empty] |]).
  constructor.
Defined.

(** X29, instance of [flat_rule_counts_once]: two walked resources, one
    counted and one skipped. *)
Lemma flat_rule_counts_once_witness :
  (total (summary (@mkExec Log (mkSummary 1 0) {["/in/b"]} [] ["move"]))
   ≤ length ["/in/a"; "/in/b"])%nat.
Proof.
  apply (proj2 (proj2 (flat_rule_counts_once 0 moving_rule false 0 eq_refl))
           ["/in/a"; "/in/b"] [] []).
  - done.
  - vm_compute. reflexivity.
Defined.

(** X30, instance of [flat_rule_failure_keeps_skip_set]: the failing action
    has recorded [/in/b], and the skip set stays empty. *)
Lemma flat_rule_failure_witness :
  process_resource 0 failing_flat_rule false 0 (mkExec (mkSummary 0 0) ∅ [] []) "/in/a"
  = Some (Return (),
          mkExec (mkSummary 0 1) ∅ [mkMessage (Some "/in/a") "error" "disk full" "move"]
                 ["move"]).
Proof.
  apply (flat_rule_failure_keeps_skip_set 0 failing_flat_rule false 0
           (mkExec (mkSummary 0 0) ∅ [] []) "/in/a" [] "disk full" "move"
           (mkState (new_resource (Some "/in/a") 0) [] [])
           (mkState (mkResource (Some "/in/a") 0 [] {["/in/b"]}) [] ["move"])).
  - reflexivity.
  - set_solver.
  - reflexivity.
  - vm_compute. reflexivity.
Defined.

End Instances.
